(** * Microdata extraction: the parser of package [microdata]

    A shallow embedding of the HTML microdata parser and of the
    properties of its traversal.  The sources hold four revisions of
    the package.  Two are built on the [parser] type and share
    [getAttr], [walkNodes], [NewItem] and the [Item] model: the earlier
    one ([src/microdata.go], [parser.parse] and [parser.readItem]) is
    embedded first; the latest one ([src/unnamed/part_003], with
    [readAttr], [getValue] and the [isToplevel] flag of [readItem]) is
    module [Rev4].  The two revisions before them, [Parse] with its
    closure, are modules [Rev1] and [Rev2].

    The node tree comes from [golang.org/x/net/html]; relative URLs are
    resolved by [net/url].  Both are outside the package: a tree is a
    value of [Node], and a base URL is its resolution function. *)

From Stdlib Require Import String Ascii Lia.
From stdpp Require Import gmap strings list fin_maps option.

Local Open Scope string_scope.

(** ** The node tree of [golang.org/x/net/html] *)

(** [html.NodeType]. *)
Inductive NodeType : Set :=
  | ErrorNode | TextNode | DocumentNode | ElementNode | CommentNode | DoctypeNode.

(** [atom.Atom]: the element kinds [readItem] switches on; every other
    tag, known to the atom table or not (code 0), is [Other]. *)
Module atom.
Inductive Atom : Set :=
  | A | Area | Audio | Data | Embed | Iframe | Img | Link | Meta | Meter
  | Source | Time | Track | Video | Other.
End atom.

(** [html.Attribute]. *)
Record Attribute : Set := mkAttr { Namespace : string; Key : string; Val : string }.

(** [html.Node].  The [FirstChild]/[NextSibling] chain is the list
    [Children]; [Parent], [PrevSibling] and [LastChild] are never read. *)
#[warnings="-register-all"]
Inductive Node : Set :=
  mkNode { Type_ : NodeType; DataAtom : atom.Atom; Data : string;
           Attr : list Attribute; Children : list Node }.

(** [getAttr]: the value of the first attribute with the given key. *)
Fixpoint getAttrs (attribute : string) (attrs : list Attribute) : option string :=
  match attrs with
  | [] => None
  | attr :: rest =>
      if String.eqb attribute (Key attr) then Some (Val attr)
      else getAttrs attribute rest
  end.

Definition getAttr (attribute : string) (node : Node) : option string :=
  getAttrs attribute (Attr node).

Definition hasAttr (attribute : string) (node : Node) : bool :=
  match getAttr attribute node with Some _ => true | None => false end.

(** [walkNodes n f]: [f] runs on [n], then on the children's subtrees
    from first to last.  [f] updates the variables its closure captured;
    they are the state [s] threaded through. *)
Fixpoint walkNodes {S : Type} (n : Node) (f : Node -> S -> S) (s : S) : S :=
  (fix siblings (cs : list Node) (s : S) {struct cs} : S :=
     match cs with
     | [] => s
     | c :: cs' => siblings cs' (walkNodes c f s)
     end) (Children n) (f n s).

(** ** [strings.Split] and [len] *)

(** [strings.Split s sep] for a separator of one byte: the pieces of [s]
    between separators, empty pieces included; never the empty list. *)
Fixpoint Split (s : string) (sep : ascii) : list string :=
  match s with
  | EmptyString => [EmptyString]
  | String c rest =>
      if Ascii.eqb c sep then EmptyString :: Split rest sep
      else match Split rest sep with
           | [] => [String c EmptyString]
           | piece :: pieces => String c piece :: pieces
           end
  end.

(** [len(s) > 0]. *)
Definition nonempty (s : string) : bool :=
  match s with EmptyString => false | String _ _ => true end.

(** The tokens a [for _, tok := range strings.Split(s, " ")] loop acts
    on under its [if len(tok) > 0] guard. *)
Definition tokens (s : string) : list string := List.filter nonempty (Split s " ").

(** ** The microdata model *)

(** [Item] and the two dynamic types a [ValueList] entry takes.  An
    item is complete when it is stored as a value and is not written
    afterwards, so the pointer is modelled by the item itself. *)
Inductive Item : Type :=
  mkItem (Types : list string) (Properties : gmap string (list Value)) (Id : string)
with Value : Type :=
  | VString (s : string)
  | VItem (i : Item).

Definition Types (i : Item) : list string := let (t, _, _) := i in t.
Definition Properties (i : Item) : gmap string (list Value) := let (_, p, _) := i in p.
Definition Id (i : Item) : string := let (_, _, d) := i in d.

Record Microdata : Type := mkMicrodata { Items : list Item }.

(** [NewItem]. *)
Definition NewItem : Item := mkItem [] ∅ "".

(** [i.Properties[property] = append(i.Properties[property], value)]:
    a missing key reads as the nil slice. *)
Definition appendValue (i : Item) (property : string) (value : Value) : Item :=
  mkItem (Types i)
         (<[property := (default [] (Properties i !! property) ++ [value])%list]>
            (Properties i))
         (Id i).

(** [Item.addString], [Item.addItem], [Item.addType]. *)
Definition addString (i : Item) (property value : string) : Item :=
  appendValue i property (VString value).

Definition addItem (i : Item) (property : string) (value : Item) : Item :=
  appendValue i property (VItem value).

Definition addType (i : Item) (value : string) : Item :=
  mkItem (Types i ++ [value])%list (Properties i) (Id i).

(** [item.Id = s]. *)
Definition setId (i : Item) (s : string) : Item :=
  mkItem (Types i) (Properties i) s.

(** ** The parser *)

(** [*url.URL], as far as the parser uses it: [Resolve u s] is
    [u.Parse(s)] followed by [String()], and [None] when [Parse]
    returns an error. *)
Record URL : Type := mkURL { Resolve : string -> option string }.

(** Go's [error]; [nil] is [None]. *)
Definition error : Set := option string.

Record parser : Type :=
  mkParser { tree : Node; data : Microdata; baseURL : URL;
             identifiedNodes : gmap string Node }.

(** The parser [newParser] returns once [charset.NewReader] and
    [html.Parse] have produced [tree]. *)
Definition newParser (tree : Node) (baseURL : URL) : parser :=
  mkParser tree (mkMicrodata []) baseURL ∅.

(** A loop whose body may not return: the first [None] ends it. *)
Fixpoint foldM {A B : Type} (f : B -> A -> option B) (l : list A) (b : B) : option B :=
  match l with
  | [] => Some b
  | a :: l' => b' ← f b a; foldM f l' b'
  end.

(** The closure of the default case of [readItem]: text payloads are
    written to the buffer. *)
Definition writeText (n : Node) (buf : string) : string :=
  match Type_ n with
  | TextNode => String.append buf (Data n)
  | _ => buf
  end.

(** The [switch node.DataAtom] of [readItem]: [propValue]. *)
Definition propValue (p : parser) (node : Node) : string :=
  match DataAtom node with
  | atom.Meta =>
      match getAttr "content" node with Some value => value | None => "" end
  | atom.Audio | atom.Embed | atom.Iframe | atom.Img
  | atom.Source | atom.Track | atom.Video =>
      match getAttr "src" node with
      | Some value =>
          match Resolve (baseURL p) value with Some u => u | None => "" end
      | None => ""
      end
  | atom.A | atom.Area | atom.Link =>
      match getAttr "href" node with
      | Some value =>
          match Resolve (baseURL p) value with Some u => u | None => "" end
      | None => ""
      end
  | atom.Data | atom.Meter =>
      match getAttr "value" node with Some value => value | None => "" end
  | atom.Time =>
      match getAttr "datetime" node with Some value => value | None => "" end
  | atom.Other => walkNodes node writeText ""
  end.

(** The [itemref] loop shared by [parse] and [readItem]: every
    non-empty token found in [identifiedNodes] is read into [item] by
    [rd], the recursive call. *)
Definition readRefs (p : parser) (rd : Item -> Node -> option Item)
    (itemrefs : string) (item : Item) : option Item :=
  foldM (fun item itemref =>
           if nonempty itemref then
             match identifiedNodes p !! itemref with
             | Some n => rd item n
             | None => Some item
             end
           else Some item)
        (Split itemrefs " ") item.

(** The loops over the property names of a node. *)
Definition addItems (item : Item) (itemprops : string) (subItem : Item) : Item :=
  fold_left (fun item propName =>
               if nonempty propName then addItem item propName subItem else item)
            (Split itemprops " ") item.

Definition addStrings (item : Item) (itemprops : string) (value : string) : Item :=
  fold_left (fun item propName =>
               if nonempty propName then addString item propName value else item)
            (Split itemprops " ") item.

(** [parser.readItem] of the earlier revision: it builds the item of
    a nested scope from [NewItem] and descends into every node.  The
    call stack is bounded by [fuel]: a call needs one unit and passes
    the rest to the calls it makes, so the least sufficient [fuel] is
    the recursion depth, and [None] is a descent deeper than [fuel]. *)
Fixpoint readItem (p : parser) (fuel : nat) (item : Item) (node : Node)
    {struct fuel} : option Item :=
  match fuel with
  | 0 => None
  | S fuel' =>
      match getAttr "itemprop" node with
      | Some itemprops =>
          match getAttr "itemscope" node with
          | Some _ =>
              subItem ← match getAttr "itemref" node with
                        | Some itemrefs => readRefs p (readItem p fuel') itemrefs NewItem
                        | None => Some NewItem
                        end;
              subItem ← foldM (readItem p fuel') (Children node) subItem;
              Some (addItems item itemprops subItem)
          | None =>
              let propValue := propValue p node in
              let item := if nonempty propValue
                          then addStrings item itemprops propValue
                          else item in
              foldM (readItem p fuel') (Children node) item
          end
      | None => foldM (readItem p fuel') (Children node) item
      end
  end.

(** The closure the earlier [parse] passes to [walkNodes]: it
    collects the nodes with [itemscope] and [itemtype] as top-level
    nodes and fills [identifiedNodes]. *)
Definition scanNode (n : Node) (st : list Node * gmap string Node)
    : list Node * gmap string Node :=
  let toplevelNodes :=
    match getAttr "itemscope" n with
    | Some _ =>
        match getAttr "itemtype" n with
        | Some _ => (st.1 ++ [n])%list
        | None => st.1
        end
    | None => st.1
    end in
  let identifiedNodes :=
    match getAttr "id" n with
    | Some id => <[id := n]> st.2
    | None => st.2
    end in
  (toplevelNodes, identifiedNodes).

(** The types and the id a top-level node gives its item. *)
Definition readTypes (p : parser) (node : Node) (item : Item) : Item :=
  match getAttr "itemtype" node with
  | Some s =>
      let item := fold_left (fun item itemtype =>
                               if nonempty itemtype then addType item itemtype else item)
                            (Split s " ") item in
      match getAttr "itemid" node with
      | Some s =>
          match Resolve (baseURL p) s with
          | Some u => setId item u
          | None => item
          end
      | None => item
      end
  | None => item
  end.

(** The body of [for _, node := range toplevelNodes] in [parse]. *)
Definition parseNode (p : parser) (fuel : nat) (node : Node) : option Item :=
  let item := readTypes p node NewItem in
  item ← match getAttr "itemref" node with
         | Some s => readRefs p (readItem p fuel) s item
         | None => Some item
         end;
  foldM (readItem p fuel) (Children node) item.

(** The first half of [parse]: the walk over the tree. *)
Definition scan (p : parser) : list Node * gmap string Node :=
  walkNodes (tree p) scanNode ([], identifiedNodes p).

(** [parser.parse] of the earlier revision.  The item of a node is
    appended to [p.data.Items] and then filled through its pointer;
    here it is filled and then appended.  [None] is a [readItem]
    deeper than [fuel]. *)
Definition parse (p : parser) (fuel : nat) : option (Microdata * error) :=
  let (toplevelNodes, ids) := scan p in
  let p := mkParser (tree p) (data p) (baseURL p) ids in
  items ← foldM (fun items node =>
                   item ← parseNode p fuel node; Some (items ++ [item])%list)
                toplevelNodes (Items (data p));
  Some (mkMicrodata items, None).

(** ** Notions the properties are stated with *)

(** The nodes of a subtree in document order: a node before its
    descendants, siblings from first to last. *)
Fixpoint preorder (n : Node) : list Node :=
  n :: (fix siblings (cs : list Node) : list Node :=
          match cs with
          | [] => []
          | c :: cs' => (preorder c ++ siblings cs')%list
          end) (Children n).

(** Induction on a tree, with the property at hand for every child. *)
Section NodeInduction.
Variable P : Node -> Prop.
Hypothesis step : forall ty a d attrs cs,
    Forall P cs -> P (mkNode ty a d attrs cs).

Fixpoint Node_forall_ind (n : Node) : P n :=
  match n with
  | mkNode ty a d attrs cs =>
      step ty a d attrs cs
        ((fix all (cs : list Node) : Forall P cs :=
            match cs with
            | [] => Forall_nil P
            | c :: cs' => Forall_cons P c cs' (Node_forall_ind c) (all cs')
            end) cs)
  end.
End NodeInduction.

(** The proper descendants of a node, in document order. *)
Definition descendants (n : Node) : list Node := flat_map preorder (Children n).

(** The nesting depth of a subtree: the number of nodes on its longest
    downward path. *)
Fixpoint height (n : Node) : nat :=
  S ((fix siblings (cs : list Node) : nat :=
        match cs with
        | [] => 0
        | c :: cs' => Nat.max (height c) (siblings cs')
        end) (Children n)).

Definition maxHeight (cs : list Node) : nat :=
  fold_right (fun c m => Nat.max (height c) m) 0 cs.

(** The nodes an [itemref] attribute brings under a scope: the nodes its
    non-empty tokens identify, in token order. *)
Definition refNodes (p : parser) (node : Node) : list Node :=
  match getAttr "itemref" node with
  | Some itemrefs => omap (fun itemref => identifiedNodes p !! itemref) (tokens itemrefs)
  | None => []
  end.

(** The parser after the walk of [parse]: [identifiedNodes] is filled. *)
Definition scanned (p : parser) : parser :=
  mkParser (tree p) (data p) (baseURL p) (scan p).2.

(** The test of the walk of [parse] for a top-level node. *)
Definition typedScope (n : Node) : bool :=
  hasAttr "itemscope" n && hasAttr "itemtype" n.

(** The [id] half of the walk: a later node with the same id replaces
    an earlier one. *)
Definition identify (n : Node) (ids : gmap string Node) : gmap string Node :=
  match getAttr "id" n with
  | Some id => <[id := n]> ids
  | None => ids
  end.

(** A scope that is itself a property: [readItem] builds a nested item
    for it. *)
Definition nestedScope (n : Node) : bool :=
  hasAttr "itemprop" n && hasAttr "itemscope" n.

(** A nested scope follows a reference when its [itemref] names an
    identified node. *)
Definition followsRef (p : parser) (m : Node) : bool :=
  nestedScope m && match refNodes p m with [] => false | _ :: _ => true end.

(** No nested scope of the subtree follows a reference. *)
Definition noNestedRefs (p : parser) (n : Node) : Prop :=
  forallb (fun m => negb (followsRef p m)) (preorder n) = true.

(** The references of nested scopes descend along [rank]: a nested scope
    that follows a reference and lies in a subtree that a nested scope
    [m] refers to has a smaller rank than [m].  A reference that leads
    back to its scope has no such rank. *)
Definition refsDescend (p : parser) (rank : Node -> nat) (t : Node) : bool :=
  forallb (fun m =>
             implb (nestedScope m)
                   (forallb (fun r =>
                               forallb (fun k => implb (followsRef p k) (Nat.ltb (rank k) (rank m)))
                                       (preorder r))
                            (refNodes p m)))
          (preorder t).

(** The nested scopes of the subtree that follow a reference have a
    rank below [R]. *)
Definition refsBelow (p : parser) (rank : Node -> nat) (R : nat) (t : Node) : bool :=
  forallb (fun k => implb (followsRef p k) (Nat.ltb (rank k) R)) (preorder t).

(** The text of a list of nodes: the payloads of its text nodes, in
    order. *)
Definition isText (n : Node) : bool :=
  match Type_ n with TextNode => true | _ => false end.

Definition textOf (ns : list Node) : string :=
  fold_left (fun buf n => String.append buf (Data n)) (List.filter isText ns) "".

#[global] Instance Atom_eq_dec : EqDecision atom.Atom.
Proof. solve_decision. Defined.

(** The value table, by element kind.  [None] is a node that
    contributes no value. *)
Definition srcKinds : list atom.Atom :=
  [atom.Audio; atom.Embed; atom.Iframe; atom.Img; atom.Source; atom.Track; atom.Video].
Definition hrefKinds : list atom.Atom := [atom.A; atom.Area; atom.Link].
Definition valueKinds : list atom.Atom := [atom.Data; atom.Meter].

Definition valueOf_table (p : parser) (node : Node) : option string :=
  let kind := DataAtom node in
  if bool_decide (kind = atom.Meta) then getAttr "content" node
  else if bool_decide (kind ∈ srcKinds) then getAttr "src" node ≫= Resolve (baseURL p)
  else if bool_decide (kind ∈ hrefKinds) then getAttr "href" node ≫= Resolve (baseURL p)
  else if bool_decide (kind ∈ valueKinds) then getAttr "value" node
  else if bool_decide (kind = atom.Time) then getAttr "datetime" node
  else Some (textOf (descendants node)).

(** Every item stored as a property value, at any depth, has no type
    and no id. *)
Inductive untypedValues : Item -> Prop :=
  | untypedValues_intro (item : Item) :
      (forall k vs, Properties item !! k = Some vs -> Forall untypedValue vs) ->
      untypedValues item
with untypedValue : Value -> Prop :=
  | untyped_string (s : string) : untypedValue (VString s)
  | untyped_item (sub : Item) :
      Types sub = [] -> Id sub = "" -> untypedValues sub -> untypedValue (VItem sub).

(** [item'] is [item] with property values added, untyped when they
    are items. *)
Definition grows (item item' : Item) : Prop :=
  Types item' = Types item /\ Id item' = Id item /\
  (untypedValues item -> untypedValues item').

(** ** Example documents *)

Definition attr (k v : string) : Attribute := mkAttr "" k v.
Definition elem (a : atom.Atom) (attrs : list Attribute) (cs : list Node) : Node :=
  mkNode ElementNode a "" attrs cs.
Definition text (s : string) : Node := mkNode TextNode atom.Other s [] [].
Definition document (cs : list Node) : Node := mkNode DocumentNode atom.Other "" [] cs.

(** A base URL for the examples: a reference starting with a colon
    does not parse, any other is appended to the base. *)
Definition exampleURL : URL :=
  mkURL (fun s => match s with
                  | String ":" _ => None
                  | _ => Some (String.append "http://example.com/" s)
                  end).

(** A typed item whose property [comment] is a scope with a type and
    an id of its own. *)
Definition docComment : Node :=
  document
    [elem atom.Other [attr "itemscope" ""; attr "itemtype" "http://example.com/Post"]
       [elem atom.Other
          [attr "itemprop" "comment"; attr "itemscope" "";
           attr "itemtype" "http://example.com/Comment"; attr "itemid" "c1"]
          [elem atom.Other [attr "itemprop" "name"] [text "Greg"]]]].

(** A scope without a type. *)
Definition docUntyped : Node :=
  document
    [elem atom.Other [attr "itemscope" ""]
       [elem atom.Other [attr "itemprop" "name"] [text "Penelope"]]].

(** The document of [TestNestedItems], reduced: a scope inside a scope,
    not a property of it. *)
Definition docBreadcrumb : Node :=
  document
    [elem atom.Other [attr "itemscope" ""; attr "itemtype" "http://example.com/Person"]
       [elem atom.Other [attr "itemprop" "name"] [text "Penelope"];
        elem atom.Other [attr "itemscope" ""; attr "itemtype" "http://example.com/Breadcrumb"]
          [elem atom.Other [attr "itemprop" "title"] [text "profile"]]]].

(** A [meta] property whose [content] is empty, next to one with a
    value. *)
Definition metaEmpty : Node :=
  elem atom.Meta [attr "itemprop" "length"; attr "content" ""] [].

Definition docMeta : Node :=
  document
    [elem atom.Other [attr "itemscope" ""; attr "itemtype" "http://example.com/Person"]
       [metaEmpty;
        elem atom.Meta [attr "itemprop" "height"; attr "content" "1.70"] []]].

(** A nested scope whose [itemref] names the element that contains it. *)
Definition loopScope : Node :=
  elem atom.Other [attr "itemprop" "part"; attr "itemscope" ""; attr "itemref" "box"] [].

Definition loopBox : Node := elem atom.Other [attr "id" "box"] [loopScope].

Definition loopThing : Node :=
  elem atom.Other [attr "itemscope" ""; attr "itemtype" "http://example.com/Thing"]
    [loopBox].

Definition docLoop : Node := document [loopThing].

(** The same shape with the reference on the top-level scope, pointing
    at the whole document body. *)
Definition docSelfRef : Node :=
  document
    [elem atom.Other [attr "id" "all"]
       [elem atom.Other
          [attr "itemscope" ""; attr "itemtype" "http://example.com/Thing";
           attr "itemref" "all"]
          [elem atom.Other [attr "itemprop" "name"] [text "x"]]]].

(** References listed against document order, with an empty and an
    unknown token. *)
Definition docMovie : Node :=
  document
    [elem atom.Other
       [attr "itemscope" ""; attr "itemtype" "http://example.com/Movie";
        attr "itemref" "second  missing first"]
       [elem atom.Other [attr "itemprop" "tag"] [text "own"]];
     elem atom.Other [attr "id" "first"; attr "itemprop" "tag"] [text "one"];
     elem atom.Other [attr "id" "second"; attr "itemprop" "tag"] [text "two"]].

(** An image, a link whose reference does not parse, and a text
    property with markup inside. *)
Definition imgWork : Node :=
  elem atom.Img [attr "itemprop" "work"; attr "src" "images/house.jpeg"] [].

Definition linkBroken : Node :=
  elem atom.Link [attr "itemprop" "license"; attr "href" ":bad"] [].

Definition spanTitle : Node :=
  elem atom.Other [attr "itemprop" "title"]
    [text "The "; elem atom.Other [] [text "house"]; text " I found."].


(** The items of [docComment] in the earlier revision: the comment as
    the value of [comment], without type and id, and built from the
    same node with its type and id. *)
Definition commentValue : Item := mkItem [] {["name" := [VString "Greg"]]} "".

Definition postItem : Item :=
  mkItem ["http://example.com/Post"] {["comment" := [VItem commentValue]]} "".

Definition commentItem : Item :=
  mkItem ["http://example.com/Comment"] {["name" := [VString "Greg"]]}
         "http://example.com/c1".

(** The items of [docBreadcrumb] in the earlier revision, where the
    person also gets the title of the breadcrumb. *)
Definition personItem : Item :=
  mkItem ["http://example.com/Person"]
         (<["title" := [VString "profile"]]> {["name" := [VString "Penelope"]]}) "".


(** The item of [docMeta] and of [docMovie]. *)
Definition metaItem : Item :=
  mkItem ["http://example.com/Person"] {["height" := [VString "1.70"]]} "".

Definition movieItem : Item :=
  mkItem ["http://example.com/Movie"]
         {["tag" := [VString "two"; VString "one"; VString "own"]]} "".

(** A nested scope whose [itemref] names the scope itself. *)
Definition selfScope : Node :=
  elem atom.Other
    [attr "itemprop" "part"; attr "itemscope" ""; attr "id" "me"; attr "itemref" "me"] [].

Definition selfThing : Node :=
  elem atom.Other [attr "itemscope" ""; attr "itemtype" "http://example.com/Thing"]
    [selfScope].

Definition docSelf : Node := document [selfThing].

(** A nested scope with references to nodes outside its item, listed
    against document order. *)
Definition memberAnn : Node :=
  elem atom.Other [attr "id" "a"; attr "itemprop" "name"] [text "Ann"].

Definition memberBob : Node :=
  elem atom.Other [attr "id" "b"; attr "itemprop" "name"] [text "Bob"].

Definition memberScope : Node :=
  elem atom.Other [attr "itemprop" "member"; attr "itemscope" ""; attr "itemref" "b a"] [].

Definition bandScope : Node :=
  elem atom.Other [attr "itemscope" ""; attr "itemtype" "http://example.com/Band"]
    [memberScope].

Definition docBand : Node := document [bandScope; memberAnn; memberBob].

Definition memberValue : Item :=
  mkItem [] {["name" := [VString "Bob"; VString "Ann"]]} "".

Definition bandItem : Item :=
  mkItem ["http://example.com/Band"] {["member" := [VItem memberValue]]} "".

(** References without a cycle: the nested scope [deepScope] refers to
    [deepShelf], which lies beside the item. *)
Definition deepShelf : Node :=
  elem atom.Other [attr "id" "shelf"]
    [elem atom.Other [attr "itemprop" "name"] [text "Ann"]].

Definition deepScope : Node :=
  elem atom.Other [attr "itemprop" "member"; attr "itemscope" ""; attr "itemref" "shelf"] [].

Definition docDeep : Node :=
  document
    [deepShelf;
     elem atom.Other [attr "itemscope" ""; attr "itemtype" "http://example.com/Band"]
       [elem atom.Other [] [deepScope]]].

(** ** The latest revision: [readAttr], [getValue] and the [isToplevel] flag

    The package in [src/unnamed/part_003] is the parser after three
    changes to the earlier revision: the walk of [parse] collects the
    nodes with [itemscope] and without [itemprop]; [readItem] returns
    at an interior scope that is not a property; and the types, the id
    and the references of every item, top-level or nested, are read by
    [readAttr].  [getAttr], [walkNodes], [NewItem] and the methods of
    [Item] are unchanged and shared with the earlier revision. *)

Module Rev4.

(** [parser.getValue]. *)
Definition getValue (p : parser) (node : Node) : string :=
  match DataAtom node with
  | atom.Meta =>
      match getAttr "content" node with Some value => value | None => "" end
  | atom.Audio | atom.Embed | atom.Iframe | atom.Img
  | atom.Source | atom.Track | atom.Video =>
      match getAttr "src" node with
      | Some value =>
          match Resolve (baseURL p) value with Some u => u | None => "" end
      | None => ""
      end
  | atom.A | atom.Area | atom.Link =>
      match getAttr "href" node with
      | Some value =>
          match Resolve (baseURL p) value with Some u => u | None => "" end
      | None => ""
      end
  | atom.Data | atom.Meter =>
      match getAttr "value" node with Some value => value | None => "" end
  | atom.Time =>
      match getAttr "datetime" node with Some value => value | None => "" end
  | atom.Other => walkNodes node writeText ""
  end.

(** [parser.readAttr].  [rd item n] is the call
    [p.readItem(item, n, false)] of the [itemref] loop. *)
Definition readAttr (p : parser) (rd : Item -> Node -> option Item)
    (item : Item) (node : Node) : option Item :=
  let item :=
    match getAttr "itemtype" node with
    | Some s =>
        let item := fold_left (fun item itemtype =>
                                 if nonempty itemtype then addType item itemtype else item)
                              (Split s " ") item in
        match getAttr "itemid" node with
        | Some s =>
            match Resolve (baseURL p) s with
            | Some u => setId item u
            | None => item
            end
        | None => item
        end
    | None => item
    end in
  match getAttr "itemref" node with
  | Some s =>
      foldM (fun item itemref =>
               if nonempty itemref then
                 match identifiedNodes p !! itemref with
                 | Some n => rd item n
                 | None => Some item
                 end
               else Some item)
            (Split s " ") item
  | None => Some item
  end.

(** [parser.readItem].  As above, the call stack is bounded by [fuel],
    counted in calls of [readItem], and [None] is a descent deeper than
    [fuel].  In the first case the code adds the pointer [subItem] to
    [item] and then reads the children into [subItem]; the value seen
    through the pointer is the finished item, which is what is added
    here. *)
Fixpoint readItem (p : parser) (fuel : nat) (item : Item) (node : Node)
    (isToplevel : bool) {struct fuel} : option Item :=
  match fuel with
  | 0 => None
  | S fuel' =>
      let rd := fun item c => readItem p fuel' item c false in
      match getAttr "itemprop" node, getAttr "itemscope" node with
      | Some itemprops, Some _ =>
          subItem ← readAttr p rd NewItem node;
          subItem ← foldM rd (Children node) subItem;
          Some (addItems item itemprops subItem)
      | Some itemprops, None =>
          let s := getValue p node in
          let item := if nonempty s then addStrings item itemprops s else item in
          foldM rd (Children node) item
      | None, Some _ =>
          if isToplevel then foldM rd (Children node) item else Some item
      | None, None => foldM rd (Children node) item
      end
  end.

(** The closure [parse] passes to [walkNodes]. *)
Definition scanNode (n : Node) (st : list Node * gmap string Node)
    : list Node * gmap string Node :=
  let toplevelNodes :=
    match getAttr "itemscope" n with
    | Some _ =>
        match getAttr "itemprop" n with
        | Some _ => st.1
        | None => (st.1 ++ [n])%list
        end
    | None => st.1
    end in
  let identifiedNodes :=
    match getAttr "id" n with
    | Some id => <[id := n]> st.2
    | None => st.2
    end in
  (toplevelNodes, identifiedNodes).

Definition scan (p : parser) : list Node * gmap string Node :=
  walkNodes (tree p) scanNode ([], identifiedNodes p).

(** The body of [for _, node := range toplevelNodes]: [readAttr], then
    [readItem] with [isToplevel] set. *)
Definition parseNode (p : parser) (fuel : nat) (node : Node) : option Item :=
  item ← readAttr p (fun item n => readItem p fuel item n false) NewItem node;
  readItem p fuel item node true.

(** [parser.parse].  As in the earlier revision, the item of a node
    is appended to [p.data.Items] and then filled through its pointer;
    here it is filled and then appended. *)
Definition parse (p : parser) (fuel : nat) : option (Microdata * error) :=
  let (toplevelNodes, ids) := scan p in
  let p := mkParser (tree p) (data p) (baseURL p) ids in
  items ← foldM (fun items node =>
                   item ← parseNode p fuel node; Some (items ++ [item])%list)
                toplevelNodes (Items (data p));
  Some (mkMicrodata items, None).

(** *** Notions the properties are stated with *)

(** The parser after the walk. *)
Definition scanned (p : parser) : parser :=
  mkParser (tree p) (data p) (baseURL p) (scan p).2.

(** A scope that is not a property: a root when the walk meets it, an
    unrelated scope when [readItem] meets it inside an item. *)
Definition scopeRoot (n : Node) : bool :=
  hasAttr "itemscope" n && negb (hasAttr "itemprop" n).

(** The types and the id a node gives the item built from it. *)
Definition typesOf (node : Node) : list string :=
  from_option tokens [] (getAttr "itemtype" node).

Definition idOf (p : parser) (node : Node) : string :=
  match getAttr "itemtype" node, getAttr "itemid" node with
  | Some _, Some s => default "" (Resolve (baseURL p) s)
  | _, _ => ""
  end.

(** The item built for a node with [itemprop] and [itemscope], by
    calls of [readItem] within [fuel]. *)
Definition nestedItem (p : parser) (fuel : nat) (node : Node) : option Item :=
  subItem ← readAttr p (fun item c => readItem p fuel item c false) NewItem node;
  foldM (fun item c => readItem p fuel item c false) (Children node) subItem.

(** The nesting depth of a subtree cut below its interior scopes that
    are not properties. *)
Fixpoint depth (isToplevel : bool) (n : Node) : nat :=
  if scopeRoot n && negb isToplevel then 1
  else S ((fix siblings (cs : list Node) : nat :=
             match cs with
             | [] => 0
             | c :: cs' => Nat.max (depth false c) (siblings cs')
             end) (Children n)).

Definition maxDepth (cs : list Node) : nat :=
  fold_right (fun c m => Nat.max (depth false c) m) 0 cs.

End Rev4.

(** *** Example documents for the latest revision *)

(** The item of [docComment]: the comment is a value only, with the
    type and the id of its node. *)
Definition postWithComment : Item :=
  mkItem ["http://example.com/Post"] {["comment" := [VItem commentItem]]} "".


Definition breadcrumbScope : Node :=
  elem atom.Other [attr "itemscope" ""; attr "itemtype" "http://example.com/Breadcrumb"]
    [elem atom.Other [attr "itemprop" "title"] [text "profile"]].

(** The person node of [docBreadcrumb]. *)
Definition personScope : Node :=
  elem atom.Other [attr "itemscope" ""; attr "itemtype" "http://example.com/Person"]
    [elem atom.Other [attr "itemprop" "name"] [text "Penelope"]; breadcrumbScope].

(** The item of [docUntyped]. *)
Definition untypedItem : Item := mkItem [] {["name" := [VString "Penelope"]]} "".

(** A scope with an [itemid] that resolves and no [itemtype], and the
    item built from it. *)
Definition idOnlyScope : Node :=
  elem atom.Other [attr "itemscope" ""; attr "itemid" "b1"]
    [elem atom.Other [attr "itemprop" "name"] [text "Ann"]].

Definition docIdOnly : Node := document [idOnlyScope].

Definition idOnlyItem : Item := mkItem [] {["name" := [VString "Ann"]]} "".

(** A scope whose [itemtype] has no token, with an [itemid], and the
    item built from it. *)
Definition emptyTypeScope : Node :=
  elem atom.Other [attr "itemscope" ""; attr "itemtype" " "; attr "itemid" "b2"]
    [elem atom.Other [attr "itemprop" "name"] [text "Bob"]].

Definition docEmptyType : Node := document [emptyTypeScope].

Definition emptyTypeItem : Item :=
  mkItem [] {["name" := [VString "Bob"]]} "http://example.com/b2".

(** The comment node of [docComment]. *)
Definition commentScope : Node :=
  elem atom.Other
    [attr "itemprop" "comment"; attr "itemscope" "";
     attr "itemtype" "http://example.com/Comment"; attr "itemid" "c1"]
    [elem atom.Other [attr "itemprop" "name"] [text "Greg"]].

(** The nested scope of [docLoop] beside an item, where it is never
    read. *)
Definition docLoopUnread : Node :=
  document
    [loopBox;
     elem atom.Other [attr "itemscope" ""; attr "itemtype" "http://example.com/Thing"] []].

(** ** Further notions *)

(** A node whose [id] attribute is [id]. *)
Definition hasId (id : string) (n : Node) : bool :=
  match getAttr "id" n with
  | Some i => String.eqb i id
  | None => false
  end.

(** A string without a space. *)
Fixpoint noSpace (s : string) : bool :=
  match s with
  | EmptyString => true
  | String c rest => negb (Ascii.eqb c " ") && noSpace rest
  end.

(** A token: not empty, no space. *)
Definition isToken (s : string) : bool := nonempty s && noSpace s.

(** [item'] has, under every key, the values of [item] followed by
    further ones, and every key of [item]. *)
Definition extends (item item' : Item) : Prop :=
  forall k,
    (exists added,
        default [] (Properties item' !! k)
        = (default [] (Properties item !! k) ++ added)%list)
    /\ (is_Some (Properties item !! k) -> is_Some (Properties item' !! k)).

(** Every key of the item, at any depth, is a token and has at least
    one value, and no string value is empty. *)
Inductive wellNamed : Item -> Prop :=
  | wellNamed_intro (item : Item) :
      (forall k vs, Properties item !! k = Some vs ->
                    isToken k = true /\ vs <> [] /\ Forall wellNamedValue vs) ->
      wellNamed item
with wellNamedValue : Value -> Prop :=
  | wellNamed_string (s : string) : nonempty s = true -> wellNamedValue (VString s)
  | wellNamed_item (sub : Item) : wellNamed sub -> wellNamedValue (VItem sub).

(** How often a name occurs among the tokens of an attribute. *)
Definition occurrences (k : string) (attribute : string) : nat :=
  count_occ string_dec (tokens attribute) k.

(** ** The entry points *)

(** What [ParseHTML] and [ParseURL] call outside the package:
    [charset.NewReader], [html.Parse], [url.Parse] and
    [http.DefaultClient.Get], each with its result or its error.  A
    response is read through its [Content-Type] header and its body.
    [nil_URL] is a nil [*url.URL] as the receiver of [Parse]. *)
Record Response (Reader : Type) : Type :=
  mkResponse { ContentType : string; Body : Reader }.
Arguments mkResponse {Reader}.
Arguments ContentType {Reader}.
Arguments Body {Reader}.

Record World : Type :=
  mkWorld { Reader : Type;
            charset_NewReader : Reader -> string -> Reader + string;
            html_Parse : Reader -> Node + string;
            url_Parse : string -> URL + string;
            nil_URL : URL;
            http_Get : string -> Response Reader + string }.

(** [newParser], from the reader: the first error of the two calls is
    returned with a nil parser. *)
Definition newParserFrom (w : World) (r : Reader w) (contentType : string) (baseURL : URL)
    : parser + string :=
  match charset_NewReader w r contentType with
  | inr err => inr err
  | inl r =>
      match html_Parse w r with
      | inr err => inr err
      | inl tree => inl (newParser tree baseURL)
      end
  end.

(** The pair a Go entry point returns: [*Microdata], nil as [None],
    and the error. *)
Definition result : Type := option Microdata * error.

(** [p.parse()] as the returned pair. *)
Definition parsed (p : parser) (fuel : nat) : option result :=
  r ← parse p fuel; Some (Some r.1, r.2).

(** [ParseHTML]. *)
Definition ParseHTML (w : World) (r : Reader w) (contentType : string) (u : URL)
    (fuel : nat) : option result :=
  match newParserFrom w r contentType u with
  | inr err => Some (None, Some err)
  | inl p => parsed p fuel
  end.

(** [ParseURL]. *)
Definition ParseURL (w : World) (urlStr : string) (fuel : nat) : option result :=
  let data : option Microdata := None in
  match url_Parse w urlStr with
  | inr err => Some (None, Some err)
  | inl u =>
      match http_Get w urlStr with
      | inr err => Some (data, Some err)
      | inl resp =>
          let contentType := ContentType resp in
          match newParserFrom w (Body resp) contentType u with
          | inr err => Some (None, Some err)
          | inl p => parsed p fuel
          end
      end
  end.

(** A world for the examples: readers are strings, only the content
    type [utf-8] is known, the document [doc] parses to [docComment],
    and one URL is served. *)
Definition exampleWorld : World :=
  mkWorld string
          (fun r contentType =>
             if String.eqb contentType "utf-8" then inl r else inr "unsupported charset")
          (fun r => if String.eqb r "doc" then inl docComment else inr "unexpected EOF")
          (fun s => if String.eqb s "http://example.com" then inl exampleURL
                    else inr "missing protocol scheme")
          (mkURL (fun s => None))
          (fun s => inl (mkResponse "utf-8" "doc")).

(** ** The first revision: [Parse] with one closure *)

(** A call that returns, or a run-time panic. *)
Inductive outcome (A : Type) : Type :=
  | Returned (a : A)
  | Panicked.
Arguments Returned {A}.
Arguments Panicked {A}.

Module Rev1.

(** [*Item]: items live in a store and are written through their
    pointer, the index of their cell. *)
Abbreviation ptr := nat.

Inductive Value : Set :=
  | VString (s : string)
  | VItem (i : ptr).

Record Item : Type :=
  mkItem { Types : list string; Properties : gmap string (list Value); Id : string }.

(** The items allocated so far, and [data.Items]. *)
Record state : Type := mkState { store : list Item; Items : list ptr }.

Definition modify (st : state) (i : ptr) (g : Item -> Item) : state :=
  mkState (alter g i (store st)) (Items st).

Definition appendValue (i : Item) (key : string) (v : Value) : Item :=
  mkItem (Types i)
         (<[key := (default [] (Properties i !! key) ++ [v])%list]> (Properties i))
         (Id i).

(** [Item.addString], [Item.addItem], [Item.addType], [i.Id = s],
    [Microdata.addItem] and [NewItem]. *)
Definition addString (st : state) (i : ptr) (key value : string) : state :=
  modify st i (fun it => appendValue it key (VString value)).

Definition addItem (st : state) (i : ptr) (key : string) (value : ptr) : state :=
  modify st i (fun it => appendValue it key (VItem value)).

Definition addType (st : state) (i : ptr) (value : string) : state :=
  modify st i (fun it => mkItem (Types it ++ [value])%list (Properties it) (Id it)).

Definition setId (st : state) (i : ptr) (s : string) : state :=
  modify st i (fun it => mkItem (Types it) (Properties it) s).

Definition Microdata_addItem (st : state) (item : ptr) : state :=
  mkState (store st) (Items st ++ [item])%list.

Definition NewItem (st : state) : ptr * state :=
  (length (store st), mkState (store st ++ [mkItem [] ∅ ""])%list (Items st)).

(** The variables the loop over [n.Attr] sets; nil slices are empty
    lists. *)
Record attrs : Set :=
  mkAttrs { itemscope : bool; itemtype : list string; itemprop : list string;
            value : string; itemid : string }.

Definition noAttrs : attrs := mkAttrs false [] [] "" "".

(** One round of the loop.  [refURL, _ := u.Parse(attr.Val)] leaves
    [refURL] nil when the reference does not resolve, and
    [refURL.String()] panics. *)
Definition readAttr (u : URL) (a : attrs) (attr : Attribute) : outcome attrs :=
  let key := Key attr in
  if String.eqb key "itemscope" then
    Returned (mkAttrs true (itemtype a) (itemprop a) (value a) (itemid a))
  else if String.eqb key "itemtype" then
    Returned (mkAttrs (itemscope a) (Split (Val attr) " ") (itemprop a) (value a) (itemid a))
  else if String.eqb key "itemprop" then
    Returned (mkAttrs (itemscope a) (itemtype a) (Split (Val attr) " ") (value a) (itemid a))
  else if String.eqb key "src" || String.eqb key "href" then
    match Resolve u (Val attr) with
    | Some s => Returned (mkAttrs (itemscope a) (itemtype a) (itemprop a) s (itemid a))
    | None => Panicked
    end
  else if String.eqb key "content" || String.eqb key "data" || String.eqb key "datetime" then
    Returned (mkAttrs (itemscope a) (itemtype a) (itemprop a) (Val attr) (itemid a))
  else if String.eqb key "itemid" then
    Returned (mkAttrs (itemscope a) (itemtype a) (itemprop a) (value a) (Val attr))
  else Returned a.

Fixpoint readAttrs (u : URL) (a : attrs) (l : list Attribute) : outcome attrs :=
  match l with
  | [] => Returned a
  | attr :: l' =>
      match readAttr u a attr with
      | Returned a' => readAttrs u a' l'
      | Panicked => Panicked
      end
  end.

(** The inner closure: the text of a subtree goes to the buffer. *)
Fixpoint text (n : Node) (buf : string) : string :=
  (fix siblings (cs : list Node) (buf : string) {struct cs} : string :=
     match cs with
     | [] => buf
     | c :: cs' => siblings cs' (text c buf)
     end) (Children n)
    match Type_ n with
    | TextNode => String.append buf (Data n)
    | _ => buf
    end.

(** The loop over the keys of a property: the text is taken when no
    attribute gave a value, and the value, empty or not, is added. *)
Definition addProperties (n : Node) (item : ptr) (keys : list string) (value : string)
    (st : state) : state :=
  snd (fold_left
         (fun '(value, st) key =>
            let value :=
              if nonempty value then value
              else let buf := text n "" in
                   if nonempty buf then buf else value in
            (value, addString st item key value))
         keys (value, st)).

(** The switch of a new item [i]: top level with its id, top level, or
    a value of the current item under every key. *)
Definition place (a : attrs) (item i : ptr) (st : state) : state :=
  if nonempty (itemid a) then Microdata_addItem (setId st i (itemid a)) i
  else match itemprop a with
       | [] => Microdata_addItem st i
       | _ :: _ => fold_left (fun st key => addItem st item key i) (itemprop a) st
       end.

(** The closure [f] of [Parse]. *)
Fixpoint f (u : URL) (n : Node) (item : ptr) (st : state) {struct n}
    : outcome (state * error) :=
  let children :=
    fix children (cs : list Node) (item : ptr) (st : state) {struct cs}
      : outcome (state * error) :=
      match cs with
      | [] => Returned (st, None)
      | c :: cs' =>
          match f u c item st with
          | Returned (st, None) => children cs' item st
          | Returned (st, Some err) => Returned (st, Some err)
          | Panicked => Panicked
          end
      end in
  match Type_ n with
  | ElementNode =>
      match readAttrs u noAttrs (Attr n) with
      | Panicked => Panicked
      | Returned a =>
          if itemscope a && negb (Nat.eqb (length (itemtype a)) 0) then
            let (i, st) := NewItem st in
            let st := fold_left (fun st v => addType st i v) (itemtype a) st in
            let st := place a item i st in
            children (Children n) i st
          else if negb (Nat.eqb (length (itemprop a)) 0) then
            let st := addProperties n item (itemprop a) (value a) st in
            children (Children n) item st
          else children (Children n) item st
      end
  | _ => children (Children n) item st
  end.

(** The loop of [f] over the children of a node. *)
Definition fs (u : URL) : list Node -> ptr -> state -> outcome (state * error) :=
  fix fs (cs : list Node) (item : ptr) (st : state) {struct cs}
    : outcome (state * error) :=
    match cs with
    | [] => Returned (st, None)
    | c :: cs' =>
        match f u c item st with
        | Returned (st, None) => fs cs' item st
        | Returned (st, Some err) => Returned (st, Some err)
        | Panicked => Panicked
        end
    end.

(** An attribute whose value [f] resolves and cannot, and an element
    with such an attribute. *)
Definition badAttr (u : URL) (attr : Attribute) : bool :=
  (String.eqb (Key attr) "src" || String.eqb (Key attr) "href")
  && match Resolve u (Val attr) with Some _ => false | None => true end.

Definition badRef (u : URL) (n : Node) : bool :=
  match Type_ n with
  | ElementNode => existsb (badAttr u) (Attr n)
  | _ => false
  end.

(** The value of the last attribute with a key: the loop over
    [n.Attr] lets a later attribute overwrite an earlier one. *)
Fixpoint lastAttr (key : string) (l : list Attribute) : option string :=
  match l with
  | [] => None
  | attr :: l' =>
      match lastAttr key l' with
      | Some v => Some v
      | None => if String.eqb (Key attr) key then Some (Val attr) else None
      end
  end.

Definition hasKey (key : string) (n : Node) : bool :=
  existsb (fun attr => String.eqb (Key attr) key) (Attr n).

(** The types, the id and the property names of an element, as the
    loop leaves them. *)
Definition typesOf (n : Node) : list string :=
  match lastAttr "itemtype" (Attr n) with Some v => Split v " " | None => [] end.

Definition idOf (n : Node) : string :=
  match lastAttr "itemid" (Attr n) with Some v => v | None => "" end.

Definition propsOf (n : Node) : list string :=
  match lastAttr "itemprop" (Attr n) with Some v => Split v " " | None => [] end.

(** The attributes that set [value], what one of them sets it to, and
    the value the loop leaves: that of the last of them, the empty
    string when there is none. *)
Definition isValueKey (key : string) : bool :=
  String.eqb key "src" || String.eqb key "href" || String.eqb key "content"
  || String.eqb key "data" || String.eqb key "datetime".

Definition attrValue (u : URL) (attr : Attribute) : string :=
  if String.eqb (Key attr) "src" || String.eqb (Key attr) "href"
  then default "" (Resolve u (Val attr))
  else Val attr.

Definition attrValueOf (u : URL) (n : Node) : string :=
  match list.last (List.filter (fun attr => isValueKey (Key attr)) (Attr n)) with
  | Some attr => attrValue u attr
  | None => ""
  end.

(** The value of a property: the one the attributes give when it is
    not empty, or else the payloads of the text nodes of the subtree,
    in document order. *)
Definition valueOf (u : URL) (n : Node) : string :=
  if nonempty (attrValueOf u n) then attrValueOf u n else textOf (preorder n).

(** The elements [f] makes an item for, and those among them whose
    item goes to [data.Items]. *)
Definition isScope (n : Node) : bool :=
  match Type_ n with
  | ElementNode => hasKey "itemscope" n && hasKey "itemtype" n
  | _ => false
  end.

Definition isTop (n : Node) : bool :=
  nonempty (idOf n) || negb (hasKey "itemprop" n).

Definition scopes (n : Node) : list Node := List.filter isScope (preorder n).

(** The cell of a pointer, and what a caller reads of an item of the
    result: its types and its id. *)
Definition typesAndId (st : state) (i : ptr) : option (list string * string) :=
  (fun it => (Types it, Id it)) <$> store st !! i.

(** The state [Parse] starts [f] in: the store holds the item that is
    not part of the result, at pointer 0. *)
Definition start : state := snd (NewItem (mkState [] [])).

(** The values a list of keys adds to an item. *)
Definition appendValues (it : Item) (keys : list string) (v : Value) : Item :=
  fold_left (fun it key => appendValue it key v) keys it.

(** The pointers of the top-level items among the items of [ss], when
    these are allocated in order from [base] on. *)
Fixpoint tops (base : ptr) (ss : list Node) : list ptr :=
  match ss with
  | [] => []
  | m :: ss' => ((if isTop m then [base] else []) ++ tops (S base) ss')%list
  end.

(** From [st] to [st'], the items of [ss] were allocated in order and
    placed; the cells [st] had keep their types and id, and only the
    cell of [item] may have further values. *)
Definition grown (item : ptr) (ss : list Node) (st st' : state) : Prop :=
  length (store st') = length (store st) + length ss
  /\ Items st' = (Items st ++ tops (length (store st)) ss)%list
  /\ (forall k m, ss !! k = Some m ->
                  typesAndId st' (length (store st) + k) = Some (typesOf m, idOf m))
  /\ (forall q, q < length (store st) ->
                typesAndId st' q = typesAndId st q
                /\ (q <> item -> store st' !! q = store st !! q)).

(** [Parse]: the error of [url.Parse] is overwritten, the decoding
    errors are returned with the empty [data], and [f] starts on the
    document with an item that is not part of the result. *)
Definition Parse (w : World) (r : Reader w) (baseURL contentType : string)
    : outcome (state * error) :=
  let data := mkState [] [] in
  let u := match url_Parse w baseURL with inl u => u | inr _ => nil_URL w end in
  match charset_NewReader w r contentType with
  | inr err => Returned (data, Some err)
  | inl r =>
      match html_Parse w r with
      | inr err => Returned (data, Some err)
      | inl doc =>
          let (item, st) := NewItem data in
          match f u doc item st with
          | Returned (st, Some err) => Returned (st, Some err)
          | Returned (st, None) => Returned (st, None)
          | Panicked => Panicked
          end
      end
  end.

End Rev1.

(** A typed scope that is a property, without an id. *)
Definition authorScope : Node :=
  elem atom.Other
    [attr "itemprop" "author"; attr "itemscope" ""; attr "itemtype" "http://example.com/Person"]
    [elem atom.Other [attr "itemprop" "name"] [text "Greg"]].

(** A link whose last value attribute is an empty [content]. *)
Definition linkHome : Node :=
  elem atom.A [attr "itemprop" "url"; attr "href" "a.html"; attr "content" ""]
    [text "ho"; elem atom.Other [] [text "me"]].

(** ** The second revision: [Item.addProperty] and its [Parse] *)

Module Rev2.

Abbreviation ptr := nat.

(** What the [interface{}] of a property list holds: [[]string] or
    [[]*Item], as [addProperty] stores them, or a value of another
    dynamic type put there by a user of the package. *)
Inductive PropList : Set :=
  | Strings (l : list string)
  | ItemList (l : list ptr)
  | OtherList.

Record Item : Type :=
  mkItem { Type' : list string; Properties : gmap string PropList; Id : string }.

(** The dynamic type of the [property] argument. *)
Inductive Property : Set :=
  | PString (s : string)
  | PItem (i : ptr)
  | POther.

(** The items allocated so far, and [result.Items]. *)
Record state : Type := mkState { store : list Item; Items : list ptr }.

Definition ErrInvalidPropertyType : error := Some "invalid property type".

Definition setProperty (st : state) (i : ptr) (key : string) (l : PropList) : state :=
  mkState (alter (fun it => mkItem (Type' it) (<[key := l]> (Properties it)) (Id it))
                 i (store st))
          (Items st).

(** [Item.addProperty] on the item [item] points to; a nil [item] is
    [None].  A nil receiver is dereferenced in the first two cases, and
    a list of the other kind fails the type assertion. *)
Definition addProperty (st : state) (item : option ptr) (key : string)
    (property : Property) : outcome (state * error) :=
  match property with
  | PItem p =>
      match item with
      | None => Panicked
      | Some i =>
          match store st !! i with
          | None => Panicked
          | Some it =>
              match Properties it !! key with
              | Some (ItemList a) =>
                  Returned (setProperty st i key (ItemList (a ++ [p])), None)
              | Some _ => Panicked
              | None => Returned (setProperty st i key (ItemList [p]), None)
              end
          end
      end
  | PString s =>
      match item with
      | None => Panicked
      | Some i =>
          match store st !! i with
          | None => Panicked
          | Some it =>
              match Properties it !! key with
              | Some (Strings a) =>
                  Returned (setProperty st i key (Strings (a ++ [s])), None)
              | Some _ => Panicked
              | None => Returned (setProperty st i key (Strings [s]), None)
              end
          end
      end
  | POther => Returned (st, ErrInvalidPropertyType)
  end.

(** The values under a key, each as the property it was added as. *)
Definition values (it : Item) (key : string) : list Property :=
  match Properties it !! key with
  | Some (Strings l) => map PString l
  | Some (ItemList l) => map PItem l
  | Some OtherList | None => []
  end.

(** A key that holds a list a property cannot be appended to. *)
Definition clash (it : Item) (key : string) (property : Property) : bool :=
  match Properties it !! key, property with
  | Some (Strings _), PItem _ => true
  | Some (ItemList _), PString _ => true
  | Some OtherList, (PString _ | PItem _) => true
  | _, _ => false
  end.

(** [NewItem]. *)
Definition NewItem (itemtype : list string) (st : state) : ptr * state :=
  (length (store st), mkState (store st ++ [mkItem itemtype ∅ ""])%list (Items st)).

Definition setId (st : state) (i : ptr) (s : string) : state :=
  mkState (alter (fun it => mkItem (Type' it) (Properties it) s) i (store st)) (Items st).

Definition appendItem (st : state) (i : ptr) : state :=
  mkState (store st) (Items st ++ [i])%list.

(** [for _, key := range keys] with [addProperty] in its body: the
    first error is returned. *)
Fixpoint addItems (st : state) (item : option ptr) (keys : list string) (i : ptr)
    : outcome (state * error) :=
  match keys with
  | [] => Returned (st, None)
  | key :: keys' =>
      match addProperty st item key (PItem i) with
      | Returned (st, None) => addItems st item keys' i
      | Returned (st, Some err) => Returned (st, Some err)
      | Panicked => Panicked
      end
  end.

Fixpoint addStrings (n : Node) (st : state) (item : option ptr) (keys : list string)
    (value : string) : outcome (state * error) :=
  match keys with
  | [] => Returned (st, None)
  | key :: keys' =>
      let value :=
        if nonempty value then value
        else let s := Rev1.text n "" in
             if nonempty s then s else value in
      match addProperty st item key (PString value) with
      | Returned (st, None) => addStrings n st item keys' value
      | Returned (st, Some err) => Returned (st, Some err)
      | Panicked => Panicked
      end
  end.

(** The switch of a new item. *)
Definition place (a : Rev1.attrs) (item : option ptr) (i : ptr) (st : state)
    : outcome (state * error) :=
  if nonempty (Rev1.itemid a) then Returned (appendItem (setId st i (Rev1.itemid a)) i, None)
  else match Rev1.itemprop a with
       | [] => Returned (appendItem st i, None)
       | _ :: _ => addItems st item (Rev1.itemprop a) i
       end.

(** The closure [f] of the second [Parse].  Its loop over [n.Attr] and
    its text closure are those of the first revision. *)
Fixpoint f (u : URL) (n : Node) (item : option ptr) (st : state) {struct n}
    : outcome (state * error) :=
  let children :=
    fix children (cs : list Node) (item : option ptr) (st : state) {struct cs}
      : outcome (state * error) :=
      match cs with
      | [] => Returned (st, None)
      | c :: cs' =>
          match f u c item st with
          | Returned (st, None) => children cs' item st
          | Returned (st, Some err) => Returned (st, Some err)
          | Panicked => Panicked
          end
      end in
  match Type_ n with
  | ElementNode =>
      match Rev1.readAttrs u Rev1.noAttrs (Attr n) with
      | Panicked => Panicked
      | Returned a =>
          if Rev1.itemscope a && negb (Nat.eqb (length (Rev1.itemtype a)) 0) then
            let (i, st) := NewItem (Rev1.itemtype a) st in
            match place a item i st with
            | Returned (st, None) => children (Children n) (Some i) st
            | Returned (st, Some err) => Returned (st, Some err)
            | Panicked => Panicked
            end
          else if match item with Some _ => true | None => false end
                  && negb (Nat.eqb (length (Rev1.itemprop a)) 0) then
            match addStrings n st item (Rev1.itemprop a) (Rev1.value a) with
            | Returned (st, None) => children (Children n) item st
            | Returned (st, Some err) => Returned (st, Some err)
            | Panicked => Panicked
            end
          else children (Children n) item st
      end
  | _ => children (Children n) item st
  end.

Definition fs (u : URL) : list Node -> option ptr -> state -> outcome (state * error) :=
  fix fs (cs : list Node) (item : option ptr) (st : state) {struct cs}
    : outcome (state * error) :=
    match cs with
    | [] => Returned (st, None)
    | c :: cs' =>
        match f u c item st with
        | Returned (st, None) => fs cs' item st
        | Returned (st, Some err) => Returned (st, Some err)
        | Panicked => Panicked
        end
    end.

(** [Parse]: [f] starts on the document with a nil item. *)
Definition Parse (w : World) (r : Reader w) (baseURL contentType : string)
    : outcome (state * error) :=
  let result := mkState [] [] in
  let u := match url_Parse w baseURL with inl u => u | inr _ => nil_URL w end in
  match charset_NewReader w r contentType with
  | inr err => Returned (result, Some err)
  | inl r =>
      match html_Parse w r with
      | inr err => Returned (result, Some err)
      | inl doc =>
          match f u doc None result with
          | Returned (st, Some err) => Returned (st, Some err)
          | Returned (st, None) => Returned (st, None)
          | Panicked => Panicked
          end
      end
  end.

(** What a caller reads of an item of the result: its types and its
    id. *)
Definition typesAndId (st : state) (i : ptr) : option (list string * string) :=
  (fun it => (Type' it, Id it)) <$> store st !! i.

(** From [st] to [st'], the items of [ss] were allocated in order and
    placed, and the cells [st] had keep their types and id. *)
Definition grown (ss : list Node) (st st' : state) : Prop :=
  length (store st') = length (store st) + length ss
  /\ Items st' = (Items st ++ Rev1.tops (length (store st)) ss)%list
  /\ (forall k m, ss !! k = Some m ->
                  typesAndId st' (length (store st) + k)
                  = Some (Rev1.typesOf m, Rev1.idOf m))
  /\ (forall q, q < length (store st) -> typesAndId st' q = typesAndId st q).

End Rev2.
(** * Properties of the trees and of the earlier revision *)

(** ** Trees *)

Lemma preorder_eq (n : Node) : preorder n = n :: descendants n.
Proof.
  destruct n as [ty a d attrs cs]. reflexivity.
Qed.

Lemma height_eq (n : Node) : height n = S (maxHeight (Children n)).
Proof.
  destruct n as [ty a d attrs cs]. reflexivity.
Qed.

Lemma maxHeight_ge (cs : list Node) (c : Node) : c ∈ cs -> height c <= maxHeight cs.
Proof.
  induction 1 as [c cs | c c' cs _ IH]; simpl; lia.
Qed.

Lemma maxHeight_attained (cs : list Node) :
  cs <> [] -> exists c, c ∈ cs /\ height c = maxHeight cs.
Proof.
  induction cs as [|c cs IH]; [congruence | intros _].
  destruct cs as [|c' cs'].
  - exists c. split; [left | simpl; lia].
  - destruct IH as (m & Hm & Hh); [congruence |].
    destruct (Nat.max_spec (height c) (maxHeight (c' :: cs'))) as [[_ E] | [_ E]].
    + exists m. split; [now right | simpl in *; lia].
    + exists c. split; [left | simpl in *; lia].
Qed.

(** A fold over the children's subtrees is a fold over the descendants. *)
Lemma walkNodes_preorder {S : Type} (f : Node -> S -> S) (n : Node) :
  forall s, walkNodes n f s = fold_left (fun s m => f m s) (preorder n) s.
Proof.
  induction n as [ty a d attrs cs IH] using Node_forall_ind. intros s.
  rewrite preorder_eq. unfold descendants. simpl.
  generalize (f (mkNode ty a d attrs cs) s). clear s.
  induction IH as [|c cs Hc _ IHcs]; intros s; simpl; [reflexivity |].
  rewrite fold_left_app, <- Hc. apply IHcs.
Qed.

Lemma descendants_in_preorder (n c : Node) :
  c ∈ Children n -> forall m, m ∈ preorder c -> m ∈ preorder n.
Proof.
  intros Hc m Hm. rewrite preorder_eq. right. unfold descendants.
  apply list_elem_of_In, in_flat_map. exists c.
  split; now apply list_elem_of_In.
Qed.

Lemma preorder_self (n : Node) : n ∈ preorder n.
Proof. rewrite preorder_eq. left. Qed.

Lemma preorder_trans (n : Node) :
  forall m, m ∈ preorder n -> forall k, k ∈ preorder m -> k ∈ preorder n.
Proof.
  induction n as [ty a d attrs cs IH] using Node_forall_ind. intros m Hm k Hk.
  rewrite preorder_eq in Hm. apply elem_of_cons in Hm as [-> | Hm]; [exact Hk |].
  unfold descendants in Hm. apply list_elem_of_In, in_flat_map in Hm as (c & Hc & Hm).
  apply list_elem_of_In in Hc, Hm.
  apply (descendants_in_preorder _ c); [exact Hc |].
  rewrite list.Forall_forall in IH. now apply (IH c Hc m).
Qed.

Lemma height_preorder (n : Node) : forall m, m ∈ preorder n -> height m <= height n.
Proof.
  induction n as [ty a d attrs cs IH] using Node_forall_ind. intros m Hm.
  rewrite preorder_eq in Hm. apply elem_of_cons in Hm as [-> | Hm]; [lia |].
  unfold descendants in Hm. apply list_elem_of_In, in_flat_map in Hm as (c & Hc & Hm).
  apply list_elem_of_In in Hc, Hm. rewrite list.Forall_forall in IH.
  specialize (IH c Hc m Hm). rewrite (height_eq (mkNode _ _ _ _ _)). simpl.
  pose proof (maxHeight_ge cs c Hc). lia.
Qed.

(** ** The walk of [parse] *)

Lemma scanNode_eq (n : Node) (st : list Node * gmap string Node) :
  scanNode n st = ((st.1 ++ List.filter typedScope [n])%list, identify n st.2).
Proof.
  unfold scanNode, identify, typedScope, hasAttr. simpl.
  destruct (getAttr "itemscope" n), (getAttr "itemtype" n); simpl;
    rewrite ?app_nil_r; reflexivity.
Qed.

Lemma scan_fold (l : list Node) :
  forall st,
    fold_left (fun st m => scanNode m st) l st
    = ((st.1 ++ List.filter typedScope l)%list,
       fold_left (fun ids m => identify m ids) l st.2).
Proof.
  induction l as [|n l IH]; intros [top ids].
  - simpl. now rewrite app_nil_r.
  - cbn [fold_left]. rewrite IH, scanNode_eq. cbn [fst snd].
    change (n :: l) with ([n] ++ l)%list. rewrite List.filter_app.
    now rewrite <- app_assoc.
Qed.

(** The walk selects the nodes with [itemscope] and [itemtype], in
    document order. *)
Lemma scan_toplevel (p : parser) :
  (scan p).1 = List.filter typedScope (preorder (tree p)).
Proof. unfold scan. now rewrite walkNodes_preorder, scan_fold. Qed.

Lemma scan_identified (p : parser) :
  (scan p).2 = fold_left (fun ids m => identify m ids) (preorder (tree p)) (identifiedNodes p).
Proof. unfold scan. now rewrite walkNodes_preorder, scan_fold. Qed.

(** The index holds nodes of the tree only. *)
Lemma identified_in_tree (l : list Node) :
  forall ids k n,
    fold_left (fun ids m => identify m ids) l ids !! k = Some n ->
    n ∈ l \/ ids !! k = Some n.
Proof.
  induction l as [|m l IH]; intros ids k n H; simpl in H; [now right |].
  apply IH in H as [H | H]; [left; now right |].
  unfold identify in H. destruct (getAttr "id" m) as [id|]; [| now right].
  destruct (decide (id = k)) as [-> | Hne].
  - rewrite lookup_insert_eq in H. injection H as ->. left. left.
  - rewrite lookup_insert_ne in H by exact Hne. now right.
Qed.

Lemma scanned_in_tree (t : Node) (u : URL) (k : string) (n : Node) :
  identifiedNodes (scanned (newParser t u)) !! k = Some n -> n ∈ preorder t.
Proof.
  unfold scanned. cbn [identifiedNodes]. rewrite scan_identified. intros H.
  apply identified_in_tree in H as [H | H]; [exact H |].
  cbn in H. now rewrite lookup_empty in H.
Qed.

Lemma filter_filter {A : Type} (f g : A -> bool) (l : list A) :
  List.filter f (List.filter g l) = List.filter (fun x => g x && f x) l.
Proof.
  induction l as [|x l IH]; simpl; [reflexivity |].
  destruct (g x); simpl; [destruct (f x) |]; now rewrite IH.
Qed.

Lemma filter_sublist {A : Type} (f : A -> bool) (l : list A) :
  sublist (List.filter f l) l.
Proof.
  induction l as [|x l IH]; simpl; [constructor |].
  destruct (f x); now constructor.
Qed.

Lemma filter_Forall {A : Type} (f : A -> bool) (l : list A) :
  Forall (fun x => f x = true) (List.filter f l).
Proof.
  apply list.Forall_forall. intros x Hx.
  apply list_elem_of_In, List.filter_In in Hx. tauto.
Qed.

(** ** Loops *)

Lemma foldM_app {A B : Type} (f : B -> A -> option B) (l1 l2 : list A) (b : B) :
  foldM f (l1 ++ l2) b = b' ← foldM f l1 b; foldM f l2 b'.
Proof.
  revert b. induction l1 as [|a l1 IH]; intros b; simpl; [reflexivity |].
  destruct (f b a) as [b'|]; simpl; [apply IH | reflexivity].
Qed.

Lemma foldM_invariant {A B : Type} (f : B -> A -> option B) (P : B -> Prop) (l : list A) :
  (forall b a b', a ∈ l -> P b -> f b a = Some b' -> P b') ->
  forall b b', P b -> foldM f l b = Some b' -> P b'.
Proof.
  induction l as [|a l IH]; intros Hf b b' Hb H; simpl in H.
  - now injection H as <-.
  - destruct (f b a) as [b1|] eqn:E; simpl in H; [| discriminate].
    apply (IH (fun b a' b' Ha => Hf b a' b' (list_elem_of_further _ _ _ Ha)) b1 b');
      [| exact H].
    apply (Hf b a b1); [left | exact Hb | exact E].
Qed.

Lemma foldM_total {A B : Type} (f : B -> A -> option B) (l : list A) :
  (forall a, a ∈ l -> forall b, is_Some (f b a)) ->
  forall b, is_Some (foldM f l b).
Proof.
  induction l as [|a l IH]; intros Hf b; simpl; [eauto |].
  destruct (Hf a (list_elem_of_here _ _) b) as [b' ->]. simpl.
  apply IH. intros a' Ha'. apply Hf. now right.
Qed.

Lemma foldM_stuck {A B : Type} (f : B -> A -> option B) (l : list A) (a : A) :
  a ∈ l -> (forall b, f b a = None) -> forall b, foldM f l b = None.
Proof.
  induction 1 as [a l | a a' l _ IH]; intros Ha b; simpl.
  - now rewrite Ha.
  - destruct (f b a'); simpl; [now apply IH | reflexivity].
Qed.

(** The items [parse] appends are those of the top-level nodes, one
    for each, in order. *)
Lemma foldM_append {A B : Type} (g : A -> option B) (l : list A) :
  forall acc r,
    foldM (fun items a => item ← g a; Some (items ++ [item])%list) l acc = Some r <->
    exists items, Forall2 (fun a item => g a = Some item) l items /\ r = (acc ++ items)%list.
Proof.
  induction l as [|a l IH]; intros acc r; simpl.
  - split.
    + intros [= <-]. exists []. split; [constructor | now rewrite app_nil_r].
    + intros (items & H & ->). inversion H. now rewrite app_nil_r.
  - destruct (g a) as [item|] eqn:E; simpl.
    + rewrite IH. split.
      * intros (items & H & ->). exists (item :: items).
        split; [now constructor | now rewrite <- app_assoc].
      * intros (items & H & ->). inversion H as [|? item' ? items' E' H']; subst.
        rewrite E in E'. injection E' as <-. exists items'.
        split; [exact H' | now rewrite <- app_assoc].
    + split; [discriminate |]. intros (items & H & _). inversion H; congruence.
Qed.

Lemma parse_eq (p : parser) (fuel : nat) :
  parse p fuel =
  items ← foldM (fun items node =>
                   item ← parseNode (scanned p) fuel node; Some (items ++ [item])%list)
                (scan p).1 (Items (data p));
  Some (mkMicrodata items, None).
Proof. unfold parse, scanned. destruct (scan p). reflexivity. Qed.

Lemma Forall2_Some_unique {A B : Type} (g : A -> option B) (l : list A) :
  forall xs ys,
    Forall2 (fun a b => g a = Some b) l xs ->
    Forall2 (fun a b => g a = Some b) l ys -> xs = ys.
Proof.
  induction l as [|a l IH]; intros xs ys Hx Hy; inversion Hx; inversion Hy; subst;
    [reflexivity |].
  f_equal; [congruence | now apply IH].
Qed.

Lemma parse_Some (t : Node) (u : URL) (fuel : nat) (d : Microdata) (e : error) :
  parse (newParser t u) fuel = Some (d, e) <->
  Forall2 (fun node item => parseNode (scanned (newParser t u)) fuel node = Some item)
          (scan (newParser t u)).1 (Items d) /\ e = None.
Proof.
  rewrite parse_eq.
  destruct (foldM _ _ _) as [items|] eqn:E; simpl.
  - apply foldM_append in E as (items' & H & ->). cbn. split.
    + intros [= <- <-]. now split.
    + intros [H' ->]. destruct d as [its]. cbn in H'.
      now rewrite (Forall2_Some_unique _ _ _ _ H H').
  - split; [discriminate |]. intros [H ->].
    assert (E' : foldM (fun items node =>
                          item ← parseNode (scanned (newParser t u)) fuel node;
                          Some (items ++ [item])%list)
                       (scan (newParser t u)).1 (Items (data (newParser t u)))
                 = Some ([] ++ Items d)%list)
      by (apply foldM_append; eauto).
    rewrite E in E'. discriminate.
Qed.

(** ** References *)

(** The [itemref] loop reads the identified nodes of the non-empty
    tokens, in token order. *)
Lemma readRefs_eq (p : parser) (rd : Item -> Node -> option Item)
    (itemrefs : string) (item : Item) :
  readRefs p rd itemrefs item
  = foldM rd (omap (fun itemref => identifiedNodes p !! itemref) (tokens itemrefs)) item.
Proof.
  unfold readRefs, tokens. revert item.
  induction (Split itemrefs " ") as [|tok l IH]; intros item; simpl; [reflexivity |].
  destruct (nonempty tok); simpl; [| apply IH].
  destruct (identifiedNodes p !! tok) as [n|]; simpl; [| apply IH].
  destruct (rd item n); simpl; [apply IH | reflexivity].
Qed.

Lemma refs_then_children (p : parser) (rd : Item -> Node -> option Item)
    (node : Node) (item : Item) :
  (item' ← match getAttr "itemref" node with
           | Some itemrefs => readRefs p rd itemrefs item
           | None => Some item
           end;
   foldM rd (Children node) item')
  = foldM rd (refNodes p node ++ Children node) item.
Proof.
  rewrite foldM_app. unfold refNodes.
  destruct (getAttr "itemref" node); [now rewrite readRefs_eq | reflexivity].
Qed.

Lemma parseNode_eq (p : parser) (fuel : nat) (node : Node) :
  parseNode p fuel node
  = foldM (readItem p fuel) (refNodes p node ++ Children node) (readTypes p node NewItem).
Proof. unfold parseNode. apply refs_then_children. Qed.

Lemma readItem_scope (p : parser) (fuel : nat) (item : Item) (node : Node)
    (itemprops x : string) :
  getAttr "itemprop" node = Some itemprops ->
  getAttr "itemscope" node = Some x ->
  readItem p (S fuel) item node
  = subItem ← foldM (readItem p fuel) (refNodes p node ++ Children node) NewItem;
    Some (addItems item itemprops subItem).
Proof.
  intros Hp Hs. cbn [readItem]. rewrite Hp, Hs.
  rewrite <- (refs_then_children p (readItem p fuel) node NewItem).
  destruct (match getAttr "itemref" node with Some _ => _ | None => _ end);
    reflexivity.
Qed.

Lemma readItem_property (p : parser) (fuel : nat) (item : Item) (node : Node)
    (itemprops : string) :
  getAttr "itemprop" node = Some itemprops ->
  getAttr "itemscope" node = None ->
  readItem p (S fuel) item node
  = foldM (readItem p fuel) (Children node)
      (if nonempty (propValue p node)
       then addStrings item itemprops (propValue p node) else item).
Proof. intros Hp Hs. cbn [readItem]. now rewrite Hp, Hs. Qed.

Lemma readItem_plain (p : parser) (fuel : nat) (item : Item) (node : Node) :
  getAttr "itemprop" node = None ->
  readItem p (S fuel) item node = foldM (readItem p fuel) (Children node) item.
Proof. intros Hp. cbn [readItem]. now rewrite Hp. Qed.

(** ** What reading changes in an item *)

Lemma grows_refl (item : Item) : grows item item.
Proof. unfold grows. tauto. Qed.

Lemma grows_trans (a b c : Item) : grows a b -> grows b c -> grows a c.
Proof. unfold grows. intros (-> & -> & H1) (-> & -> & H2). tauto. Qed.

Lemma appendValue_grows (item : Item) (k : string) (v : Value) :
  untypedValue v -> grows item (appendValue item k v).
Proof.
  intros Hv. destruct item as [ts ps id].
  split; [reflexivity | split; [reflexivity |]]. intros Hitem.
  inversion Hitem as [? Hps]; subst. constructor. intros k' vs. cbn.
  destruct (decide (k = k')) as [<- | Hne].
  - rewrite lookup_insert_eq. intros [= <-]. apply Forall_app. split.
    + cbn in Hps. destruct (ps !! k) as [vs|] eqn:E; cbn; [eauto | constructor].
    + now repeat constructor.
  - rewrite lookup_insert_ne by exact Hne. apply Hps.
Qed.

Lemma addStrings_grows (itemprops value : string) (item : Item) :
  grows item (addStrings item itemprops value).
Proof.
  unfold addStrings. revert item.
  induction (Split itemprops " ") as [|k l IH]; intros item; simpl; [apply grows_refl |].
  eapply grows_trans; [| apply IH].
  destruct (nonempty k); [| apply grows_refl].
  apply appendValue_grows. constructor.
Qed.

Lemma addItems_grows (itemprops : string) (subItem item : Item) :
  Types subItem = [] -> Id subItem = "" -> untypedValues subItem ->
  grows item (addItems item itemprops subItem).
Proof.
  intros Ht Hi Hu. unfold addItems. revert item.
  induction (Split itemprops " ") as [|k l IH]; intros item; simpl; [apply grows_refl |].
  eapply grows_trans; [| apply IH].
  destruct (nonempty k); [| apply grows_refl].
  apply appendValue_grows. now constructor.
Qed.

Lemma NewItem_untyped : untypedValues NewItem.
Proof. constructor. intros k vs. cbn. now rewrite lookup_empty. Qed.

Lemma foldM_grows (rd : Item -> Node -> option Item) (l : list Node) :
  (forall item n item', rd item n = Some item' -> grows item item') ->
  forall item item', foldM rd l item = Some item' -> grows item item'.
Proof.
  intros Hrd item item' H.
  apply (foldM_invariant rd (grows item) l) with (b := item); [| apply grows_refl | exact H].
  intros b a b' _ Hb Hr. eapply grows_trans; [exact Hb | eapply Hrd, Hr].
Qed.

(** [readItem] leaves the types and the id of the item it fills alone,
    and every item it stores as a value is a fresh one with values only. *)
Lemma readItem_grows (p : parser) (fuel : nat) :
  forall item node item', readItem p fuel item node = Some item' -> grows item item'.
Proof.
  induction fuel as [|fuel IH]; intros item node item' H; [discriminate |].
  destruct (getAttr "itemprop" node) as [itemprops|] eqn:Hp.
  - destruct (getAttr "itemscope" node) as [x|] eqn:Hs.
    + rewrite (readItem_scope _ _ _ _ _ _ Hp Hs) in H.
      destruct (foldM _ _ NewItem) as [subItem|] eqn:E; [| discriminate].
      injection H as <-. apply foldM_grows in E as (Ht & Hi & Hu); [| exact IH].
      apply addItems_grows; [exact Ht | exact Hi | apply Hu, NewItem_untyped].
    + rewrite (readItem_property _ _ _ _ _ Hp Hs) in H.
      apply foldM_grows in H; [| exact IH].
      eapply grows_trans; [| exact H].
      destruct (nonempty _); [apply addStrings_grows | apply grows_refl].
  - rewrite (readItem_plain _ _ _ _ Hp) in H. apply foldM_grows in H; [exact H | exact IH].
Qed.

Lemma readTypes_Properties (p : parser) (node : Node) (item : Item) :
  Properties (readTypes p node item) = Properties item.
Proof.
  unfold readTypes. destruct (getAttr "itemtype" node) as [s|]; [| reflexivity].
  assert (H : forall l item,
             Properties (fold_left (fun item itemtype =>
                                      if nonempty itemtype then addType item itemtype
                                      else item) l item) = Properties item).
  { induction l as [|k l IH]; intros it; simpl; [reflexivity |].
    rewrite IH. destruct (nonempty k); [destruct it |]; reflexivity. }
  destruct (getAttr "itemid" node) as [i|]; [destruct (Resolve _ _) |]; cbn;
    apply H.
Qed.

Lemma parseNode_untyped (p : parser) (fuel : nat) (node : Node) (item : Item) :
  parseNode p fuel node = Some item -> untypedValues item.
Proof.
  rewrite parseNode_eq. intros H.
  apply foldM_grows in H as (_ & _ & Hu); [| apply readItem_grows].
  apply Hu. constructor. intros k vs. rewrite readTypes_Properties. cbn.
  now rewrite lookup_empty.
Qed.

(** ** Recursion depth *)

Lemma is_Some_bind_Some {A B : Type} (o : option A) (f : A -> B) :
  is_Some (x ← o; Some (f x)) <-> is_Some o.
Proof. destruct o; simpl; split; intros [? ?]; eauto; discriminate. Qed.

Lemma noNestedRefs_spec (p : parser) (n : Node) :
  noNestedRefs p n <->
  forall m, m ∈ preorder n -> nestedScope m = true -> refNodes p m = [].
Proof.
  unfold noNestedRefs. rewrite List.forallb_forall. unfold followsRef.
  split; intros H m Hm.
  - apply list_elem_of_In, H in Hm. intros Hs. rewrite Hs in Hm.
    now destruct (refNodes p m).
  - apply list_elem_of_In in Hm. specialize (H m Hm).
    destruct (nestedScope m); [| reflexivity]. now rewrite H.
Qed.

Lemma noNestedRefs_child (p : parser) (n c : Node) :
  c ∈ Children n -> noNestedRefs p n -> noNestedRefs p c.
Proof.
  rewrite !noNestedRefs_spec. intros Hc H m Hm.
  apply H. now apply (descendants_in_preorder n c).
Qed.

(** A loop of [readItem] over sibling subtrees returns exactly when
    the fuel covers the deepest of them. *)
Lemma children_depth (p : parser) (cs : list Node) (fuel : nat) :
  Forall (fun c => forall fuel item,
              is_Some (readItem p fuel item c) <-> height c <= fuel) cs ->
  forall item, is_Some (foldM (readItem p fuel) cs item) <-> maxHeight cs <= fuel.
Proof.
  rewrite list.Forall_forall. intros IH item. split.
  - intros Hsome. destruct (le_lt_dec (maxHeight cs) fuel) as [Hle | Hlt]; [exact Hle |].
    destruct cs as [|c0 cs0]; [simpl in Hlt; lia |].
    destruct (maxHeight_attained (c0 :: cs0)) as (c & Hc & Hh); [discriminate |].
    rewrite (foldM_stuck _ _ c Hc) in Hsome; [destruct Hsome; discriminate |].
    intros b. destruct (readItem p fuel b c) eqn:E; [| reflexivity].
    assert (Hs : is_Some (readItem p fuel b c)) by (rewrite E; eauto).
    apply IH in Hs; [lia | exact Hc].
  - intros Hle. apply foldM_total. intros c Hc b. apply IH; [exact Hc |].
    pose proof (maxHeight_ge cs c Hc). lia.
Qed.

(** When no nested scope follows a reference, [readItem] on a node
    recurses exactly as deep as the subtree of the node. *)
Lemma readItem_depth (p : parser) (n : Node) :
  noNestedRefs p n ->
  forall fuel item, is_Some (readItem p fuel item n) <-> height n <= fuel.
Proof.
  induction n as [ty a d attrs cs IH] using Node_forall_ind. intros Hn fuel item.
  set (n := mkNode ty a d attrs cs) in *. rewrite (height_eq n).
  assert (IHcs : Forall (fun c => forall fuel item,
                             is_Some (readItem p fuel item c) <-> height c <= fuel) cs).
  { rewrite list.Forall_forall in IH |- *. intros c Hc. apply IH; [exact Hc |].
    now apply (noNestedRefs_child p n c). }
  destruct fuel as [|fuel]; [split; [intros [? ?]; discriminate | lia] |].
  change (Children n) with cs. rewrite <- Nat.succ_le_mono.
  destruct (getAttr "itemprop" n) as [itemprops|] eqn:Hp.
  - destruct (getAttr "itemscope" n) as [x|] eqn:Hs.
    + rewrite (readItem_scope _ _ _ _ _ _ Hp Hs), is_Some_bind_Some.
      assert (Hr : refNodes p n = []).
      { rewrite noNestedRefs_spec in Hn.
        apply (Hn n (preorder_self n)). unfold nestedScope, hasAttr. now rewrite Hp, Hs. }
      rewrite Hr. cbn [app]. apply (children_depth p cs fuel IHcs).
    + rewrite (readItem_property _ _ _ _ _ Hp Hs).
      apply (children_depth p cs fuel IHcs).
  - rewrite (readItem_plain _ _ _ _ Hp). apply (children_depth p cs fuel IHcs).
Qed.

Lemma noNestedRefs_sub (p : parser) (t n : Node) :
  n ∈ preorder t -> noNestedRefs p t -> noNestedRefs p n.
Proof.
  rewrite !noNestedRefs_spec. intros Hn H m Hm.
  apply H. now apply (preorder_trans t n).
Qed.

Lemma refNodes_in_tree (t : Node) (u : URL) (node m : Node) :
  m ∈ refNodes (scanned (newParser t u)) node -> m ∈ preorder t.
Proof.
  unfold refNodes. destruct (getAttr "itemref" node) as [s|]; [| now intros ?%elem_of_nil].
  intros (k & _ & Hk)%list_elem_of_omap. now apply (scanned_in_tree t u k).
Qed.

Lemma followsRef_spec (p : parser) (k : Node) :
  followsRef p k = true <-> nestedScope k = true /\ refNodes p k <> [].
Proof.
  unfold followsRef. destruct (nestedScope k), (refNodes p k); cbn;
    (split; [intros H; try discriminate H; split; congruence
            | intros [H1 H2]; congruence]).
Qed.

Lemma refsDescend_spec (p : parser) (rank : Node -> nat) (t : Node) :
  refsDescend p rank t = true ->
  forall m, m ∈ preorder t -> nestedScope m = true ->
  forall r, r ∈ refNodes p m ->
  forall k, k ∈ preorder r -> followsRef p k = true -> rank k < rank m.
Proof.
  unfold refsDescend. rewrite List.forallb_forall.
  intros H m Hm Hs r Hr k Hk Hf.
  apply list_elem_of_In, H in Hm. rewrite Hs in Hm. cbn in Hm.
  rewrite List.forallb_forall in Hm. apply list_elem_of_In, Hm in Hr.
  rewrite List.forallb_forall in Hr. apply list_elem_of_In, Hr in Hk.
  rewrite Hf in Hk. now apply Nat.ltb_lt.
Qed.

Lemma refsBelow_spec (p : parser) (rank : Node -> nat) (R : nat) (t : Node) :
  refsBelow p rank R t = true <->
  forall k, k ∈ preorder t -> followsRef p k = true -> rank k < R.
Proof.
  unfold refsBelow. rewrite List.forallb_forall. split; intros H k Hk.
  - apply list_elem_of_In, H in Hk. intros Hf. rewrite Hf in Hk. now apply Nat.ltb_lt.
  - apply list_elem_of_In in Hk. specialize (H k Hk).
    destruct (followsRef p k); [| reflexivity]. now apply Nat.ltb_lt, H.
Qed.

Lemma refsBelow_0 (p : parser) (rank : Node -> nat) (t : Node) :
  refsBelow p rank 0 t = true <-> noNestedRefs p t.
Proof.
  rewrite refsBelow_spec, noNestedRefs_spec. split; intros H k Hk.
  - intros Hs. destruct (refNodes p k) as [|r rs] eqn:E; [reflexivity |].
    assert (Hf : followsRef p k = true) by (apply followsRef_spec; split; congruence).
    specialize (H k Hk Hf). lia.
  - intros [Hs Hr]%followsRef_spec. now specialize (H k Hk Hs).
Qed.

(** When the references of nested scopes descend along a rank below
    [R], [readItem] on a node of the tree [t] returns within the depth
    of the node and [R] further descents through [t]. *)
Lemma readItem_bounded (p : parser) (rank : Node -> nat) (t : Node) :
  (forall m r, r ∈ refNodes p m -> r ∈ preorder t) ->
  refsDescend p rank t = true ->
  forall R n,
    n ∈ preorder t ->
    (forall k, k ∈ preorder n -> followsRef p k = true -> rank k < R) ->
    forall fuel item,
      height n + R * height t <= fuel -> is_Some (readItem p fuel item n).
Proof.
  intros Hin Hd R. induction R as [R IHR] using lt_wf_ind.
  intros n. induction n as [ty a d attrs cs IH] using Node_forall_ind.
  intros Hn HR fuel item Hf.
  set (n := mkNode ty a d attrs cs) in *. rewrite (height_eq n) in Hf.
  change (Children n) with cs in Hf.
  destruct fuel as [|fuel]; [lia |].
  assert (Hcs : forall c, c ∈ cs -> forall item, is_Some (readItem p fuel item c)).
  { rewrite list.Forall_forall in IH. intros c Hc item'.
    assert (Hcn : forall k, k ∈ preorder c -> k ∈ preorder n)
      by (apply (descendants_in_preorder n c); exact Hc).
    apply IH; [exact Hc | | |].
    - apply (preorder_trans t n Hn), Hcn, preorder_self.
    - intros k Hk. apply HR, Hcn, Hk.
    - pose proof (maxHeight_ge cs c Hc). lia. }
  destruct (getAttr "itemprop" n) as [itemprops|] eqn:Hp.
  - destruct (getAttr "itemscope" n) as [x|] eqn:Hs.
    + rewrite (readItem_scope _ _ _ _ _ _ Hp Hs), is_Some_bind_Some.
      apply foldM_total. intros m [Hm | Hm]%elem_of_app item'; [| now apply Hcs].
      assert (Hnested : nestedScope n = true)
        by (unfold nestedScope, hasAttr; now rewrite Hp, Hs).
      assert (Hrank : rank n < R).
      { apply HR; [apply preorder_self |]. apply followsRef_spec.
        split; [exact Hnested |]. intros E. rewrite E in Hm. inversion Hm. }
      apply (IHR (rank n) Hrank m (Hin n m Hm)).
      * intros k Hk Hfk. now apply (refsDescend_spec p rank t Hd n Hn Hnested m Hm).
      * pose proof (height_preorder t m (Hin n m Hm)). nia.
    + rewrite (readItem_property _ _ _ _ _ Hp Hs). now apply foldM_total.
  - rewrite (readItem_plain _ _ _ _ Hp). now apply foldM_total.
Qed.

(** With that fuel at the root, [parse] returns. *)
Lemma parse_bounded (t : Node) (u : URL) (rank : Node -> nat) (R fuel : nat) :
  refsDescend (scanned (newParser t u)) rank t = true ->
  refsBelow (scanned (newParser t u)) rank R t = true ->
  (R + 1) * height t <= fuel ->
  exists items, parse (newParser t u) fuel = Some (mkMicrodata items, None).
Proof.
  intros Hd Hb Hf. rewrite parse_eq.
  set (p := scanned (newParser t u)) in *.
  destruct (foldM_total
              (fun items node => item ← parseNode p fuel node; Some (items ++ [item])%list)
              (scan (newParser t u)).1) with (b := Items (data (newParser t u)))
    as [items ->]; [| now exists items].
  intros node Hnode items. apply is_Some_bind_Some.
  rewrite scan_toplevel in Hnode.
  apply list_elem_of_In, List.filter_In in Hnode as [Hnode%list_elem_of_In _].
  cbn [tree newParser] in Hnode.
  rewrite parseNode_eq. apply foldM_total. intros m Hm item.
  assert (Hin : m ∈ preorder t).
  { apply elem_of_app in Hm as [Hm | Hm]; [now apply (refNodes_in_tree t u node) |].
    apply (preorder_trans t node Hnode).
    apply (descendants_in_preorder node m Hm), preorder_self. }
  apply (readItem_bounded p rank t) with (R := R);
    [intros m' r; apply refNodes_in_tree | exact Hd | exact Hin | |].
  - intros k Hk. apply (proj1 (refsBelow_spec p rank R t) Hb).
    now apply (preorder_trans t m).
  - pose proof (height_preorder t m Hin). lia.
Qed.

(** With fuel for the depth of the document, [parse] returns when no
    nested scope follows a reference. *)
Lemma parse_total (t : Node) (u : URL) (fuel : nat) :
  noNestedRefs (scanned (newParser t u)) t ->
  height t <= fuel ->
  exists items, parse (newParser t u) fuel = Some (mkMicrodata items, None).
Proof.
  intros Hn Hf. apply (parse_bounded t u (fun _ => 0) 0); [| now apply refsBelow_0 | lia].
  unfold refsDescend. apply List.forallb_forall. intros m Hm%list_elem_of_In.
  destruct (nestedScope m) eqn:Hs; [cbn | reflexivity].
  rewrite noNestedRefs_spec in Hn. now rewrite (Hn m Hm Hs).
Qed.

(** ** Property values *)

Lemma writeText_fold (l : list Node) :
  forall buf,
    fold_left (fun buf m => writeText m buf) l buf
    = fold_left (fun buf n => String.append buf (Data n)) (List.filter isText l) buf.
Proof.
  induction l as [|m l IH]; intros buf; simpl; [reflexivity |].
  rewrite IH. unfold writeText, isText. destruct (Type_ m); reflexivity.
Qed.

(** The default case collects the text of the subtree; for a node that
    is not a text node this is the text of its descendants. *)
Lemma default_text (node : Node) :
  isText node = false -> walkNodes node writeText "" = textOf (descendants node).
Proof.
  intros Hn. rewrite walkNodes_preorder, writeText_fold, preorder_eq.
  unfold textOf. simpl. now rewrite Hn.
Qed.

Lemma propValue_table (p : parser) (node : Node) :
  isText node = false -> propValue p node = default "" (valueOf_table p node).
Proof.
  intros Hn. unfold propValue, valueOf_table.
  destruct (DataAtom node) eqn:E; cbn;
    try (destruct (getAttr _ node) as [v|]; cbn; [| reflexivity];
         try destruct (Resolve (baseURL p) v); reflexivity).
  now apply default_text.
Qed.

(** ** Top-level items *)

(** The walk collects every typed scope of the tree, a property of
    another item or not. *)
Lemma typed_property_scope_top_level (p : parser) (node : Node) :
  node ∈ preorder (tree p) -> nestedScope node = true ->
  hasAttr "itemtype" node = true -> node ∈ (scan p).1.
Proof.
  intros Hn [_ Hs]%andb_prop Ht. rewrite scan_toplevel.
  apply list_elem_of_In, List.filter_In. split; [now apply list_elem_of_In |].
  unfold typedScope. now rewrite Hs, Ht.
Qed.

(** A property scope without a type is not collected by the walk. *)
Lemma untyped_property_scope_not_top_level (p : parser) (node : Node) :
  node ∈ (scan p).1 -> getAttr "itemtype" node <> None.
Proof.
  rewrite scan_toplevel. intros H.
  apply list_elem_of_In, List.filter_In in H as [_ H].
  unfold typedScope, hasAttr in H.
  destruct (getAttr "itemtype" node); [discriminate |].
  now rewrite andb_false_r in H.
Qed.

(** ** Types and id *)

Lemma addTypes_Types (l : list string) :
  forall item,
    Types (fold_left (fun item itemtype =>
                        if nonempty itemtype then addType item itemtype else item) l item)
    = (Types item ++ List.filter nonempty l)%list.
Proof.
  induction l as [|k l IH]; intros item; simpl; [now rewrite app_nil_r |].
  rewrite IH. destruct (nonempty k); [| reflexivity].
  destruct item. cbn. now rewrite <- app_assoc.
Qed.

Lemma addTypes_Id (l : list string) :
  forall item,
    Id (fold_left (fun item itemtype =>
                     if nonempty itemtype then addType item itemtype else item) l item)
    = Id item.
Proof.
  induction l as [|k l IH]; intros item; simpl; [reflexivity |].
  rewrite IH. destruct (nonempty k); [destruct item |]; reflexivity.
Qed.

(** The item of a top-level node: its types are the non-empty tokens of
    [itemtype], and its id is the resolved [itemid] when the node has an
    [itemtype] and the id resolves. *)
Lemma toplevel_types_and_id (p : parser) (fuel : nat) (node : Node) (item : Item) :
  parseNode p fuel node = Some item ->
  Types item = from_option tokens [] (getAttr "itemtype" node) /\
  Id item = match getAttr "itemtype" node, getAttr "itemid" node with
            | Some _, Some s => default "" (Resolve (baseURL p) s)
            | _, _ => ""
            end.
Proof.
  rewrite parseNode_eq. intros H.
  apply foldM_grows in H as (-> & -> & _); [| apply readItem_grows].
  unfold readTypes. destruct (getAttr "itemtype" node) as [s|]; [| now split].
  pose proof (addTypes_Types (Split s " ") NewItem) as Ht.
  pose proof (addTypes_Id (Split s " ") NewItem) as Hi.
  destruct (getAttr "itemid" node) as [i|]; [destruct (Resolve _ i) |];
    cbn; split; try exact Ht; try exact Hi; try reflexivity.
  all: destruct (fold_left _ _ _); exact Ht || reflexivity.
Qed.

(** ** Empty values *)

(** C5, as the code has it: a property value that is the empty string
    adds no entry, whether it comes from an attribute or from the text
    of the node; a non-empty value is added under every property name
    of the node.  In both cases the children are read next. *)
Theorem empty_value_adds_no_property
    (p : parser) (fuel : nat) (item : Item) (node : Node) (itemprops : string) :
  getAttr "itemprop" node = Some itemprops ->
  getAttr "itemscope" node = None ->
  (propValue p node = "" ->
   readItem p (S fuel) item node = foldM (readItem p fuel) (Children node) item)
  /\ (propValue p node <> "" ->
      readItem p (S fuel) item node
      = foldM (readItem p fuel) (Children node)
          (addStrings item itemprops (propValue p node))).
Proof.
  intros Hp Hs. rewrite (readItem_property _ _ _ _ _ Hp Hs).
  split; intros Hv.
  - now rewrite Hv.
  - destruct (propValue p node); [congruence | reflexivity].
Qed.

(** ** The value of a property *)

(** C6: the value of a property that is not a scope follows the table
    of element kinds, and a node without a value in the table (no
    attribute, or a URL that does not resolve) adds nothing. *)
Theorem property_value_by_element_kind
    (p : parser) (fuel : nat) (item : Item) (node : Node) (itemprops : string) :
  isText node = false ->
  getAttr "itemprop" node = Some itemprops ->
  getAttr "itemscope" node = None ->
  propValue p node = default "" (valueOf_table p node)
  /\ readItem p (S fuel) item node
     = foldM (readItem p fuel) (Children node)
         match valueOf_table p node with
         | Some value => if nonempty value then addStrings item itemprops value else item
         | None => item
         end.
Proof.
  intros Hn Hp Hs. pose proof (propValue_table p node Hn) as Hv.
  split; [exact Hv |].
  rewrite (readItem_property _ _ _ _ _ Hp Hs), Hv.
  destruct (valueOf_table p node); reflexivity.
Qed.

(** ** References of a scope *)

(** C7: a scope, top-level ([top]) or nested ([node]), reads the nodes
    its [itemref] tokens identify, in token order, and then its
    children, all in the same way; empty tokens and tokens that
    identify no node are skipped. *)
Theorem itemref_nodes_read_in_token_order
    (p : parser) (fuel : nat) (top : Node) (item : Item) (node : Node)
    (itemprops x : string) :
  getAttr "itemprop" node = Some itemprops ->
  getAttr "itemscope" node = Some x ->
  parseNode p fuel top
  = foldM (readItem p fuel) (refNodes p top ++ Children top) (readTypes p top NewItem)
  /\ readItem p (S fuel) item node
     = (subItem ← foldM (readItem p fuel) (refNodes p node ++ Children node) NewItem;
        Some (addItems item itemprops subItem))
  /\ forall n, n ∈ refNodes p node <->
               exists itemrefs itemref,
                 getAttr "itemref" node = Some itemrefs /\
                 itemref ∈ Split itemrefs " " /\ itemref <> "" /\
                 identifiedNodes p !! itemref = Some n.
Proof.
  intros Hp Hs. split; [apply parseNode_eq |].
  split; [now apply (readItem_scope _ _ _ _ _ x) |].
  intros n. unfold refNodes, tokens.
  destruct (getAttr "itemref" node) as [s|].
  - rewrite list_elem_of_omap. split.
    + intros (k & Hk & Hn). apply list_elem_of_In, List.filter_In in Hk as [Hk Hne].
      exists s, k. repeat split; [now apply list_elem_of_In | | exact Hn].
      intros ->. discriminate.
    + intros (s' & k & [= <-] & Hk & Hne & Hn). exists k. split; [| exact Hn].
      apply list_elem_of_In, List.filter_In. split; [now apply list_elem_of_In |].
      now destruct k.
  - split; [intros H; inversion H | intros (? & ? & ? & _); discriminate].
Qed.

(** ** Termination *)

(** X7: in the earlier revision, which descends into every node, when
    the references of nested scopes descend along a rank below [R],
    [parse] returns within [R + 1] times the nesting depth of the
    document; and when no nested scope follows a reference ([R = 0]),
    [readItem] on a node of the tree recurses exactly as deep as the
    subtree of that node. *)
Theorem descent_terminates_when_references_descend
    (t : Node) (u : URL) (rank : Node -> nat) (R : nat) :
  refsDescend (scanned (newParser t u)) rank t = true ->
  refsBelow (scanned (newParser t u)) rank R t = true ->
  (forall fuel, (R + 1) * height t <= fuel -> is_Some (parse (newParser t u) fuel))
  /\ (R = 0 ->
      forall n, n ∈ preorder t ->
      forall fuel item,
        is_Some (readItem (scanned (newParser t u)) fuel item n) <-> height n <= fuel).
Proof.
  intros Hd Hb. split.
  - intros fuel Hf. destruct (parse_bounded t u rank R fuel Hd Hb Hf) as [items ->]. eauto.
  - intros -> n Hin. apply refsBelow_0 in Hb.
    apply readItem_depth. now apply (noNestedRefs_sub _ t).
Qed.

(** ** Nested items *)

(** X25: in the earlier revision, where [readItem] builds the item of
    a nested scope from [NewItem] alone, every item stored as a
    property value, at any depth of the result of [parse], has no type
    and no id, whatever [itemtype] and [itemid] its node has.  The
    latest revision reads both through [readAttr]. *)
Theorem nested_items_have_no_type_and_no_id
    (t : Node) (u : URL) (fuel : nat) (d : Microdata) (e : error) :
  parse (newParser t u) fuel = Some (d, e) -> Forall untypedValues (Items d).
Proof.
  intros [H _]%parse_Some.
  induction H as [|node item nodes items Hitem _ IH]; constructor; [| exact IH].
  now apply parseNode_untyped in Hitem.
Qed.

(** The item [readItem] stores for a nested scope is built from
    [NewItem] alone: the attributes of the node give it no type and no
    id. *)
Lemma nested_scope_value (p : parser) (fuel : nat) (item item' : Item) (node : Node)
    (itemprops x : string) :
  getAttr "itemprop" node = Some itemprops ->
  getAttr "itemscope" node = Some x ->
  readItem p fuel item node = Some item' ->
  exists subItem,
    Types subItem = [] /\ Id subItem = "" /\ item' = addItems item itemprops subItem.
Proof.
  intros Hp Hs H. destruct fuel as [|fuel]; [discriminate |].
  rewrite (readItem_scope _ _ _ _ _ _ Hp Hs) in H.
  destruct (foldM _ _ NewItem) as [subItem|] eqn:E; [| discriminate].
  injection H as <-. exists subItem.
  apply foldM_grows in E as (Ht & Hi & _); [| apply readItem_grows]. now repeat split.
Qed.

(** * The properties on the example documents *)

(** C5 as stated fails on [docMeta]: the [content] of [metaEmpty] is
    the empty string, and the person gets no [length] entry. *)
Lemma empty_content_not_emitted :
  getAttr "itemprop" metaEmpty = Some "length"
  /\ getAttr "content" metaEmpty = Some ""
  /\ readItem (scanned (newParser docMeta exampleURL)) 1 NewItem metaEmpty = Some NewItem
  /\ parse (newParser docMeta exampleURL) 2 = Some (mkMicrodata [metaItem], None)
  /\ Properties metaItem !! "length" = None.
Proof. repeat split; vm_compute; reflexivity. Qed.

Lemma empty_value_witness :
  getAttr "itemprop" metaEmpty = Some "length"
  /\ getAttr "itemscope" metaEmpty = None
  /\ readItem (newParser docMeta exampleURL) 1 NewItem metaEmpty = Some NewItem.
Proof.
  split; [reflexivity | split; [reflexivity |]].
  apply (empty_value_adds_no_property
           (newParser docMeta exampleURL) 0 NewItem metaEmpty "length");
    reflexivity.
Defined.

Lemma property_value_witness :
  isText imgWork = false
  /\ getAttr "itemprop" imgWork = Some "work"
  /\ getAttr "itemscope" imgWork = None
  /\ propValue (newParser docMeta exampleURL) imgWork
     = "http://example.com/images/house.jpeg".
Proof.
  split; [reflexivity | split; [reflexivity | split; [reflexivity |]]].
  rewrite (proj1 (property_value_by_element_kind
                    (newParser docMeta exampleURL) 0 NewItem imgWork "work"
                    eq_refl eq_refl eq_refl)).
  reflexivity.
Defined.

Lemma itemref_order_witness :
  getAttr "itemprop" memberScope = Some "member"
  /\ getAttr "itemscope" memberScope = Some ""
  /\ refNodes (scanned (newParser docBand exampleURL)) memberScope = [memberBob; memberAnn]
  /\ readItem (scanned (newParser docBand exampleURL)) 3 NewItem memberScope
     = Some (addItems NewItem "member" memberValue).
Proof.
  split; [reflexivity | split; [reflexivity | split; [vm_compute; reflexivity |]]].
  destruct (itemref_nodes_read_in_token_order
              (scanned (newParser docBand exampleURL)) 2 bandScope NewItem memberScope
              "member" "" eq_refl eq_refl) as (_ & -> & _).
  vm_compute. reflexivity.
Defined.

(** Top-level references on [docMovie]: the tokens are [second], an
    empty one, [missing] and [first]; the values follow the tokens, and
    the item's own child comes last. *)
Lemma itemref_order_top_level :
  refNodes (scanned (newParser docMovie exampleURL))
           (elem atom.Other
              [attr "itemscope" ""; attr "itemtype" "http://example.com/Movie";
               attr "itemref" "second  missing first"] [])
  = [elem atom.Other [attr "id" "second"; attr "itemprop" "tag"] [text "two"];
     elem atom.Other [attr "id" "first"; attr "itemprop" "tag"] [text "one"]]
  /\ parse (newParser docMovie exampleURL) 2 = Some (mkMicrodata [movieItem], None).
Proof. split; vm_compute; reflexivity. Qed.

Lemma itemref_order_nested :
  parse (newParser docBand exampleURL) 3 = Some (mkMicrodata [bandItem], None).
Proof. vm_compute. reflexivity. Qed.

(** The three sources of a value: an attribute, a URL that does not
    resolve, and text with markup inside. *)
Lemma property_value_examples :
  propValue (newParser docMeta exampleURL) imgWork = "http://example.com/images/house.jpeg"
  /\ propValue (newParser docMeta exampleURL) linkBroken = ""
  /\ readItem (newParser docMeta exampleURL) 1 NewItem linkBroken = Some NewItem
  /\ propValue (newParser docMeta exampleURL) spanTitle = "The house I found."
  /\ readItem (newParser docMeta exampleURL) 3 NewItem spanTitle
     = Some (addString NewItem "title" "The house I found.").
Proof. repeat split; vm_compute; reflexivity. Qed.

(** The earlier revision on [docLoop]: the [itemref] of [loopScope]
    names [loopBox], which contains it, and no depth is enough. *)
Lemma loop_never_returns (fuel : nat) :
  (forall item, readItem (scanned (newParser docLoop exampleURL)) fuel item loopBox = None)
  /\ (forall item, readItem (scanned (newParser docLoop exampleURL)) fuel item loopScope = None).
Proof.
  assert (Hr : refNodes (scanned (newParser docLoop exampleURL)) loopScope = [loopBox])
    by (vm_compute; reflexivity).
  set (p := scanned (newParser docLoop exampleURL)) in *.
  induction fuel as [|fuel [IHbox IHscope]]; [split; reflexivity |].
  split; intros item.
  - rewrite readItem_plain by reflexivity.
    change (Children loopBox) with [loopScope]. cbn [foldM]. now rewrite IHscope.
  - rewrite (readItem_scope p fuel item loopScope "part" "") by reflexivity.
    rewrite Hr. change (Children loopScope) with (@nil Node). cbn [app foldM].
    now rewrite IHbox.
Qed.

Lemma parse_stuck (t : Node) (u : URL) (fuel : nat) (top c : Node) :
  top ∈ (scan (newParser t u)).1 ->
  c ∈ Children top ->
  (forall item, readItem (scanned (newParser t u)) fuel item c = None) ->
  parse (newParser t u) fuel = None.
Proof.
  intros Htop Hc Hnone. rewrite parse_eq.
  rewrite (foldM_stuck _ _ top Htop); [reflexivity |].
  intros items. rewrite parseNode_eq.
  rewrite (foldM_stuck _ _ c); [reflexivity | | exact Hnone].
  apply elem_of_app. now right.
Qed.

Lemma nested_reference_loop_never_returns :
  loopScope ∈ preorder loopBox
  /\ refNodes (scanned (newParser docLoop exampleURL)) loopScope = [loopBox]
  /\ forall fuel, parse (newParser docLoop exampleURL) fuel = None.
Proof.
  split; [vm_compute; right; left |]. split; [vm_compute; reflexivity |].
  intros fuel. apply (parse_stuck docLoop exampleURL fuel loopThing loopBox).
  - vm_compute. left.
  - left.
  - apply loop_never_returns.
Qed.

(** Without a cycle, a reference of a nested scope still takes the
    descent below the nesting depth of the document. *)
Lemma reference_descent_exceeds_nesting_depth :
  height docDeep = 4
  /\ parse (newParser docDeep exampleURL) 4 = None
  /\ is_Some (parse (newParser docDeep exampleURL) 5).
Proof. split; [reflexivity | split; [vm_compute; reflexivity | vm_compute; eauto]]. Qed.

Lemma descent_depth_witness :
  (refsDescend (scanned (newParser docDeep exampleURL)) (fun _ => 0) docDeep = true
   /\ refsBelow (scanned (newParser docDeep exampleURL)) (fun _ => 0) 1 docDeep = true
   /\ is_Some (parse (newParser docDeep exampleURL) 8))
  /\ (refsDescend (scanned (newParser docSelfRef exampleURL)) (fun _ => 0) docSelfRef = true
      /\ refsBelow (scanned (newParser docSelfRef exampleURL)) (fun _ => 0) 0 docSelfRef = true
      /\ forall item,
           is_Some (readItem (scanned (newParser docSelfRef exampleURL)) 5 item docSelfRef)).
Proof.
  split.
  - assert (Hd : refsDescend (scanned (newParser docDeep exampleURL)) (fun _ => 0) docDeep
                 = true) by (vm_compute; reflexivity).
    assert (Hb : refsBelow (scanned (newParser docDeep exampleURL)) (fun _ => 0) 1 docDeep
                 = true) by (vm_compute; reflexivity).
    split; [exact Hd | split; [exact Hb |]].
    apply (proj1 (descent_terminates_when_references_descend
                    docDeep exampleURL (fun _ => 0) 1 Hd Hb) 8).
    vm_compute. lia.
  - assert (Hd : refsDescend (scanned (newParser docSelfRef exampleURL)) (fun _ => 0)
                             docSelfRef = true) by (vm_compute; reflexivity).
    assert (Hb : refsBelow (scanned (newParser docSelfRef exampleURL)) (fun _ => 0) 0
                           docSelfRef = true) by (vm_compute; reflexivity).
    split; [exact Hd | split; [exact Hb |]]. intros item.
    apply (proj2 (descent_terminates_when_references_descend
                    docSelfRef exampleURL (fun _ => 0) 0 Hd Hb)
                 eq_refl docSelfRef (preorder_self _) 5 item).
    vm_compute. lia.
Defined.

Lemma nested_items_witness :
  parse (newParser docComment exampleURL) 3
  = Some (mkMicrodata [postItem; commentItem], None)
  /\ Forall untypedValues [postItem; commentItem].
Proof.
  assert (H : parse (newParser docComment exampleURL) 3
              = Some (mkMicrodata [postItem; commentItem], None))
    by (vm_compute; reflexivity).
  split; [exact H |].
  exact (nested_items_have_no_type_and_no_id docComment exampleURL 3 _ _ H).
Defined.

(** * Further properties of the parser *)

(** ** Attributes and the walk *)

(** X1: [getAttr] returns the value of the first attribute with the
    key, whatever follows it, and nothing exactly when no attribute has
    the key. *)
Theorem getAttr_first_occurrence (k : string) (node : Node) :
  (forall v, getAttr k node = Some v <->
             exists before ns after,
               Attr node = (before ++ mkAttr ns k v :: after)%list /\
               Forall (fun a => Key a <> k) before)
  /\ (getAttr k node = None <-> Forall (fun a => Key a <> k) (Attr node)).
Proof.
  unfold getAttr. induction (Attr node) as [|a attrs [IHsome IHnone]]; simpl.
  - split; [| split; [constructor | reflexivity]].
    intros v. split; [discriminate |].
    intros (before & ns & after & H & _). now destruct before.
  - destruct (String.eqb_spec k (Key a)) as [-> | Hne].
    + split.
      * intros v. split.
        -- intros [= <-]. exists [], (Namespace a), attrs. split; [now destruct a | constructor].
        -- intros (before & ns & after & H & Hb).
           destruct before as [|b before]; cbn in H.
           ++ now injection H as ->.
           ++ injection H as -> _. inversion Hb; congruence.
      * split; [discriminate |]. intros H. inversion H; congruence.
    + split.
      * intros v. rewrite IHsome. split.
        -- intros (before & ns & after & -> & Hb). exists (a :: before), ns, after.
           split; [reflexivity |]. constructor; [congruence | exact Hb].
        -- intros (before & ns & after & H & Hb).
           destruct before as [|b before]; cbn in H.
           ++ injection H as -> _. cbn in Hne. congruence.
           ++ injection H as -> ->. inversion Hb; subst. eauto.
      * rewrite IHnone. split.
        -- intros H. constructor; [congruence | exact H].
        -- intros H. now inversion H.
Qed.

(** X2: [walkNodes] runs its function once on every node of the
    subtree, the node first and then the subtrees of its children from
    first to last. *)
Theorem walkNodes_visits_in_document_order {S : Type}
    (f : Node -> S -> S) (n : Node) (s : S) :
  walkNodes n f s = fold_left (fun s m => f m s) (preorder n) s
  /\ walkNodes n (fun m visited => (visited ++ [m])%list) []
     = (n :: flat_map preorder (Children n))%list.
Proof.
  split; [apply walkNodes_preorder |].
  rewrite walkNodes_preorder. transitivity (preorder n); [| apply preorder_eq].
  assert (H : forall l acc : list Node,
             fold_left (fun visited m => (visited ++ [m])%list) l acc = (acc ++ l)%list).
  { induction l as [|m l IH]; intros acc; simpl; [now rewrite app_nil_r |].
    rewrite IH, <- app_assoc. reflexivity. }
  apply H.
Qed.

(** ** The id index *)

Lemma identify_fold_last (k : string) (l : list Node) :
  forall ids,
    fold_left (fun ids m => identify m ids) l ids !! k
    = match list.last (List.filter (hasId k) l) with
      | Some n => Some n
      | None => ids !! k
      end.
Proof.
  induction l as [|n l IH]; intros ids; simpl; [reflexivity |].
  rewrite IH. unfold hasId at 2, identify.
  destruct (getAttr "id" n) as [i|] eqn:E; [| reflexivity].
  destruct (String.eqb_spec i k) as [-> | Hne].
  - rewrite lookup_insert_eq.
    rewrite last_cons. now destruct (list.last (List.filter (hasId k) l)).
  - rewrite lookup_insert_ne by exact Hne. reflexivity.
Qed.

(** X3: after the walk of [parse], an id is bound to the last node of
    the document, in document order, that carries it, and an id no node
    carries is not bound. *)
Theorem identified_is_last_with_id (t : Node) (u : URL) (k : string) :
  identifiedNodes (scanned (newParser t u)) !! k
  = list.last (List.filter (hasId k) (preorder t)).
Proof.
  unfold scanned. cbn [identifiedNodes]. rewrite scan_identified, identify_fold_last.
  cbn [tree newParser identifiedNodes].
  destruct (list.last _); [reflexivity | apply lookup_empty].
Qed.

(** ** Property lists *)

Lemma appendValue_lookup (item : Item) (k k' : string) (v : Value) :
  Properties (appendValue item k v) !! k'
  = if decide (k = k')
    then Some (default [] (Properties item !! k) ++ [v])%list
    else Properties item !! k'.
Proof. destruct item. cbn. apply lookup_insert. Qed.

Lemma appendValues_lookup (v : Value) (l : list string) (k : string) :
  forall item,
    let item' := fold_left (fun it k' => if nonempty k' then appendValue it k' v else it)
                           l item in
    default [] (Properties item' !! k)
    = (default [] (Properties item !! k)
       ++ replicate (count_occ string_dec (List.filter nonempty l) k) v)%list
    /\ (count_occ string_dec (List.filter nonempty l) k = 0 ->
        Properties item' !! k = Properties item !! k).
Proof.
  induction l as [|k' l IH]; intros item; cbn zeta.
  - simpl. split; [now rewrite app_nil_r | reflexivity].
  - cbn [fold_left List.filter]. destruct (nonempty k') eqn:E; [| apply IH].
    destruct (IH (appendValue item k' v)) as [IHv IH0]. cbn zeta in IHv, IH0.
    cbn [count_occ]. rewrite IHv, appendValue_lookup.
    destruct (string_dec k' k) as [-> | Hne].
    + rewrite decide_True by reflexivity. cbn.
      split; [now rewrite <- app_assoc | discriminate].
    + rewrite decide_False by exact Hne.
      split; [reflexivity |]. intros H0. rewrite (IH0 H0), appendValue_lookup.
      now rewrite decide_False by exact Hne.
Qed.

(** X4: the loops over the property names add the value once for
    every occurrence of a name among the non-empty tokens of
    [itemprop], after the values the name already has, and leave every
    other name as it is. *)
Theorem value_added_once_per_occurrence
    (item : Item) (itemprops value : string) (subItem : Item) (k : string) :
  default [] (Properties (addStrings item itemprops value) !! k)
  = (default [] (Properties item !! k)
     ++ replicate (occurrences k itemprops) (VString value))%list
  /\ default [] (Properties (addItems item itemprops subItem) !! k)
     = (default [] (Properties item !! k)
        ++ replicate (occurrences k itemprops) (VItem subItem))%list
  /\ (occurrences k itemprops = 0 ->
      Properties (addStrings item itemprops value) !! k = Properties item !! k
      /\ Properties (addItems item itemprops subItem) !! k = Properties item !! k).
Proof.
  unfold occurrences, tokens.
  destruct (appendValues_lookup (VString value) (Split itemprops " ") k item) as [Hs Hs0].
  destruct (appendValues_lookup (VItem subItem) (Split itemprops " ") k item) as [Hi Hi0].
  split; [exact Hs | split; [exact Hi |]].
  intros H0. split; [now apply Hs0 | now apply Hi0].
Qed.

(** ** What [readItem] does to an item *)

Lemma Split_noSpace (s : string) : Forall (fun t => noSpace t = true) (Split s " ").
Proof.
  induction s as [|c s IH]; simpl; [now repeat constructor |].
  destruct (Ascii.eqb c " ") eqn:E; [now constructor |].
  destruct (Split s " ") as [|piece pieces]; [repeat constructor; simpl; now rewrite E |].
  inversion IH; subst. constructor; [simpl; now rewrite E | assumption].
Qed.

Lemma tokens_isToken (s : string) : Forall (fun t => isToken t = true) (tokens s).
Proof.
  unfold tokens. pose proof (Split_noSpace s) as H.
  induction H as [|t l Ht _ IH]; simpl; [constructor |].
  destruct (nonempty t) eqn:E; [| exact IH].
  constructor; [unfold isToken; now rewrite E, Ht | exact IH].
Qed.

Section ReadItemRelation.
Variable p : parser.
Variable R : Item -> Item -> Prop.
Hypothesis R_refl : forall a, R a a.
Hypothesis R_trans : forall a b c, R a b -> R b c -> R a c.
Hypothesis R_string : forall item k s,
    isToken k = true -> nonempty s = true -> R item (appendValue item k (VString s)).
Hypothesis R_item : forall item k sub,
    isToken k = true -> R NewItem sub -> R item (appendValue item k (VItem sub)).

Lemma appendValues_rel (v : Value) (l : list string) :
  Forall (fun t => noSpace t = true) l ->
  (forall item k, isToken k = true -> R item (appendValue item k v)) ->
  forall item,
    R item (fold_left (fun it k => if nonempty k then appendValue it k v else it) l item).
Proof.
  intros Hl Hv. induction Hl as [|k l Hk _ IH]; intros item; simpl; [apply R_refl |].
  eapply R_trans; [| apply IH].
  destruct (nonempty k) eqn:E; [| apply R_refl].
  apply Hv. unfold isToken. now rewrite E, Hk.
Qed.

Lemma foldM_rel (rd : Item -> Node -> option Item) (l : list Node) :
  (forall item n item', rd item n = Some item' -> R item item') ->
  forall item item', foldM rd l item = Some item' -> R item item'.
Proof.
  intros Hrd item item' H.
  apply (foldM_invariant rd (R item) l) with (b := item); [| apply R_refl | exact H].
  intros b a b' _ Hb Hr. eapply R_trans; [exact Hb | eapply Hrd, Hr].
Qed.

(** A relation that holds across every single value [readItem] can
    add holds across [readItem]. *)
Lemma readItem_rel (fuel : nat) :
  forall item node item', readItem p fuel item node = Some item' -> R item item'.
Proof.
  induction fuel as [|fuel IH]; intros item node item' H; [discriminate |].
  destruct (getAttr "itemprop" node) as [itemprops|] eqn:Hp.
  - destruct (getAttr "itemscope" node) as [x|] eqn:Hs.
    + rewrite (readItem_scope _ _ _ _ _ _ Hp Hs) in H.
      destruct (foldM _ _ NewItem) as [subItem|] eqn:E; [| discriminate].
      injection H as <-. apply foldM_rel in E; [| exact IH].
      apply appendValues_rel; [apply Split_noSpace |].
      intros it k Hk. now apply R_item.
    + rewrite (readItem_property _ _ _ _ _ Hp Hs) in H.
      apply foldM_rel in H; [| exact IH].
      eapply R_trans; [| exact H].
      destruct (nonempty (propValue p node)) eqn:Hv; [| apply R_refl].
      apply appendValues_rel; [apply Split_noSpace |].
      intros it k Hk. now apply R_string.
  - rewrite (readItem_plain _ _ _ _ Hp) in H. apply foldM_rel in H; [exact H | exact IH].
Qed.

Lemma parseNode_rel (fuel : nat) (node : Node) (item : Item) :
  parseNode p fuel node = Some item -> R (readTypes p node NewItem) item.
Proof.
  rewrite parseNode_eq. intros H. apply foldM_rel in H; [exact H |].
  apply readItem_rel.
Qed.
End ReadItemRelation.

Lemma extends_refl (item : Item) : extends item item.
Proof. intros k. split; [exists []; now rewrite app_nil_r | tauto]. Qed.

Lemma extends_trans (a b c : Item) : extends a b -> extends b c -> extends a c.
Proof.
  intros Hab Hbc k. destruct (Hab k) as [[x Hx] Hk1], (Hbc k) as [[y Hy] Hk2].
  split; [| tauto]. exists (x ++ y)%list. now rewrite Hy, Hx, app_assoc.
Qed.

Lemma appendValue_extends (item : Item) (k : string) (v : Value) :
  extends item (appendValue item k v).
Proof.
  intros k'. rewrite appendValue_lookup. destruct (decide (k = k')) as [<- | Hne].
  - split; [exists [v]; reflexivity | eauto].
  - split; [exists []; now rewrite app_nil_r | tauto].
Qed.

(** X5: [readItem] only appends: under every property name the values
    the item had are kept, in order, in front of the values added, and
    no name is lost.  The same holds from the item [parse] starts with
    to the finished top-level item. *)
Theorem readItem_only_appends
    (p : parser) (fuel : nat) (item : Item) (node : Node) (item' : Item) :
  readItem p fuel item node = Some item' ->
  extends item item'
  /\ (forall top, parseNode p fuel node = Some top -> extends (readTypes p node NewItem) top).
Proof.
  intros H. split.
  - apply (readItem_rel p extends extends_refl extends_trans) in H; [exact H | |];
      intros; apply appendValue_extends.
  - intros top Htop.
    apply (parseNode_rel p extends extends_refl extends_trans) in Htop; [exact Htop | |];
      intros; apply appendValue_extends.
Qed.

Lemma appendValue_wellNamed (item : Item) (k : string) (v : Value) :
  isToken k = true -> wellNamedValue v -> wellNamed item ->
  wellNamed (appendValue item k v).
Proof.
  intros Hk Hv Hitem. inversion Hitem as [? Hps]; subst. constructor.
  intros k' vs. rewrite appendValue_lookup.
  destruct (decide (k = k')) as [<- | Hne]; [| apply Hps].
  intros [= <-]. split; [exact Hk |].
  split; [intros E; now apply app_eq_nil in E as [_ E] |].
  apply Forall_app. split; [| now repeat constructor].
  destruct (Properties item !! k) as [vs|] eqn:E; cbn; [| constructor].
  now apply (Hps k vs).
Qed.

Lemma NewItem_wellNamed : wellNamed NewItem.
Proof. constructor. intros k vs. cbn. now rewrite lookup_empty. Qed.

(** X6: in the result of [parse], every property name, at any depth,
    is a non-empty token without a space and has at least one value,
    no string value is empty, and every type of a top-level item is a
    non-empty token without a space. *)
Theorem result_names_are_tokens
    (t : Node) (u : URL) (fuel : nat) (d : Microdata) (e : error) :
  parse (newParser t u) fuel = Some (d, e) ->
  Forall (fun item => wellNamed item /\ Forall (fun ty => isToken ty = true) (Types item))
         (Items d).
Proof.
  intros [H _]%parse_Some.
  induction H as [|node item nodes items Hitem _ IH]; constructor; [| exact IH].
  split.
  - apply (parseNode_rel (scanned (newParser t u))
                         (fun a b => wellNamed a -> wellNamed b)
                         (fun a H => H) (fun a b c Hab Hbc H => Hbc (Hab H)))
      with (fuel := fuel) (node := node).
    + intros it k s Hk Hs. apply appendValue_wellNamed; [exact Hk | now constructor].
    + intros it k sub Hk Hsub. apply appendValue_wellNamed; [exact Hk |].
      constructor. apply Hsub, NewItem_wellNamed.
    + exact Hitem.
    + constructor. intros k vs. rewrite readTypes_Properties. cbn.
      now rewrite lookup_empty.
  - apply toplevel_types_and_id in Hitem as [-> _].
    destruct (getAttr "itemtype" node); cbn; [apply tokens_isToken | constructor].
Qed.

(** ** Edge cases of [parse] *)

(** X9: a nested scope changes the enclosing item only under the
    non-empty names of its own [itemprop]: whatever its subtree and its
    references hold, every other name keeps its values; and when
    [itemprop] has no non-empty name the item built for the scope is
    dropped and the enclosing item is unchanged. *)
Theorem nested_scope_adds_under_its_names_only
    (p : parser) (fuel : nat) (item item' : Item) (node : Node) (itemprops x : string) :
  getAttr "itemprop" node = Some itemprops ->
  getAttr "itemscope" node = Some x ->
  readItem p fuel item node = Some item' ->
  (forall k, occurrences k itemprops = 0 -> Properties item' !! k = Properties item !! k)
  /\ (tokens itemprops = [] -> item' = item).
Proof.
  intros Hp Hs H.
  destruct (nested_scope_value p fuel item item' node itemprops x Hp Hs H)
    as (subItem & _ & _ & ->).
  split.
  - intros k Hk. unfold occurrences, tokens in Hk.
    exact (proj2 (appendValues_lookup (VItem subItem) (Split itemprops " ") k item) Hk).
  - unfold addItems, tokens. generalize item.
    induction (Split itemprops " ") as [|k l IH]; intros it Hl; simpl in *; [reflexivity |].
    destruct (nonempty k); [discriminate | now apply IH].
Qed.

(** X10: in the earlier revision, whose walk collects the nodes with
    [itemscope] and [itemtype], the types of the k-th top-level item
    are the non-empty tokens of the [itemtype] of the k-th such node,
    in order and with repetitions; its id is the resolved [itemid], and
    the empty string when the node has no [itemid] or the [itemid] does
    not resolve.  In the latest revision the roots are the nodes with
    [itemscope] and without [itemprop]. *)
Theorem toplevel_items_types_and_ids
    (t : Node) (u : URL) (fuel : nat) (d : Microdata) (e : error) :
  parse (newParser t u) fuel = Some (d, e) ->
  Forall2 (fun node item =>
             Types item = from_option tokens [] (getAttr "itemtype" node)
             /\ Id item = default "" (getAttr "itemid" node ≫= Resolve u))
          (List.filter typedScope (preorder t)) (Items d).
Proof.
  intros [H _]%parse_Some. rewrite scan_toplevel in H. cbn [tree newParser] in H.
  assert (Ht : Forall (fun n => typedScope n = true) (List.filter typedScope (preorder t)))
    by apply filter_Forall.
  induction H as [|node item nodes items Hitem _ IH]; constructor.
  - inversion Ht as [|? ? Hnode _]; subst.
    apply toplevel_types_and_id in Hitem as [HT HI]. split; [exact HT |].
    rewrite HI. cbn [baseURL scanned newParser].
    unfold typedScope, hasAttr in Hnode.
    destruct (getAttr "itemtype" node); [| now rewrite andb_false_r in Hnode].
    destruct (getAttr "itemid" node); reflexivity.
  - apply IH. now inversion Ht.
Qed.

(** ** The entry points *)

(** X11: [ParseHTML] has no error of its own.  An error it returns is
    the error of [charset.NewReader] or, when that call succeeds, of
    [html.Parse], and comes with a nil [Microdata]; when both calls
    succeed and the traversal returns, the error is nil and the
    [Microdata] is the one [parse] builds from the tree. *)
Theorem ParseHTML_errors_are_upstream
    (w : World) (r : Reader w) (contentType : string) (u : URL) (fuel : nat)
    (m : option Microdata) (e : error) :
  ParseHTML w r contentType u fuel = Some (m, e) ->
  match charset_NewReader w r contentType with
  | inr err => m = None /\ e = Some err
  | inl r' =>
      match html_Parse w r' with
      | inr err => m = None /\ e = Some err
      | inl tree =>
          e = None /\ exists d, m = Some d /\ parse (newParser tree u) fuel = Some (d, None)
      end
  end.
Proof.
  unfold ParseHTML, newParserFrom, parsed.
  destruct (charset_NewReader w r contentType) as [r'|err]; [| now intros [= <- <-]].
  destruct (html_Parse w r') as [tree|err]; [| now intros [= <- <-]].
  destruct (parse (newParser tree u) fuel) as [[d e']|] eqn:E; [| discriminate].
  cbn. intros [= <- <-]. apply parse_Some in E as E'. destruct E' as [_ ->].
  split; [reflexivity |]. now exists d.
Qed.

(** X12: when [ParseURL] returns, exactly one of the [Microdata] and
    the error is nil.  The error is that of [url.Parse] or, when the
    URL parses, of the GET; when both succeed the pair is the one
    [ParseHTML] returns on the body of the response, with the content
    type of the response and the URL itself as the base. *)
Theorem ParseURL_result_or_error
    (w : World) (urlStr : string) (fuel : nat) (m : option Microdata) (e : error) :
  ParseURL w urlStr fuel = Some (m, e) ->
  (m = None <-> e <> None)
  /\ match url_Parse w urlStr with
     | inr err => e = Some err
     | inl u =>
         match http_Get w urlStr with
         | inr err => e = Some err
         | inl resp => ParseHTML w (Body resp) (ContentType resp) u fuel = Some (m, e)
         end
     end.
Proof.
  unfold ParseURL, ParseHTML, newParserFrom, parsed.
  destruct (url_Parse w urlStr) as [u|err];
    [| intros [= <- <-]; split; [split; congruence | reflexivity]].
  destruct (http_Get w urlStr) as [resp|err];
    [| intros [= <- <-]; split; [split; congruence | reflexivity]].
  destruct (charset_NewReader w (Body resp) (ContentType resp)) as [r'|err];
    [| intros [= <- <-]; split; [split; congruence | reflexivity]].
  destruct (html_Parse w r') as [tree|err];
    [| intros [= <- <-]; split; [split; congruence | reflexivity]].
  destruct (parse (newParser tree u) fuel) as [[d e']|] eqn:E; [| discriminate].
  cbn. intros [= <- <-]. apply parse_Some in E as E'. destruct E' as [_ ->].
  split; [split; congruence | reflexivity].
Qed.

(** * The further properties on the example documents *)

Lemma value_added_witness :
  occurrences "name" "name  name" = 2
  /\ default [] (Properties (addStrings NewItem "name  name" "Ann") !! "name")
     = [VString "Ann"; VString "Ann"]
  /\ occurrences "title" "name  name" = 0
  /\ Properties (addItems (addString NewItem "title" "Untitled") "name  name" NewItem)
       !! "title"
     = Some [VString "Untitled"].
Proof.
  split; [reflexivity |].
  destruct (value_added_once_per_occurrence NewItem "name  name" "Ann" NewItem "name")
    as (Hs & _ & _).
  split; [rewrite Hs; reflexivity |]. split; [reflexivity |].
  destruct (value_added_once_per_occurrence (addString NewItem "title" "Untitled")
              "name  name" "Ann" NewItem "title") as (_ & _ & H0).
  rewrite (proj2 (H0 eq_refl)). reflexivity.
Defined.

Lemma readItem_only_appends_witness :
  readItem (newParser docMeta exampleURL) 3 (addString NewItem "title" "Untitled") spanTitle
  = Some (addString (addString NewItem "title" "Untitled") "title" "The house I found.")
  /\ extends (addString NewItem "title" "Untitled")
             (addString (addString NewItem "title" "Untitled") "title" "The house I found.").
Proof.
  assert (H : readItem (newParser docMeta exampleURL) 3
                (addString NewItem "title" "Untitled") spanTitle
              = Some (addString (addString NewItem "title" "Untitled") "title"
                        "The house I found."))
    by (vm_compute; reflexivity).
  split; [exact H |].
  exact (proj1 (readItem_only_appends _ _ _ _ _ H)).
Defined.

Lemma result_names_witness :
  parse (newParser docBand exampleURL) 3 = Some (mkMicrodata [bandItem], None)
  /\ Forall (fun item => wellNamed item /\ Forall (fun ty => isToken ty = true) (Types item))
            [bandItem].
Proof.
  assert (H : parse (newParser docBand exampleURL) 3 = Some (mkMicrodata [bandItem], None))
    by (vm_compute; reflexivity).
  split; [exact H |].
  exact (result_names_are_tokens docBand exampleURL 3 _ _ H).
Defined.

Lemma nested_scope_names_witness :
  getAttr "itemprop" memberScope = Some "member"
  /\ getAttr "itemscope" memberScope = Some ""
  /\ readItem (scanned (newParser docBand exampleURL)) 3 NewItem memberScope
     = Some (addItems NewItem "member" memberValue)
  /\ Properties (addItems NewItem "member" memberValue) !! "name" = None.
Proof.
  assert (H : readItem (scanned (newParser docBand exampleURL)) 3 NewItem memberScope
              = Some (addItems NewItem "member" memberValue))
    by (vm_compute; reflexivity).
  split; [reflexivity | split; [reflexivity | split; [exact H |]]].
  rewrite (proj1 (nested_scope_adds_under_its_names_only
                    _ _ _ _ memberScope "member" "" eq_refl eq_refl H) "name" eq_refl).
  reflexivity.
Defined.

Lemma toplevel_types_and_ids_witness :
  parse (newParser docComment exampleURL) 3
  = Some (mkMicrodata [postItem; commentItem], None)
  /\ Forall2 (fun node item =>
                Types item = from_option tokens [] (getAttr "itemtype" node)
                /\ Id item = default "" (getAttr "itemid" node ≫= Resolve exampleURL))
             (List.filter typedScope (preorder docComment)) [postItem; commentItem].
Proof.
  assert (H : parse (newParser docComment exampleURL) 3
              = Some (mkMicrodata [postItem; commentItem], None))
    by (vm_compute; reflexivity).
  split; [exact H |].
  exact (toplevel_items_types_and_ids docComment exampleURL 3 _ _ H).
Defined.

Lemma ParseHTML_witness :
  ParseHTML exampleWorld "doc" "utf-8" exampleURL 3
  = Some (Some (mkMicrodata [postItem; commentItem]), None)
  /\ ParseHTML exampleWorld "doc" "latin-9" exampleURL 3
     = Some (None, Some "unsupported charset")
  /\ parse (newParser docComment exampleURL) 3
     = Some (mkMicrodata [postItem; commentItem], None).
Proof.
  assert (H : ParseHTML exampleWorld "doc" "utf-8" exampleURL 3
              = Some (Some (mkMicrodata [postItem; commentItem]), None))
    by (vm_compute; reflexivity).
  split; [exact H | split; [vm_compute; reflexivity |]].
  destruct (ParseHTML_errors_are_upstream exampleWorld "doc" "utf-8" exampleURL 3 _ _ H)
    as (_ & d & [= <-] & Hd).
  exact Hd.
Defined.

Lemma ParseURL_witness :
  ParseURL exampleWorld "http://example.com" 3
  = Some (Some (mkMicrodata [postItem; commentItem]), None)
  /\ ParseHTML exampleWorld "doc" "utf-8" exampleURL 3
     = Some (Some (mkMicrodata [postItem; commentItem]), None).
Proof.
  assert (H : ParseURL exampleWorld "http://example.com" 3
              = Some (Some (mkMicrodata [postItem; commentItem]), None))
    by (vm_compute; reflexivity).
  split; [exact H |].
  exact (proj2 (ParseURL_result_or_error exampleWorld "http://example.com" 3 _ _ H)).
Defined.

(** * The first revision *)

Lemma rev1_f_eq (u : URL) (n : Node) (item : Rev1.ptr) (st : Rev1.state) :
  Rev1.f u n item st
  = match Type_ n with
    | ElementNode =>
        match Rev1.readAttrs u Rev1.noAttrs (Attr n) with
        | Panicked => Panicked
        | Returned a =>
            if Rev1.itemscope a && negb (Nat.eqb (length (Rev1.itemtype a)) 0) then
              let (i, st) := Rev1.NewItem st in
              let st := fold_left (fun st v => Rev1.addType st i v) (Rev1.itemtype a) st in
              let st := Rev1.place a item i st in
              Rev1.fs u (Children n) i st
            else if negb (Nat.eqb (length (Rev1.itemprop a)) 0) then
              let st := Rev1.addProperties n item (Rev1.itemprop a) (Rev1.value a) st in
              Rev1.fs u (Children n) item st
            else Rev1.fs u (Children n) item st
        end
    | _ => Rev1.fs u (Children n) item st
    end.
Proof. destruct n. reflexivity. Qed.

Lemma rev1_readAttr_panics (u : URL) (a : Rev1.attrs) (attr : Attribute) :
  (Rev1.badAttr u attr = true /\ Rev1.readAttr u a attr = Panicked)
  \/ (Rev1.badAttr u attr = false /\ exists a', Rev1.readAttr u a attr = Returned a').
Proof.
  unfold Rev1.badAttr, Rev1.readAttr.
  destruct (String.eqb_spec (Key attr) "itemscope") as [E | _];
    [rewrite E; right; split; [reflexivity | eauto] |].
  destruct (String.eqb_spec (Key attr) "itemtype") as [E | _];
    [rewrite E; right; split; [reflexivity | eauto] |].
  destruct (String.eqb_spec (Key attr) "itemprop") as [E | _];
    [rewrite E; right; split; [reflexivity | eauto] |].
  destruct (String.eqb (Key attr) "src" || String.eqb (Key attr) "href") eqn:E.
  - destruct (Resolve u (Val attr)); [right | left]; split; eauto.
  - right. split; [reflexivity |].
    repeat match goal with |- context [if ?b then _ else _] => destruct b end; eauto.
Qed.

Lemma rev1_readAttrs_panics (u : URL) (l : list Attribute) :
  forall a,
    (existsb (Rev1.badAttr u) l = true /\ Rev1.readAttrs u a l = Panicked)
    \/ (existsb (Rev1.badAttr u) l = false /\ exists a', Rev1.readAttrs u a l = Returned a').
Proof.
  induction l as [|attr l IH]; intros a; simpl; [right; eauto |].
  destruct (rev1_readAttr_panics u a attr) as [[-> ->] | [-> [a' ->]]]; [now left |].
  apply IH.
Qed.

(** The loop over the children, when no child returns an error. *)
Lemma rev1_fs_panics (u : URL) (cs : list Node) :
  Forall (fun c => forall item st,
              (exists m, m ∈ preorder c /\ Rev1.badRef u m = true)
              /\ Rev1.f u c item st = Panicked
              \/ Forall (fun m => Rev1.badRef u m = false) (preorder c)
                 /\ exists st', Rev1.f u c item st = Returned (st', None)) cs ->
  forall item st,
    (exists c m, c ∈ cs /\ m ∈ preorder c /\ Rev1.badRef u m = true)
    /\ Rev1.fs u cs item st = Panicked
    \/ Forall (fun c => Forall (fun m => Rev1.badRef u m = false) (preorder c)) cs
       /\ exists st', Rev1.fs u cs item st = Returned (st', None).
Proof.
  induction 1 as [|c cs Hc _ IH]; intros item st; simpl; [right; eauto |].
  destruct (Hc item st) as [[(m & Hm & Hbad) ->] | [Hgood (st1 & ->)]].
  - left. split; [| reflexivity]. exists c, m. split; [left | now split].
  - destruct (IH item st1) as [[(c' & m & Hc' & Hm & Hbad) ->] | [Hcs (st' & ->)]].
    + left. split; [| reflexivity]. exists c', m. split; [now right | now split].
    + right. split; [now constructor | eauto].
Qed.

Lemma rev1_f_panics_or_returns (u : URL) (n : Node) :
  forall item st,
    (exists m, m ∈ preorder n /\ Rev1.badRef u m = true)
    /\ Rev1.f u n item st = Panicked
    \/ Forall (fun m => Rev1.badRef u m = false) (preorder n)
       /\ exists st', Rev1.f u n item st = Returned (st', None).
Proof.
  induction n as [ty a d attrs cs IH] using Node_forall_ind. intros item st.
  set (n := mkNode ty a d attrs cs) in *.
  assert (Hcs : forall item st,
             (exists m, m ∈ descendants n /\ Rev1.badRef u m = true)
             /\ Rev1.fs u cs item st = Panicked
             \/ Forall (fun m => Rev1.badRef u m = false) (descendants n)
                /\ exists st', Rev1.fs u cs item st = Returned (st', None)).
  { intros item' st'.
    destruct (rev1_fs_panics u cs IH item' st')
      as [[(c & m & Hc & Hm & Hbad) ->] | [Hgood Hret]].
    - left. split; [| reflexivity]. exists m. split; [| exact Hbad].
      unfold descendants. apply list_elem_of_In, in_flat_map. exists c.
      split; now apply list_elem_of_In.
    - right. split; [| exact Hret]. unfold descendants. cbn [Children n].
      clear -Hgood. induction Hgood as [|c cs Hc _ IHc]; simpl; [constructor |].
      apply Forall_app. now split. }
  assert (Hself : Rev1.badRef u n = false ->
                  forall item st,
                    (exists i st', Rev1.f u n item st = Rev1.fs u cs i st')).
  { intros Hn item' st'. rewrite rev1_f_eq. cbn [Type_ Attr Children n].
    unfold Rev1.badRef in Hn. cbn [Type_ Attr n] in Hn.
    destruct ty; eauto.
    destruct (rev1_readAttrs_panics u attrs Rev1.noAttrs) as [[Hb _] | [_ [a' ->]]];
      [congruence |].
    match goal with |- context [if ?b then _ else _] => destruct b end;
      [destruct (Rev1.NewItem st'); eauto |].
    match goal with |- context [if ?b then _ else _] => destruct b end; eauto. }
  rewrite preorder_eq.
  destruct (Rev1.badRef u n) eqn:Hn.
  - left. split; [exists n; split; [left | exact Hn] |].
    rewrite rev1_f_eq. unfold Rev1.badRef in Hn. cbn [Type_ Attr n] in *.
    destruct ty; try discriminate.
    destruct (rev1_readAttrs_panics u attrs Rev1.noAttrs) as [[_ ->] | [Hb _]];
      [reflexivity | congruence].
  - destruct (Hself eq_refl item st) as (i0 & st0 & ->).
    destruct (Hcs i0 st0) as [[(m & Hm & Hbad) ->] | [Hgood Hret]].
    + left. split; [| reflexivity]. exists m. split; [now right | exact Hbad].
    + right. split; [now constructor | exact Hret].
Qed.

(** X13: the closure [f] of the first [Parse] panics exactly when some
    element of the subtree has a [src] or [href] attribute that does
    not resolve against the base, whether or not the element is a
    property; in every other case it returns with a nil error. *)
Theorem rev1_f_panics_exactly_on_unresolved_reference
    (u : URL) (n : Node) (item : Rev1.ptr) (st : Rev1.state) :
  (Rev1.f u n item st = Panicked <->
   exists m, m ∈ preorder n /\ Rev1.badRef u m = true)
  /\ (Rev1.f u n item st <> Panicked ->
      exists st', Rev1.f u n item st = Returned (st', None)).
Proof.
  destruct (rev1_f_panics_or_returns u n item st)
    as [[Hbad Hp] | [Hgood (st' & Hr)]].
  - split; [tauto | congruence].
  - split; [| eauto]. rewrite Hr. split; [discriminate |].
    intros (m & Hm & Hbad). rewrite list.Forall_forall in Hgood.
    rewrite (Hgood m Hm) in Hbad. discriminate.
Qed.

(** ** The attributes the loop reads *)

Lemma Split_not_nil (s : string) (sep : ascii) : Split s sep <> [].
Proof.
  destruct s as [|c s]; simpl; [discriminate |].
  destruct (Ascii.eqb c sep); [discriminate |]. now destruct (Split s sep).
Qed.

Lemma rev1_readAttr_fields (u : URL) (a a' : Rev1.attrs) (attr : Attribute) :
  Rev1.readAttr u a attr = Returned a' ->
  Rev1.itemscope a' = Rev1.itemscope a || String.eqb (Key attr) "itemscope"
  /\ Rev1.itemtype a' = (if String.eqb (Key attr) "itemtype"
                         then Split (Val attr) " " else Rev1.itemtype a)
  /\ Rev1.itemprop a' = (if String.eqb (Key attr) "itemprop"
                         then Split (Val attr) " " else Rev1.itemprop a)
  /\ Rev1.itemid a' = (if String.eqb (Key attr) "itemid" then Val attr else Rev1.itemid a).
Proof.
  unfold Rev1.readAttr.
  destruct (String.eqb_spec (Key attr) "itemscope") as [E | _];
    [rewrite E; intros [= <-]; cbn; now rewrite orb_true_r |].
  destruct (String.eqb_spec (Key attr) "itemtype") as [E | _];
    [rewrite E; intros [= <-]; cbn; now rewrite orb_false_r |].
  destruct (String.eqb_spec (Key attr) "itemprop") as [E | _];
    [rewrite E; intros [= <-]; cbn; now rewrite orb_false_r |].
  destruct (String.eqb_spec (Key attr) "src") as [E | _];
    [rewrite E; cbn; destruct (Resolve u (Val attr)); [| discriminate];
     intros [= <-]; cbn; now rewrite orb_false_r |].
  destruct (String.eqb_spec (Key attr) "href") as [E | _];
    [rewrite E; cbn; destruct (Resolve u (Val attr)); [| discriminate];
     intros [= <-]; cbn; now rewrite orb_false_r |].
  destruct (String.eqb_spec (Key attr) "content") as [E | _];
    [rewrite E; intros [= <-]; cbn; now rewrite orb_false_r |].
  destruct (String.eqb_spec (Key attr) "data") as [E | _];
    [rewrite E; intros [= <-]; cbn; now rewrite orb_false_r |].
  destruct (String.eqb_spec (Key attr) "datetime") as [E | _];
    [rewrite E; intros [= <-]; cbn; now rewrite orb_false_r |].
  cbn. destruct (String.eqb (Key attr) "itemid"); intros [= <-]; cbn;
    now rewrite orb_false_r.
Qed.

Lemma rev1_lastAttr_None (key : string) (l : list Attribute) :
  Rev1.lastAttr key l = None <->
  existsb (fun attr => String.eqb (Key attr) key) l = false.
Proof.
  induction l as [|attr l IH]; simpl; [tauto |].
  destruct (Rev1.lastAttr key l); destruct (String.eqb (Key attr) key); simpl;
    intuition congruence.
Qed.

Lemma rev1_readAttrs_fields (u : URL) (l : list Attribute) :
  forall a a',
    Rev1.readAttrs u a l = Returned a' ->
    Rev1.itemscope a'
    = Rev1.itemscope a || existsb (fun attr => String.eqb (Key attr) "itemscope") l
    /\ Rev1.itemtype a' = match Rev1.lastAttr "itemtype" l with
                          | Some v => Split v " "
                          | None => Rev1.itemtype a
                          end
    /\ Rev1.itemprop a' = match Rev1.lastAttr "itemprop" l with
                          | Some v => Split v " "
                          | None => Rev1.itemprop a
                          end
    /\ Rev1.itemid a' = match Rev1.lastAttr "itemid" l with
                        | Some v => v
                        | None => Rev1.itemid a
                        end.
Proof.
  induction l as [|attr l IH]; intros a a' H; simpl in H.
  - injection H as <-. simpl. now rewrite orb_false_r.
  - destruct (Rev1.readAttr u a attr) as [a1|] eqn:E; [| discriminate].
    apply rev1_readAttr_fields in E as (E1 & E2 & E3 & E4).
    apply IH in H as (H1 & H2 & H3 & H4). simpl.
    rewrite H1, H2, H3, H4, E1, E2, E3, E4.
    repeat split.
    + now rewrite orb_assoc.
    + destruct (Rev1.lastAttr "itemtype" l); [reflexivity |].
      now destruct (String.eqb (Key attr) "itemtype").
    + destruct (Rev1.lastAttr "itemprop" l); [reflexivity |].
      now destruct (String.eqb (Key attr) "itemprop").
    + destruct (Rev1.lastAttr "itemid" l); [reflexivity |].
      now destruct (String.eqb (Key attr) "itemid").
Qed.

(** What the test and the switch of [f] see of an element. *)
Lemma rev1_attrs_of_node (u : URL) (n : Node) (a : Rev1.attrs) :
  Type_ n = ElementNode ->
  Rev1.readAttrs u Rev1.noAttrs (Attr n) = Returned a ->
  Rev1.itemscope a && negb (Nat.eqb (length (Rev1.itemtype a)) 0) = Rev1.isScope n
  /\ Rev1.itemtype a = Rev1.typesOf n
  /\ Rev1.itemid a = Rev1.idOf n
  /\ Rev1.itemprop a = Rev1.propsOf n
  /\ (Rev1.itemprop a = [] <-> Rev1.hasKey "itemprop" n = false).
Proof.
  intros Hty H. apply rev1_readAttrs_fields in H as (H1 & H2 & H3 & H4).
  cbn in H1, H2, H3, H4. unfold Rev1.isScope, Rev1.typesOf, Rev1.idOf, Rev1.propsOf.
  rewrite Hty, H1, H2, H3, H4. unfold Rev1.hasKey.
  repeat split.
  - f_equal. destruct (Rev1.lastAttr "itemtype" (Attr n)) as [v|] eqn:E.
    + assert (existsb (fun attr => String.eqb (Key attr) "itemtype") (Attr n) = true) as ->.
      { destruct (existsb (fun attr => String.eqb (Key attr) "itemtype") (Attr n)) eqn:E';
          [reflexivity |].
        apply rev1_lastAttr_None in E'. congruence. }
      pose proof (Split_not_nil v " "). now destruct (Split v " ").
    + apply rev1_lastAttr_None in E. now rewrite E.
  - destruct (Rev1.lastAttr "itemprop" (Attr n)) as [v|] eqn:E.
    + intros Hs. now apply Split_not_nil in Hs.
    + intros _. now apply rev1_lastAttr_None.
  - intros Hk. apply rev1_lastAttr_None in Hk. now rewrite Hk.
Qed.

(** ** The store *)

Lemma alter_alter {A : Type} (g h : A -> A) (i : nat) (l : list A) :
  alter h i (alter g i l) = alter (fun x => h (g x)) i l.
Proof.
  revert i. induction l as [|x l IH]; intros [|i]; simpl; [reflexivity.. |].
  f_equal. apply IH.
Qed.

Lemma rev1_modify_fold {K : Type} (h : K -> Rev1.Item -> Rev1.Item) (i : Rev1.ptr)
    (keys : list K) :
  forall st,
    fold_left (fun st k => Rev1.modify st i (h k)) keys st
    = Rev1.modify st i (fun it => fold_left (fun it k => h k it) keys it).
Proof.
  induction keys as [|k keys IH]; intros [s its]; simpl.
  - unfold Rev1.modify. cbn. now rewrite list_alter_id.
  - rewrite IH. unfold Rev1.modify. cbn. now rewrite alter_alter.
Qed.

(** The loop over the keys of a property adds one value for all keys:
    the value an attribute gave, or else the text of the element. *)
Lemma rev1_addProperties_eq (n : Node) (item : Rev1.ptr) (keys : list string)
    (value : string) (st : Rev1.state) :
  Rev1.addProperties n item keys value st
  = Rev1.modify st item
      (fun it => Rev1.appendValues it keys
                   (Rev1.VString (if nonempty value then value else Rev1.text n ""))).
Proof.
  unfold Rev1.addProperties, Rev1.appendValues.
  rewrite <- (rev1_modify_fold
                (fun key it => Rev1.appendValue it key
                                 (Rev1.VString (if nonempty value then value
                                                else Rev1.text n ""))) item keys st).
  revert value st. induction keys as [|key keys IH]; intros value st; [reflexivity |].
  cbn [fold_left]. unfold Rev1.addString at 2.
  set (v := if nonempty value then value else Rev1.text n "").
  assert (Hv : (if nonempty value then value
                else if nonempty (Rev1.text n "") then Rev1.text n "" else value) = v).
  { unfold v. destruct value; cbn; [| reflexivity]. now destruct (Rev1.text n ""). }
  rewrite Hv, IH. unfold Rev1.addString.
  assert (Hvv : (if nonempty v then v else Rev1.text n "") = v).
  { unfold v. destruct value; cbn; [| reflexivity]. now destruct (Rev1.text n ""). }
  now rewrite Hvv.
Qed.

Lemma rev1_appendValues_fields (keys : list string) (v : Rev1.Value) :
  forall it,
    Rev1.Types (Rev1.appendValues it keys v) = Rev1.Types it
    /\ Rev1.Id (Rev1.appendValues it keys v) = Rev1.Id it.
Proof.
  unfold Rev1.appendValues.
  induction keys as [|k keys IH]; intros it; simpl; [now split |].
  destruct (IH (Rev1.appendValue it k v)) as [-> ->]. now split.
Qed.

(** The state after a new item is made and placed. *)
Lemma rev1_scope_step (a : Rev1.attrs) (item : Rev1.ptr) (st : Rev1.state) :
  item < length (Rev1.store st) ->
  let i := length (Rev1.store st) in
  let top := nonempty (Rev1.itemid a)
             || match Rev1.itemprop a with [] => true | _ :: _ => false end in
  Rev1.place a item i
    (fold_left (fun st v => Rev1.addType st i v) (Rev1.itemtype a) (snd (Rev1.NewItem st)))
  = Rev1.mkState
      (alter (fun it => if top then it
                        else Rev1.appendValues it (Rev1.itemprop a) (Rev1.VItem i))
             item (Rev1.store st)
       ++ [Rev1.mkItem (Rev1.itemtype a) ∅ (Rev1.itemid a)])%list
      (Rev1.Items st ++ if top then [i] else [])%list.
Proof.
  intros Hitem i top.
  assert (Htypes : fold_left (fun st v => Rev1.addType st i v) (Rev1.itemtype a)
                             (snd (Rev1.NewItem st))
                   = Rev1.mkState (Rev1.store st ++ [Rev1.mkItem (Rev1.itemtype a) ∅ ""])%list
                                  (Rev1.Items st)).
  { unfold Rev1.addType.
    rewrite (rev1_modify_fold
               (fun v it => Rev1.mkItem (Rev1.Types it ++ [v])%list
                                        (Rev1.Properties it) (Rev1.Id it))).
    unfold Rev1.modify, Rev1.NewItem. cbn [snd Rev1.store Rev1.Items]. f_equal.
    replace i with (length (Rev1.store st) + 0) by lia.
    rewrite alter_app_r. cbn [alter list_alter]. do 2 f_equal.
    assert (Hl : forall l it,
               fold_left (fun it v => Rev1.mkItem (Rev1.Types it ++ [v])%list
                                                  (Rev1.Properties it) (Rev1.Id it)) l it
               = Rev1.mkItem (Rev1.Types it ++ l)%list (Rev1.Properties it) (Rev1.Id it)).
    { induction l as [|v l IH]; intros [ts ps id]; simpl; [now rewrite app_nil_r |].
      rewrite IH. cbn. now rewrite <- app_assoc. }
    apply Hl. }
  rewrite Htypes. unfold Rev1.place, top. clear top.
  destruct (nonempty (Rev1.itemid a)) eqn:Hid; cbn [orb].
  - rewrite (list_alter_id _ (Rev1.store st) item) by reflexivity.
    unfold Rev1.Microdata_addItem, Rev1.setId, Rev1.modify.
    cbn [Rev1.store Rev1.Items]. f_equal.
    replace i with (length (Rev1.store st) + 0) by lia.
    now rewrite alter_app_r.
  - destruct (Rev1.itemprop a) as [|k ks] eqn:Hp.
    + rewrite (list_alter_id _ (Rev1.store st) item) by reflexivity.
      unfold Rev1.Microdata_addItem. cbn [Rev1.store Rev1.Items]. do 3 f_equal.
      destruct (Rev1.itemid a); [reflexivity | discriminate].
    + unfold Rev1.addItem.
      rewrite (rev1_modify_fold (fun key it => Rev1.appendValue it key (Rev1.VItem i))).
      unfold Rev1.modify. cbn [Rev1.store Rev1.Items]. rewrite app_nil_r. f_equal.
      rewrite alter_app_l by exact Hitem.
      destruct (Rev1.itemid a); [reflexivity | discriminate].
Qed.

Lemma rev1_tops_app (ss1 ss2 : list Node) :
  forall b,
    Rev1.tops b (ss1 ++ ss2)
    = (Rev1.tops b ss1 ++ Rev1.tops (b + length ss1) ss2)%list.
Proof.
  induction ss1 as [|m ss1 IH]; intros b; simpl.
  - now rewrite Nat.add_0_r.
  - rewrite IH, <- app_assoc. do 3 f_equal. lia.
Qed.

Lemma rev1_grown_refl (item : Rev1.ptr) (st : Rev1.state) : Rev1.grown item [] st st.
Proof.
  unfold Rev1.grown. simpl. rewrite Nat.add_0_r, app_nil_r.
  repeat split; intros; discriminate.
Qed.

Lemma rev1_grown_trans (item : Rev1.ptr) (ss1 ss2 : list Node) (st st1 st2 : Rev1.state) :
  Rev1.grown item ss1 st st1 -> Rev1.grown item ss2 st1 st2 ->
  Rev1.grown item (ss1 ++ ss2) st st2.
Proof.
  intros (L1 & I1 & C1 & F1) (L2 & I2 & C2 & F2). unfold Rev1.grown.
  rewrite length_app. split; [lia |].
  split; [rewrite I2, I1, L1, rev1_tops_app, app_assoc; reflexivity |].
  split.
  - intros k m Hk. apply lookup_app_Some in Hk as [Hk | [Hle Hk]].
    + pose proof (lookup_lt_Some _ _ _ Hk) as Hlt.
      destruct (F2 (length (Rev1.store st) + k)) as [-> _]; [lia |]. now apply C1.
    + rewrite <- (C2 _ _ Hk). f_equal. lia.
  - intros q Hq. destruct (F1 q Hq) as [T1 E1], (F2 q) as [T2 E2]; [lia |].
    split; [congruence |]. intros Hne. rewrite E2, E1 by exact Hne. reflexivity.
Qed.

Lemma rev1_typesAndId_alter (g : Rev1.Item -> Rev1.Item) (i q : Rev1.ptr)
    (s : list Rev1.Item) :
  (forall it, Rev1.Types (g it) = Rev1.Types it /\ Rev1.Id (g it) = Rev1.Id it) ->
  (fun it => (Rev1.Types it, Rev1.Id it)) <$> alter g i s !! q
  = (fun it => (Rev1.Types it, Rev1.Id it)) <$> s !! q.
Proof.
  intros Hg. destruct (decide (i = q)) as [-> | Hne];
    [rewrite list_lookup_alter_eq | now rewrite list_lookup_alter_ne].
  destruct (s !! q) as [it|]; [| reflexivity].
  cbn. now destruct (Hg it) as [-> ->].
Qed.

Lemma rev1_grown_modify (item : Rev1.ptr) (g : Rev1.Item -> Rev1.Item) (ss : list Node)
    (st st' : Rev1.state) :
  (forall it, Rev1.Types (g it) = Rev1.Types it /\ Rev1.Id (g it) = Rev1.Id it) ->
  Rev1.grown item ss (Rev1.modify st item g) st' -> Rev1.grown item ss st st'.
Proof.
  intros Hg (L & I & C & F). unfold Rev1.grown, Rev1.modify in *.
  cbn [Rev1.store Rev1.Items] in *. rewrite length_alter in *.
  repeat split; try assumption.
  - destruct (F q H) as [-> _]. unfold Rev1.typesAndId. cbn [Rev1.store].
    now apply rev1_typesAndId_alter.
  - intros Hne. destruct (F q H) as [_ E]. rewrite (E Hne).
    now rewrite list_lookup_alter_ne by congruence.
Qed.

Lemma filter_flat_map {A B : Type} (f : B -> bool) (g : A -> list B) (l : list A) :
  List.filter f (flat_map g l) = flat_map (fun x => List.filter f (g x)) l.
Proof.
  induction l as [|x l IH]; simpl; [reflexivity |].
  now rewrite List.filter_app, IH.
Qed.

Lemma rev1_scopes_eq (n : Node) :
  Rev1.scopes n
  = ((if Rev1.isScope n then [n] else []) ++ flat_map Rev1.scopes (Children n))%list.
Proof.
  unfold Rev1.scopes at 1. rewrite preorder_eq. unfold descendants. simpl.
  rewrite filter_flat_map. now destruct (Rev1.isScope n).
Qed.

(** The loop over the children, given the invariant for each child. *)
Lemma rev1_fs_grown (u : URL) (cs : list Node) :
  Forall (fun c => forall item st st',
              Rev1.f u c item st = Returned (st', None) ->
              item < length (Rev1.store st) ->
              Rev1.grown item (Rev1.scopes c) st st') cs ->
  forall item st st',
    Rev1.fs u cs item st = Returned (st', None) ->
    item < length (Rev1.store st) ->
    Rev1.grown item (flat_map Rev1.scopes cs) st st'.
Proof.
  induction 1 as [|c cs Hc _ IH]; intros item st st' H Hitem; simpl in *.
  - injection H as <-. apply rev1_grown_refl.
  - destruct (Rev1.f u c item st) as [[st1 [err|]]|] eqn:E; try discriminate.
    pose proof (Hc _ _ _ E Hitem) as G1.
    apply (rev1_grown_trans item _ _ st st1 st'); [exact G1 |].
    apply IH; [exact H |]. destruct G1 as (L & _). lia.
Qed.

(** What a run of [f] that returns has done to the store and the list
    of top-level items. *)
Lemma rev1_f_grown (u : URL) (n : Node) :
  forall item st st',
    Rev1.f u n item st = Returned (st', None) ->
    item < length (Rev1.store st) ->
    Rev1.grown item (Rev1.scopes n) st st'.
Proof.
  induction n as [ty a d attrs cs IH] using Node_forall_ind. intros item st st' H Hitem.
  set (n := mkNode ty a d attrs cs) in *.
  pose proof (rev1_fs_grown u cs IH) as Hcs.
  rewrite rev1_scopes_eq. change (Children n) with cs.
  rewrite rev1_f_eq in H. change (Children n) with cs in H.
  destruct (Type_ n) eqn:Hty;
    try (unfold Rev1.isScope; rewrite Hty; now apply Hcs).
  destruct (Rev1.readAttrs u Rev1.noAttrs (Attr n)) as [at_|] eqn:Ha; [| discriminate].
  destruct (rev1_attrs_of_node u n at_ Hty Ha) as (Hs & Ht & Hi & Hp & Hp0).
  rewrite Hs in H. destruct (Rev1.isScope n) eqn:Hscope.
  - destruct (Rev1.NewItem st) as [i st1] eqn:Hnew.
    assert (Hi' : i = length (Rev1.store st)) by (unfold Rev1.NewItem in Hnew; congruence).
    assert (Hst1 : st1 = snd (Rev1.NewItem st)) by now rewrite Hnew.
    cbn zeta in H. subst i st1. rewrite (rev1_scope_step at_ item st Hitem) in H.
    cbn zeta in H.
    set (top := nonempty (Rev1.itemid at_)
                || match Rev1.itemprop at_ with [] => true | _ :: _ => false end) in *.
    assert (Htop : top = Rev1.isTop n).
    { unfold top, Rev1.isTop. rewrite Hi. f_equal.
      destruct (Rev1.itemprop at_) as [|k ks] eqn:E.
      - now rewrite (proj1 Hp0 eq_refl).
      - destruct (Rev1.hasKey "itemprop" n) eqn:E'; [reflexivity |].
        destruct Hp0 as [_ Hp0]. now specialize (Hp0 eq_refl). }
    match type of H with Rev1.fs u cs _ ?s = _ => set (st3 := s) in * end.
    assert (Hlen3 : length (Rev1.store st3) = S (length (Rev1.store st))).
    { unfold st3. cbn [Rev1.store]. rewrite length_app, length_alter. simpl. lia. }
    apply Hcs in H as (L & I & C & F); [| lia].
    unfold Rev1.grown. cbn [length app]. rewrite Hlen3 in *.
    split; [lia |].
    split.
    { rewrite I. unfold st3 at 1. cbn [Rev1.Items Rev1.tops].
      rewrite <- Htop, <- app_assoc. reflexivity. }
    split.
    { intros [|k] m Hk; cbn in Hk.
      - injection Hk as <-. rewrite Nat.add_0_r.
        destruct (F (length (Rev1.store st))) as [-> _]; [lia |].
        unfold Rev1.typesAndId, st3. cbn [Rev1.store].
        rewrite lookup_app_r by (rewrite length_alter; lia).
        rewrite length_alter, Nat.sub_diag. cbn. now rewrite Ht, Hi.
      - rewrite <- (C k m Hk). f_equal. lia. }
    intros q Hq. destruct (F q) as [T E]; [lia |].
    assert (Hq3 : Rev1.store st3 !! q
                  = alter (fun it => if top then it
                                     else Rev1.appendValues it (Rev1.itemprop at_)
                                            (Rev1.VItem (length (Rev1.store st))))
                          item (Rev1.store st) !! q).
    { unfold st3. cbn [Rev1.store]. apply lookup_app_l. now rewrite length_alter. }
    split.
    + rewrite T. unfold Rev1.typesAndId. rewrite Hq3.
      apply rev1_typesAndId_alter. intros it. destruct top; [now split |].
      apply rev1_appendValues_fields.
    + intros Hne. rewrite E by lia. rewrite Hq3.
      now rewrite list_lookup_alter_ne by congruence.
  - cbn [app]. destruct (negb (Nat.eqb (length (Rev1.itemprop at_)) 0)).
    + rewrite rev1_addProperties_eq in H. cbn zeta in H.
      eapply rev1_grown_modify; [| apply Hcs; [exact H |]].
      * intros it. apply rev1_appendValues_fields.
      * unfold Rev1.modify. cbn. now rewrite length_alter.
    + now apply Hcs.
Qed.

Lemma rev1_tops_cells (st' : Rev1.state) (ss : list Node) :
  forall b,
    (forall k m, ss !! k = Some m ->
                 Rev1.typesAndId st' (b + k) = Some (Rev1.typesOf m, Rev1.idOf m)) ->
    map (Rev1.typesAndId st') (Rev1.tops b ss)
    = map (fun m => Some (Rev1.typesOf m, Rev1.idOf m)) (List.filter Rev1.isTop ss).
Proof.
  induction ss as [|m ss IH]; intros b H; simpl; [reflexivity |].
  assert (IH' : map (Rev1.typesAndId st') (Rev1.tops (S b) ss)
                = map (fun m => Some (Rev1.typesOf m, Rev1.idOf m))
                      (List.filter Rev1.isTop ss)).
  { apply IH. intros k m' Hk. rewrite <- (H (S k) m' Hk). f_equal. lia. }
  destruct (Rev1.isTop m); simpl; rewrite IH'; [| reflexivity].
  f_equal. rewrite <- (H 0 m eq_refl). f_equal. lia.
Qed.

Lemma rev1_f_returns_nil (u : URL) (n : Node) (item : nat) (st st' : Rev1.state)
    (e : error) :
  Rev1.f u n item st = Returned (st', e) -> e = None.
Proof.
  intros H. destruct (rev1_f_panics_or_returns u n item st) as [[_ Hp] | [_ [st1 Hr]]];
    congruence.
Qed.

(** X14: when the first [Parse] returns a nil error, the decoding
    succeeded, and the items of the result are those of the elements
    with [itemscope] and [itemtype] that have a non-empty [itemid] or
    no [itemprop], in document order; the types of each are the pieces
    of its [itemtype], empty pieces included, and its id is its
    [itemid] as written.  An error is the error of the decoding and
    comes with no items. *)
Theorem rev1_Parse_items
    (w : World) (r : Reader w) (baseURL contentType : string)
    (st' : Rev1.state) (e : error) :
  Rev1.Parse w r baseURL contentType = Returned (st', e) ->
  match charset_NewReader w r contentType with
  | inr err => e = Some err /\ Rev1.Items st' = []
  | inl r' =>
      match html_Parse w r' with
      | inr err => e = Some err /\ Rev1.Items st' = []
      | inl doc =>
          e = None
          /\ length (Rev1.store st') = 1 + length (Rev1.scopes doc)
          /\ map (Rev1.typesAndId st') (Rev1.Items st')
             = map (fun m => Some (Rev1.typesOf m, Rev1.idOf m))
                   (List.filter Rev1.isTop (Rev1.scopes doc))
      end
  end.
Proof.
  unfold Rev1.Parse.
  destruct (charset_NewReader w r contentType) as [r'|err]; [| now intros [= <- <-]].
  destruct (html_Parse w r') as [doc|err]; [| now intros [= <- <-]].
  cbn [Rev1.NewItem Rev1.store Rev1.Items length].
  match goal with |- context [Rev1.f ?u doc 0 ?s] =>
    set (base := u); set (st0 := s) end.
  destruct (Rev1.f base doc 0 st0) as [[st1 e1]|] eqn:E; [| discriminate].
  pose proof (rev1_f_returns_nil _ _ _ _ _ _ E) as ->. intros [= <- <-].
  apply rev1_f_grown in E as (L & I & C & _); [| cbn; lia].
  split; [reflexivity |]. split; [exact L |].
  rewrite I. cbn [Rev1.Items st0 app]. now apply rev1_tops_cells.
Qed.

(** X15: in the first revision an element with [itemscope] and
    [itemtype] owns its subtree.  The item that was current gets, at
    most, the new item under each piece of the element's [itemprop]
    (and nothing when the new item is a top-level one); no property of
    the subtree reaches it.  The new item has the types and the id of
    the element. *)
Theorem rev1_scope_owns_its_subtree
    (u : URL) (n : Node) (item : nat) (st st' : Rev1.state) (e : error) (it : Rev1.Item) :
  Rev1.isScope n = true ->
  Rev1.store st !! item = Some it ->
  Rev1.f u n item st = Returned (st', e) ->
  Rev1.store st' !! item
  = Some (if Rev1.isTop n then it
          else Rev1.appendValues it (Rev1.propsOf n) (Rev1.VItem (length (Rev1.store st))))
  /\ Rev1.typesAndId st' (length (Rev1.store st)) = Some (Rev1.typesOf n, Rev1.idOf n).
Proof.
  intros Hscope Hit H. pose proof (rev1_f_returns_nil _ _ _ _ _ _ H) as ->.
  pose proof (lookup_lt_Some _ _ _ Hit) as Hitem.
  split.
  - rewrite rev1_f_eq in H. unfold Rev1.isScope in Hscope.
    destruct (Type_ n) eqn:Hty; try discriminate.
    destruct (Rev1.readAttrs u Rev1.noAttrs (Attr n)) as [a|] eqn:Ha; [| discriminate].
    destruct (rev1_attrs_of_node u n a Hty Ha) as (Hs & Ht & Hi & Hp & Hp0).
    unfold Rev1.isScope in Hs. rewrite Hty, Hscope in Hs. rewrite Hs in H.
    destruct (Rev1.NewItem st) as [i st1] eqn:Hnew.
    assert (Hi' : i = length (Rev1.store st)) by (unfold Rev1.NewItem in Hnew; congruence).
    assert (Hst1 : st1 = snd (Rev1.NewItem st)) by now rewrite Hnew.
    cbn zeta in H. subst i st1. rewrite (rev1_scope_step a item st Hitem) in H.
    cbn zeta in H.
    assert (Htop : nonempty (Rev1.itemid a)
                   || match Rev1.itemprop a with [] => true | _ :: _ => false end
                   = Rev1.isTop n).
    { unfold Rev1.isTop. rewrite Hi. f_equal.
      destruct (Rev1.itemprop a) as [|k ks] eqn:E.
      - now rewrite (proj1 Hp0 eq_refl).
      - destruct (Rev1.hasKey "itemprop" n) eqn:E'; [reflexivity |].
        destruct Hp0 as [_ Hp0]. now specialize (Hp0 eq_refl). }
    rewrite Htop, Hp in H.
    apply (rev1_fs_grown u (Children n)) in H as (_ & _ & _ & F).
    + cbn [Rev1.store] in F. rewrite length_app, length_alter in F.
      destruct (F item ltac:(lia)) as [_ E]. rewrite E by lia.
      rewrite lookup_app_l by now rewrite length_alter.
      now rewrite list_lookup_alter_eq, Hit.
    + apply list.Forall_forall. intros c _. apply rev1_f_grown.
    + cbn [Rev1.store]. rewrite length_app, length_alter. simpl. lia.
  - apply rev1_f_grown in H as (_ & _ & C & _); [| exact Hitem].
    rewrite rev1_scopes_eq, Hscope in C.
    rewrite <- (C 0 n eq_refl). f_equal. lia.
Qed.

Lemma rev1_appendValues_lookup (v : Rev1.Value) (keys : list string) (k : string) :
  forall it,
    default [] (Rev1.Properties (Rev1.appendValues it keys v) !! k)
    = (default [] (Rev1.Properties it !! k)
       ++ replicate (count_occ string_dec keys k) v)%list.
Proof.
  unfold Rev1.appendValues.
  induction keys as [|k' keys IH]; intros it; simpl; [now rewrite app_nil_r |].
  rewrite IH. unfold Rev1.appendValue. cbn [Rev1.Properties].
  rewrite lookup_insert. destruct (string_dec k' k) as [-> | Hne].
  - rewrite decide_True by reflexivity. cbn. now rewrite <- app_assoc.
  - now rewrite decide_False by exact Hne.
Qed.

(** The value the attribute loop leaves. *)
Lemma rev1_readAttr_value (u : URL) (a a' : Rev1.attrs) (attr : Attribute) :
  Rev1.readAttr u a attr = Returned a' ->
  Rev1.value a' = if Rev1.isValueKey (Key attr) then Rev1.attrValue u attr else Rev1.value a.
Proof.
  unfold Rev1.readAttr, Rev1.isValueKey, Rev1.attrValue.
  destruct (String.eqb_spec (Key attr) "itemscope") as [E | _];
    [rewrite E; now intros [= <-] |].
  destruct (String.eqb_spec (Key attr) "itemtype") as [E | _];
    [rewrite E; now intros [= <-] |].
  destruct (String.eqb_spec (Key attr) "itemprop") as [E | _];
    [rewrite E; now intros [= <-] |].
  destruct (String.eqb_spec (Key attr) "src") as [E | _];
    [rewrite E; cbn; destruct (Resolve u (Val attr)); [| discriminate]; now intros [= <-] |].
  destruct (String.eqb_spec (Key attr) "href") as [E | _];
    [rewrite E; cbn; destruct (Resolve u (Val attr)); [| discriminate]; now intros [= <-] |].
  destruct (String.eqb_spec (Key attr) "content") as [E | _];
    [rewrite E; now intros [= <-] |].
  destruct (String.eqb_spec (Key attr) "data") as [E | _];
    [rewrite E; now intros [= <-] |].
  destruct (String.eqb_spec (Key attr) "datetime") as [E | _];
    [rewrite E; now intros [= <-] |].
  cbn. destruct (String.eqb (Key attr) "itemid"); now intros [= <-].
Qed.

Lemma rev1_readAttrs_value (u : URL) (l : list Attribute) :
  forall a a',
    Rev1.readAttrs u a l = Returned a' ->
    Rev1.value a'
    = match list.last (List.filter (fun attr => Rev1.isValueKey (Key attr)) l) with
      | Some attr => Rev1.attrValue u attr
      | None => Rev1.value a
      end.
Proof.
  induction l as [|attr l IH]; intros a a' H; simpl in H.
  - now injection H as <-.
  - destruct (Rev1.readAttr u a attr) as [a1|] eqn:E; [| discriminate].
    apply rev1_readAttr_value in E. apply IH in H. rewrite H, E. cbn [List.filter].
    destruct (Rev1.isValueKey (Key attr)); [| reflexivity].
    rewrite last_cons. now destruct (list.last _).
Qed.

(** The inner closure of the property loop collects the text of the
    subtree, in document order. *)
Lemma rev1_text_walk (n : Node) :
  forall buf, Rev1.text n buf = walkNodes n writeText buf.
Proof.
  induction n as [ty a d attrs cs IH] using Node_forall_ind. intros buf.
  cbn [Rev1.text walkNodes Children Type_ Data]. unfold writeText at 2.
  cbn [Type_ Data].
  generalize (match ty with TextNode => String.append buf d | _ => buf end). clear buf.
  induction IH as [|c cs Hc _ IHcs]; intros buf; [reflexivity |].
  rewrite Hc. apply IHcs.
Qed.

Lemma rev1_text_eq (n : Node) : Rev1.text n "" = textOf (preorder n).
Proof. now rewrite rev1_text_walk, walkNodes_preorder, writeText_fold. Qed.

(** X16: in the first revision an element with [itemprop] that is not
    made an item adds one value under every piece of its [itemprop],
    empty pieces included, once for each occurrence: the value of the
    last of its [src], [href], [content], [data] and [datetime]
    attributes (resolved for [src] and [href]) when that is not empty,
    or else the text of the element, even when that is the empty
    string.  The children are then read into the same item. *)
Theorem rev1_property_added_even_when_empty
    (u : URL) (n : Node) (item : nat) (st : Rev1.state) :
  Type_ n = ElementNode ->
  Rev1.badRef u n = false ->
  Rev1.isScope n = false ->
  Rev1.hasKey "itemprop" n = true ->
  Rev1.f u n item st
  = Rev1.fs u (Children n) item
      (Rev1.modify st item
         (fun it => Rev1.appendValues it (Rev1.propsOf n) (Rev1.VString (Rev1.valueOf u n))))
  /\ Rev1.propsOf n <> []
  /\ forall it v k,
       default [] (Rev1.Properties (Rev1.appendValues it (Rev1.propsOf n) v) !! k)
       = (default [] (Rev1.Properties it !! k)
          ++ replicate (count_occ string_dec (Rev1.propsOf n) k) v)%list.
Proof.
  intros Hty Hbad Hscope Hprop.
  unfold Rev1.badRef in Hbad. rewrite Hty in Hbad.
  destruct (rev1_readAttrs_panics u (Attr n) Rev1.noAttrs) as [[Hb _] | [_ [a Ha]]];
    [congruence |].
  destruct (rev1_attrs_of_node u n a Hty Ha) as (Hs & _ & _ & Hp & Hp0).
  assert (Hne : Rev1.propsOf n <> []).
  { rewrite <- Hp. intros E. apply Hp0 in E. congruence. }
  split; [| split; [exact Hne | intros; apply rev1_appendValues_lookup]].
  assert (Hv : (if nonempty (Rev1.value a) then Rev1.value a else Rev1.text n "")
               = Rev1.valueOf u n).
  { unfold Rev1.valueOf, Rev1.attrValueOf.
    rewrite (rev1_readAttrs_value u (Attr n) _ _ Ha). cbn [Rev1.value Rev1.noAttrs].
    now rewrite rev1_text_eq. }
  rewrite rev1_f_eq, Hty, Ha, Hs, Hscope, Hp.
  destruct (Rev1.propsOf n); [congruence |]. cbn [length Nat.eqb negb].
  cbn zeta. now rewrite rev1_addProperties_eq, Hv.
Qed.

(** * The first revision on the example documents *)

Lemma rev1_panics_witness :
  Rev1.badRef exampleURL linkBroken = true
  /\ Rev1.f exampleURL (document [elem atom.Other [] [linkBroken]]) 0 Rev1.start = Panicked
  /\ exists st',
      Rev1.f exampleURL docComment 0 Rev1.start = Returned (st', None).
Proof.
  split; [reflexivity |]. split.
  - apply (rev1_f_panics_exactly_on_unresolved_reference
             exampleURL (document [elem atom.Other [] [linkBroken]]) 0 Rev1.start).
    exists linkBroken. split; [| reflexivity].
    cbn. right. right. left.
  - apply (rev1_f_panics_exactly_on_unresolved_reference exampleURL docComment 0 Rev1.start).
    vm_compute. discriminate.
Defined.

Lemma rev1_Parse_witness :
  exists st,
    Rev1.Parse exampleWorld "doc" "http://example.com" "utf-8" = Returned (st, None)
    /\ map (Rev1.typesAndId st) (Rev1.Items st)
       = [Some (["http://example.com/Post"], ""); Some (["http://example.com/Comment"], "c1")].
Proof.
  destruct (Rev1.Parse exampleWorld "doc" "http://example.com" "utf-8")
    as [[st e]|] eqn:E; [| vm_compute in E; discriminate].
  pose proof (rev1_Parse_items exampleWorld "doc" "http://example.com" "utf-8" st e E)
    as H.
  cbn in H. destruct H as (-> & _ & H). exists st. split; [reflexivity |].
  rewrite H. vm_compute. reflexivity.
Defined.

Lemma rev1_scope_witness :
  exists st',
    Rev1.isScope authorScope = true
    /\ Rev1.store Rev1.start !! 0 = Some (Rev1.mkItem [] ∅ "")
    /\ Rev1.f exampleURL authorScope 0 Rev1.start = Returned (st', None)
    /\ Rev1.store st' !! 0
       = Some (Rev1.appendValues (Rev1.mkItem [] ∅ "") ["author"] (Rev1.VItem 1))
    /\ Rev1.typesAndId st' 1 = Some (["http://example.com/Person"], "").
Proof.
  destruct (Rev1.f exampleURL authorScope 0 Rev1.start) as [[st' e]|] eqn:E;
    [| vm_compute in E; discriminate].
  assert (He : e = None) by (vm_compute in E; congruence). subst e.
  exists st'. split; [reflexivity | split; [reflexivity | split; [reflexivity |]]].
  exact (rev1_scope_owns_its_subtree exampleURL authorScope 0 Rev1.start st' None
           (Rev1.mkItem [] ∅ "") eq_refl eq_refl E).
Defined.

Lemma rev1_property_witness :
  Type_ linkHome = ElementNode
  /\ Rev1.badRef exampleURL linkHome = false
  /\ Rev1.isScope linkHome = false
  /\ Rev1.hasKey "itemprop" linkHome = true
  /\ Rev1.attrValueOf exampleURL linkHome = ""
  /\ Rev1.valueOf exampleURL linkHome = "home"
  /\ Rev1.f exampleURL linkHome 0 Rev1.start
     = Returned (Rev1.addString Rev1.start 0 "url" "home", None)
  /\ Rev1.f exampleURL metaEmpty 0 Rev1.start
     = Returned (Rev1.addString Rev1.start 0 "length" "", None).
Proof.
  do 6 (split; [reflexivity |]). split.
  - rewrite (proj1 (rev1_property_added_even_when_empty
                      exampleURL linkHome 0 Rev1.start eq_refl eq_refl eq_refl eq_refl)).
    reflexivity.
  - rewrite (proj1 (rev1_property_added_even_when_empty
                      exampleURL metaEmpty 0 Rev1.start eq_refl eq_refl eq_refl eq_refl)).
    reflexivity.
Defined.

(** * The second revision *)

Lemma rev2_setProperty_spec (st : Rev2.state) (i : nat) (it : Rev2.Item) (key : string)
    (l : Rev2.PropList) :
  Rev2.store st !! i = Some it ->
  Rev2.Items (Rev2.setProperty st i key l) = Rev2.Items st
  /\ (forall q, q <> i ->
                Rev2.store (Rev2.setProperty st i key l) !! q = Rev2.store st !! q)
  /\ exists it',
      Rev2.store (Rev2.setProperty st i key l) !! i = Some it'
      /\ Rev2.Type' it' = Rev2.Type' it /\ Rev2.Id it' = Rev2.Id it
      /\ Rev2.Properties it' !! key = Some l
      /\ (forall k, k <> key -> Rev2.Properties it' !! k = Rev2.Properties it !! k).
Proof.
  intros Hit. unfold Rev2.setProperty. cbn [Rev2.store Rev2.Items].
  split; [reflexivity |]. split.
  - intros q Hq. now rewrite list_lookup_alter_ne by congruence.
  - eexists. split; [now rewrite list_lookup_alter_eq, Hit |]. cbn.
    split; [reflexivity |]. split; [reflexivity |]. split.
    + now rewrite lookup_insert_eq.
    + intros k Hk. now rewrite lookup_insert_ne by congruence.
Qed.

(** X17: on an item whose map was made, [addProperty] returns
    [ErrInvalidPropertyType], and changes nothing, for a property that
    is neither a string nor an item.  For a string or an item it panics
    exactly when the key already holds a list of the other kind;
    otherwise it returns nil, the key holds its former values followed
    by the new one, and every other key, the type, the id, every other
    item and the result list are unchanged. *)
Theorem rev2_addProperty_appends_or_panics
    (st : Rev2.state) (i : nat) (it : Rev2.Item) (key : string) (property : Rev2.Property) :
  Rev2.store st !! i = Some it ->
  (Rev2.addProperty st (Some i) key property = Panicked <->
   Rev2.clash it key property = true)
  /\ (forall st' e,
         Rev2.addProperty st (Some i) key property = Returned (st', e) ->
         match property with
         | Rev2.POther => st' = st /\ e = Rev2.ErrInvalidPropertyType
         | _ =>
             e = None /\ Rev2.Items st' = Rev2.Items st
             /\ (forall q, q <> i -> Rev2.store st' !! q = Rev2.store st !! q)
             /\ exists it',
                 Rev2.store st' !! i = Some it'
                 /\ Rev2.Type' it' = Rev2.Type' it /\ Rev2.Id it' = Rev2.Id it
                 /\ Rev2.values it' key = (Rev2.values it key ++ [property])%list
                 /\ (forall k, k <> key ->
                               Rev2.Properties it' !! k = Rev2.Properties it !! k)
         end).
Proof.
  intros Hit.
  assert (Hset : forall l vs st' e,
             Returned (Rev2.setProperty st i key l, @None string) = Returned (st', e) ->
             (forall it', Rev2.Properties it' !! key = Some l -> Rev2.values it' key = vs) ->
             e = None /\ Rev2.Items st' = Rev2.Items st
             /\ (forall q, q <> i -> Rev2.store st' !! q = Rev2.store st !! q)
             /\ exists it',
                 Rev2.store st' !! i = Some it'
                 /\ Rev2.Type' it' = Rev2.Type' it /\ Rev2.Id it' = Rev2.Id it
                 /\ Rev2.values it' key = vs
                 /\ (forall k, k <> key ->
                               Rev2.Properties it' !! k = Rev2.Properties it !! k)).
  { intros l vs st' e [= <- <-] Hvs.
    destruct (rev2_setProperty_spec st i it key l Hit)
      as (HI & Hq & it' & H1 & H2 & H3 & H4 & H5).
    split; [reflexivity |]. split; [exact HI |]. split; [exact Hq |].
    exists it'. repeat (split; [assumption |]). split; [now apply Hvs | exact H5]. }
  unfold Rev2.addProperty, Rev2.clash. rewrite Hit.
  destruct property as [s | p |]; (split; [| intros st' e]).
  - destruct (Rev2.Properties it !! key) as [[l | l |]|]; split; congruence.
  - unfold Rev2.values at 2.
    destruct (Rev2.Properties it !! key) as [[l | l |]|] eqn:E; try discriminate;
      intros H; apply (Hset _ _ _ _ H); intros it' E'; unfold Rev2.values; rewrite E'.
    + now rewrite map_app.
    + reflexivity.
  - destruct (Rev2.Properties it !! key) as [[l | l |]|]; split; congruence.
  - unfold Rev2.values at 2.
    destruct (Rev2.Properties it !! key) as [[l | l |]|] eqn:E; try discriminate;
      intros H; apply (Hset _ _ _ _ H); intros it' E'; unfold Rev2.values; rewrite E'.
    + now rewrite map_app.
    + reflexivity.
  - destruct (Rev2.Properties it !! key) as [[l | l |]|]; split; congruence.
  - intros [= <- <-]. now split.
Qed.

Lemma rev2_f_eq (u : URL) (n : Node) (item : option nat) (st : Rev2.state) :
  Rev2.f u n item st
  = match Type_ n with
    | ElementNode =>
        match Rev1.readAttrs u Rev1.noAttrs (Attr n) with
        | Panicked => Panicked
        | Returned a =>
            if Rev1.itemscope a && negb (Nat.eqb (length (Rev1.itemtype a)) 0) then
              let (i, st) := Rev2.NewItem (Rev1.itemtype a) st in
              match Rev2.place a item i st with
              | Returned (st, None) => Rev2.fs u (Children n) (Some i) st
              | Returned (st, Some err) => Returned (st, Some err)
              | Panicked => Panicked
              end
            else if match item with Some _ => true | None => false end
                    && negb (Nat.eqb (length (Rev1.itemprop a)) 0) then
              match Rev2.addStrings n st item (Rev1.itemprop a) (Rev1.value a) with
              | Returned (st, None) => Rev2.fs u (Children n) item st
              | Returned (st, Some err) => Returned (st, Some err)
              | Panicked => Panicked
              end
            else Rev2.fs u (Children n) item st
        end
    | _ => Rev2.fs u (Children n) item st
    end.
Proof. destruct n. reflexivity. Qed.

Lemma rev2_grown_refl (st : Rev2.state) : Rev2.grown [] st st.
Proof.
  unfold Rev2.grown. simpl. rewrite Nat.add_0_r, app_nil_r.
  repeat split; intros; discriminate.
Qed.

Lemma rev2_grown_trans (ss1 ss2 : list Node) (st st1 st2 : Rev2.state) :
  Rev2.grown ss1 st st1 -> Rev2.grown ss2 st1 st2 -> Rev2.grown (ss1 ++ ss2) st st2.
Proof.
  intros (L1 & I1 & C1 & F1) (L2 & I2 & C2 & F2). unfold Rev2.grown.
  rewrite length_app. split; [lia |].
  split; [rewrite I2, I1, L1, rev1_tops_app, app_assoc; reflexivity |].
  split.
  - intros k m Hk. apply lookup_app_Some in Hk as [Hk | [Hle Hk]].
    + pose proof (lookup_lt_Some _ _ _ Hk) as Hlt.
      rewrite F2 by lia. now apply C1.
    + rewrite <- (C2 _ _ Hk). f_equal. lia.
  - intros q Hq. rewrite F2 by lia. now apply F1.
Qed.

(** A string or an item that [addProperty] adds leaves the sizes, the
    result list, and the types and id of every item as they were, and
    the error is nil. *)
Lemma rev2_addProperty_grown (st st' : Rev2.state) (item : option nat) (key : string)
    (property : Rev2.Property) (e : error) :
  property <> Rev2.POther ->
  Rev2.addProperty st item key property = Returned (st', e) ->
  e = None /\ Rev2.grown [] st st'.
Proof.
  intros Hp H.
  assert (Hset : forall i l, Rev2.grown [] st (Rev2.setProperty st i key l)).
  { intros i l. unfold Rev2.grown, Rev2.setProperty. cbn [Rev2.store Rev2.Items length].
    rewrite length_alter, app_nil_r. split; [lia |]. split; [reflexivity |].
    split; [intros; discriminate |]. intros q _. unfold Rev2.typesAndId. cbn [Rev2.store].
    destruct (decide (i = q)) as [-> | Hne];
      [rewrite list_lookup_alter_eq | now rewrite list_lookup_alter_ne].
    now destruct (Rev2.store st !! q). }
  unfold Rev2.addProperty in H.
  destruct property as [s | p |]; [| | congruence];
    (destruct item as [i|]; [| discriminate]);
    (destruct (Rev2.store st !! i) as [it|]; [| discriminate]);
    destruct (Rev2.Properties it !! key) as [[l | l |]|]; try discriminate;
    injection H as <- <-; (split; [reflexivity | apply Hset]).
Qed.

Lemma rev2_addItems_grown (keys : list string) (item : option nat) (i : nat) :
  forall st st' e,
    Rev2.addItems st item keys i = Returned (st', e) -> e = None /\ Rev2.grown [] st st'.
Proof.
  induction keys as [|key keys IH]; intros st st' e H; cbn [Rev2.addItems] in H.
  - injection H as <- <-. split; [reflexivity | apply rev2_grown_refl].
  - destruct (Rev2.addProperty st item key (Rev2.PItem i)) as [[st1 e1]|] eqn:E;
      [| discriminate].
    apply rev2_addProperty_grown in E as [-> G1]; [| discriminate].
    apply IH in H as [-> G2]. split; [reflexivity |].
    apply (rev2_grown_trans [] [] st st1 st'); assumption.
Qed.

Lemma rev2_addStrings_grown (n : Node) (keys : list string) (item : option nat) :
  forall value st st' e,
    Rev2.addStrings n st item keys value = Returned (st', e) ->
    e = None /\ Rev2.grown [] st st'.
Proof.
  induction keys as [|key keys IH]; intros value st st' e H; cbn [Rev2.addStrings] in H.
  - injection H as <- <-. split; [reflexivity | apply rev2_grown_refl].
  - cbn zeta in H. match type of H with context [Rev2.addProperty st item key ?p] =>
      destruct (Rev2.addProperty st item key p) as [[st1 e1]|] eqn:E; [| discriminate] end.
    apply rev2_addProperty_grown in E as [-> G1]; [| discriminate].
    apply IH in H as [-> G2]. split; [reflexivity |].
    apply (rev2_grown_trans [] [] st st1 st'); assumption.
Qed.

(** The new item of a typed scope, once placed. *)
Lemma rev2_place_grown (u : URL) (n : Node) (a : Rev1.attrs) (item : option nat)
    (st st' : Rev2.state) (e : error) :
  Type_ n = ElementNode ->
  Rev1.readAttrs u Rev1.noAttrs (Attr n) = Returned a ->
  Rev2.place a item (length (Rev2.store st)) (snd (Rev2.NewItem (Rev1.itemtype a) st))
  = Returned (st', e) ->
  e = None /\ Rev2.grown [n] st st'.
Proof.
  intros Hty Ha H.
  destruct (rev1_attrs_of_node u n a Hty Ha) as (_ & Ht & Hi & Hp & Hp0).
  set (i := length (Rev2.store st)) in *.
  assert (Hgrown : forall s its,
             length s = S i ->
             (forall q, q < i ->
                        (fun it => (Rev2.Type' it, Rev2.Id it)) <$> s !! q
                        = Rev2.typesAndId st q) ->
             (fun it => (Rev2.Type' it, Rev2.Id it)) <$> s !! i
             = Some (Rev1.typesOf n, Rev1.idOf n) ->
             its = (Rev2.Items st ++ (if Rev1.isTop n then [i] else []))%list ->
             Rev2.grown [n] st (Rev2.mkState s its)).
  { intros s its Hlen Hold Hnew Hits. unfold Rev2.grown.
    cbn [Rev2.store Rev2.Items length Rev1.tops]. fold i.
    split; [lia |]. split; [now rewrite app_nil_r |]. split.
    - intros [|k] m Hk; [| discriminate]. injection Hk as <-.
      rewrite Nat.add_0_r. exact Hnew.
    - exact Hold. }
  unfold Rev2.place, Rev2.NewItem in H. cbn [snd] in H.
  destruct (nonempty (Rev1.itemid a)) eqn:Hid.
  - injection H as <- <-. split; [reflexivity |].
    unfold Rev2.appendItem, Rev2.setId. cbn [Rev2.store Rev2.Items].
    apply Hgrown.
    + rewrite length_alter, length_app. simpl. lia.
    + intros q Hq. rewrite list_lookup_alter_ne by lia.
      now rewrite lookup_app_l by (fold i; lia).
    + rewrite list_lookup_alter_eq, lookup_app_r by (fold i; lia).
      fold i. rewrite Nat.sub_diag. cbn. now rewrite Ht, Hi.
    + unfold Rev1.isTop. now rewrite <- Hi, Hid.
  - assert (Hid0 : Rev1.itemid a = "") by (destruct (Rev1.itemid a); [reflexivity | discriminate]).
    assert (Hnew : Rev2.grown [n] st
                     (Rev2.mkState (Rev2.store st ++ [Rev2.mkItem (Rev1.itemtype a) ∅ ""])%list
                                   (Rev2.Items st ++ (if Rev1.isTop n then [i] else []))%list)).
    { apply Hgrown.
      - rewrite length_app. simpl. lia.
      - intros q Hq. now rewrite lookup_app_l by (fold i; lia).
      - rewrite lookup_app_r by (fold i; lia). fold i. rewrite Nat.sub_diag. cbn.
        now rewrite Ht, <- Hi, Hid0.
      - reflexivity. }
    destruct (Rev1.itemprop a) as [|k ks] eqn:Hprop.
    + injection H as <- <-. split; [reflexivity |].
      unfold Rev2.appendItem. cbn [Rev2.store Rev2.Items].
      unfold Rev1.isTop in Hnew. rewrite (proj1 Hp0 eq_refl), orb_true_r in Hnew.
      exact Hnew.
    + apply rev2_addItems_grown in H as [-> G]. split; [reflexivity |].
      assert (Htop : Rev1.isTop n = false).
      { unfold Rev1.isTop. rewrite <- Hi, Hid.
        destruct (Rev1.hasKey "itemprop" n) eqn:E; [reflexivity |].
        destruct Hp0 as [_ Hp0]. now specialize (Hp0 eq_refl). }
      rewrite Htop, app_nil_r in Hnew.
      apply (rev2_grown_trans [n] [] st _ st' Hnew) in G. exact G.
Qed.

Lemma rev2_fs_grown (u : URL) (cs : list Node) :
  Forall (fun c => forall item st st' e,
              Rev2.f u c item st = Returned (st', e) ->
              e = None /\ Rev2.grown (Rev1.scopes c) st st') cs ->
  forall item st st' e,
    Rev2.fs u cs item st = Returned (st', e) ->
    e = None /\ Rev2.grown (flat_map Rev1.scopes cs) st st'.
Proof.
  induction 1 as [|c cs Hc _ IH]; intros item st st' e H; simpl in *.
  - injection H as <- <-. split; [reflexivity | apply rev2_grown_refl].
  - destruct (Rev2.f u c item st) as [[st1 e1]|] eqn:E; [| discriminate].
    apply Hc in E as [-> G1]. apply IH in H as [-> G2].
    split; [reflexivity |]. now apply (rev2_grown_trans _ _ st st1 st').
Qed.

(** What a run of the second [f] that returns has done: the error is
    nil, and the items of the typed scopes were allocated in order. *)
Lemma rev2_f_grown (u : URL) (n : Node) :
  forall item st st' e,
    Rev2.f u n item st = Returned (st', e) ->
    e = None /\ Rev2.grown (Rev1.scopes n) st st'.
Proof.
  induction n as [ty a d attrs cs IH] using Node_forall_ind. intros item st st' e H.
  set (n := mkNode ty a d attrs cs) in *.
  pose proof (rev2_fs_grown u cs IH) as Hcs.
  rewrite rev1_scopes_eq. change (Children n) with cs.
  rewrite rev2_f_eq in H. change (Children n) with cs in H.
  destruct (Type_ n) eqn:Hty;
    try (unfold Rev1.isScope; rewrite Hty; now apply Hcs in H).
  destruct (Rev1.readAttrs u Rev1.noAttrs (Attr n)) as [at_|] eqn:Ha; [| discriminate].
  destruct (rev1_attrs_of_node u n at_ Hty Ha) as (Hs & _).
  rewrite Hs in H. destruct (Rev1.isScope n) eqn:Hscope.
  - unfold Rev2.NewItem at 1 in H.
    match type of H with context [Rev2.place at_ item ?i ?s] =>
      destruct (Rev2.place at_ item i s) as [[st1 e1]|] eqn:E; [| discriminate] end.
    apply (rev2_place_grown u n at_ item st st1 e1 Hty Ha) in E as [-> G1].
    apply Hcs in H as [-> G2]. split; [reflexivity |].
    now apply (rev2_grown_trans [n] _ st st1 st').
  - cbn [app].
    match type of H with context [if ?b then _ else _] => destruct b end.
    + destruct (Rev2.addStrings n st item (Rev1.itemprop at_) (Rev1.value at_))
        as [[st1 e1]|] eqn:E; [| discriminate].
      apply rev2_addStrings_grown in E as [-> G1].
      apply Hcs in H as [-> G2]. split; [reflexivity |].
      now apply (rev2_grown_trans [] _ st st1 st').
    + now apply Hcs in H.
Qed.

Lemma rev2_tops_cells (st' : Rev2.state) (ss : list Node) :
  forall b,
    (forall k m, ss !! k = Some m ->
                 Rev2.typesAndId st' (b + k) = Some (Rev1.typesOf m, Rev1.idOf m)) ->
    map (Rev2.typesAndId st') (Rev1.tops b ss)
    = map (fun m => Some (Rev1.typesOf m, Rev1.idOf m)) (List.filter Rev1.isTop ss).
Proof.
  induction ss as [|m ss IH]; intros b H; simpl; [reflexivity |].
  assert (IH' : map (Rev2.typesAndId st') (Rev1.tops (S b) ss)
                = map (fun m => Some (Rev1.typesOf m, Rev1.idOf m))
                      (List.filter Rev1.isTop ss)).
  { apply IH. intros k m' Hk. rewrite <- (H (S k) m' Hk). f_equal. lia. }
  destruct (Rev1.isTop m); simpl; rewrite IH'; [| reflexivity].
  f_equal. rewrite <- (H 0 m eq_refl). f_equal. lia.
Qed.

(** X18: when the second [Parse] returns, a non-nil error is the error
    of the decoding and comes with no items, so that
    [ErrInvalidPropertyType] is never returned; with a nil error, one
    item was made for each element with [itemscope] and [itemtype], and
    the items of the result are those of the elements among them with a
    non-empty [itemid] or no [itemprop], in document order, each with
    the pieces of its [itemtype] as types and its [itemid] as id. *)
Theorem rev2_Parse_items
    (w : World) (r : Reader w) (baseURL contentType : string)
    (st' : Rev2.state) (e : error) :
  Rev2.Parse w r baseURL contentType = Returned (st', e) ->
  match charset_NewReader w r contentType with
  | inr err => e = Some err /\ Rev2.Items st' = []
  | inl r' =>
      match html_Parse w r' with
      | inr err => e = Some err /\ Rev2.Items st' = []
      | inl doc =>
          e = None
          /\ length (Rev2.store st') = length (Rev1.scopes doc)
          /\ map (Rev2.typesAndId st') (Rev2.Items st')
             = map (fun m => Some (Rev1.typesOf m, Rev1.idOf m))
                   (List.filter Rev1.isTop (Rev1.scopes doc))
      end
  end.
Proof.
  unfold Rev2.Parse.
  destruct (charset_NewReader w r contentType) as [r'|err]; [| now intros [= <- <-]].
  destruct (html_Parse w r') as [doc|err]; [| now intros [= <- <-]].
  match goal with |- context [Rev2.f ?u doc None ?s] =>
    set (base := u); set (st0 := s) end.
  destruct (Rev2.f base doc None st0) as [[st1 e1]|] eqn:E; [| discriminate].
  apply rev2_f_grown in E as [-> (L & I & C & _)]. intros [= <- <-].
  split; [reflexivity |]. split; [exact L |].
  rewrite I. cbn [st0 Rev2.Items Rev2.store length app].
  apply rev2_tops_cells. exact C.
Qed.

(** X19: outside any item, that is with a nil [item], the second [f]
    ignores the [itemprop] of an element that is not a typed scope,
    opens a top-level item for a typed scope with a non-empty [itemid]
    or no [itemprop], and panics on a typed scope that is a property
    without an id, whose item it adds to the nil item. *)
Theorem rev2_outside_any_item (u : URL) (n : Node) (st : Rev2.state) :
  Type_ n = ElementNode ->
  Rev1.badRef u n = false ->
  Rev2.f u n None st
  = if Rev1.isScope n then
      if Rev1.isTop n then
        Rev2.fs u (Children n) (Some (length (Rev2.store st)))
          (Rev2.mkState
             (Rev2.store st ++ [Rev2.mkItem (Rev1.typesOf n) ∅ (Rev1.idOf n)])%list
             (Rev2.Items st ++ [length (Rev2.store st)])%list)
      else Panicked
    else Rev2.fs u (Children n) None st.
Proof.
  intros Hty Hbad. unfold Rev1.badRef in Hbad. rewrite Hty in Hbad.
  destruct (rev1_readAttrs_panics u (Attr n) Rev1.noAttrs) as [[Hb _] | [_ [a Ha]]];
    [congruence |].
  destruct (rev1_attrs_of_node u n a Hty Ha) as (Hs & Ht & Hi & Hp & Hp0).
  rewrite rev2_f_eq, Hty, Ha, Hs. destruct (Rev1.isScope n); [| reflexivity].
  unfold Rev2.NewItem, Rev2.place, Rev1.isTop. rewrite <- Hi, <- Ht.
  destruct (nonempty (Rev1.itemid a)) eqn:Hid; cbn [orb].
  - unfold Rev2.appendItem, Rev2.setId. cbn [Rev2.store Rev2.Items].
    replace (alter _ _ _)
      with (Rev2.store st ++ [Rev2.mkItem (Rev1.itemtype a) ∅ (Rev1.itemid a)])%list;
      [reflexivity |].
    pose proof (alter_app_r (fun it => Rev2.mkItem (Rev2.Type' it) (Rev2.Properties it)
                                                   (Rev1.itemid a))
                            (Rev2.store st) [Rev2.mkItem (Rev1.itemtype a) ∅ ""] 0) as E.
    rewrite Nat.add_0_r in E. now rewrite E.
  - assert (Hid0 : Rev1.itemid a = "")
      by (destruct (Rev1.itemid a); [reflexivity | discriminate]).
    destruct (Rev1.itemprop a) as [|k ks] eqn:Hprop.
    + rewrite (proj1 Hp0 eq_refl). cbn [negb]. unfold Rev2.appendItem.
      cbn [Rev2.store Rev2.Items]. now rewrite Hid0.
    + destruct (Rev1.hasKey "itemprop" n) eqn:E; [reflexivity |].
      destruct Hp0 as [_ Hp0]. now specialize (Hp0 eq_refl).
Qed.

(** ** The two revisions compared *)

Lemma rev2_fs_resolves (u : URL) (cs : list Node) :
  Forall (fun c => forall item st st' e,
              Rev2.f u c item st = Returned (st', e) ->
              Forall (fun m => Rev1.badRef u m = false) (preorder c)) cs ->
  forall item st st' e,
    Rev2.fs u cs item st = Returned (st', e) ->
    Forall (fun m => Rev1.badRef u m = false) (flat_map preorder cs).
Proof.
  induction 1 as [|c cs Hc _ IH]; intros item st st' e H; simpl in *; [constructor |].
  destruct (Rev2.f u c item st) as [[st1 e1]|] eqn:E; [| discriminate].
  apply Forall_app. split; [now apply Hc in E |].
  apply rev2_f_grown in E as [-> _]. now apply IH in H.
Qed.

(** A run of the second [f] that returns met no reference that does
    not resolve. *)
Lemma rev2_f_resolves (u : URL) (n : Node) :
  forall item st st' e,
    Rev2.f u n item st = Returned (st', e) ->
    Forall (fun m => Rev1.badRef u m = false) (preorder n).
Proof.
  induction n as [ty a d attrs cs IH] using Node_forall_ind. intros item st st' e H.
  set (n := mkNode ty a d attrs cs) in *.
  pose proof (rev2_fs_resolves u cs IH) as Hcs.
  rewrite preorder_eq. change (Children n) with cs.
  rewrite rev2_f_eq in H. change (Children n) with cs in H.
  destruct (Type_ n) eqn:Hty;
    try (constructor; [unfold Rev1.badRef; now rewrite Hty | now apply Hcs in H]).
  destruct (rev1_readAttrs_panics u (Attr n) Rev1.noAttrs) as [[_ Hp] | [Hb [at_ Ha]]];
    [rewrite Hp in H; discriminate |].
  rewrite Ha in H. constructor; [unfold Rev1.badRef; now rewrite Hty |].
  match type of H with context [if ?b then _ else _] => destruct b end.
  - unfold Rev2.NewItem at 1 in H.
    match type of H with context [Rev2.place at_ item ?i ?s] =>
      destruct (Rev2.place at_ item i s) as [[st1 e1]|] eqn:E; [| discriminate] end.
    apply (rev2_place_grown u n at_ item st st1 e1 Hty Ha) in E as [-> _].
    now apply Hcs in H.
  - match type of H with context [if ?b then _ else _] => destruct b end.
    + destruct (Rev2.addStrings n st item (Rev1.itemprop at_) (Rev1.value at_))
        as [[st1 e1]|] eqn:E; [| discriminate].
      apply rev2_addStrings_grown in E as [-> _]. now apply Hcs in H.
    + now apply Hcs in H.
Qed.

(** X20: the second revision changed no top-level item.  Whenever the
    second [Parse] returns, the first [Parse] returns on the same
    input with the same error, and its items have the same types and
    ids, in the same order. *)
Theorem rev2_Parse_agrees_with_rev1
    (w : World) (r : Reader w) (baseURL contentType : string)
    (st2 : Rev2.state) (e : error) :
  Rev2.Parse w r baseURL contentType = Returned (st2, e) ->
  exists st1,
    Rev1.Parse w r baseURL contentType = Returned (st1, e)
    /\ map (Rev1.typesAndId st1) (Rev1.Items st1)
       = map (Rev2.typesAndId st2) (Rev2.Items st2).
Proof.
  unfold Rev2.Parse, Rev1.Parse.
  destruct (charset_NewReader w r contentType) as [r'|err];
    [| intros [= <- <-]; eexists; split; reflexivity].
  destruct (html_Parse w r') as [doc|err];
    [| intros [= <- <-]; eexists; split; reflexivity].
  cbn [Rev1.NewItem Rev1.store Rev1.Items length].
  match goal with |- context [Rev2.f ?u doc None ?s] =>
    set (base := u); set (s2 := s) end.
  match goal with |- context [Rev1.f base doc 0 ?s] => set (s1 := s) end.
  destruct (Rev2.f base doc None s2) as [[st2' e2]|] eqn:E2; [| discriminate].
  pose proof (rev2_f_resolves _ _ _ _ _ _ E2) as Hres.
  apply rev2_f_grown in E2 as [-> (_ & I2 & C2 & _)]. intros [= <- <-].
  destruct (rev1_f_panics_or_returns base doc 0 s1) as [[(m & Hm & Hbad) _] | [_ [st1 E1]]].
  { rewrite list.Forall_forall in Hres. rewrite (Hres m Hm) in Hbad. discriminate. }
  rewrite E1. exists st1. split; [reflexivity |].
  apply rev1_f_grown in E1 as (_ & I1 & C1 & _); [| cbn; lia].
  rewrite I1, I2. cbn [s1 s2 Rev1.Items Rev2.Items Rev1.store Rev2.store length app].
  rewrite (rev1_tops_cells st1 (Rev1.scopes doc) 1 C1).
  now rewrite (rev2_tops_cells st2' (Rev1.scopes doc) 0 C2).
Qed.

(** * The second revision on the example documents *)

Lemma rev2_addProperty_witness :
  Rev2.addProperty
    (Rev2.mkState [Rev2.mkItem ["http://example.com/Post"] {[ "author" := Rev2.Strings ["Ann"] ]} ""]
                  [0])
    (Some 0) "author" (Rev2.PItem 1)
  = Panicked.
Proof.
  apply (rev2_addProperty_appends_or_panics
           (Rev2.mkState
              [Rev2.mkItem ["http://example.com/Post"] {[ "author" := Rev2.Strings ["Ann"] ]} ""]
              [0])
           0 _ "author" (Rev2.PItem 1) eq_refl).
  reflexivity.
Defined.

Lemma rev2_Parse_witness :
  exists st,
    Rev2.Parse exampleWorld "doc" "http://example.com" "utf-8" = Returned (st, None)
    /\ map (Rev2.typesAndId st) (Rev2.Items st)
       = [Some (["http://example.com/Post"], ""); Some (["http://example.com/Comment"], "c1")].
Proof.
  destruct (Rev2.Parse exampleWorld "doc" "http://example.com" "utf-8")
    as [[st e]|] eqn:E; [| vm_compute in E; discriminate].
  pose proof (rev2_Parse_items exampleWorld "doc" "http://example.com" "utf-8" st e E)
    as H.
  cbn in H. destruct H as (-> & _ & H). exists st. split; [reflexivity |].
  rewrite H. vm_compute. reflexivity.
Defined.

Lemma rev2_outside_witness :
  Type_ authorScope = ElementNode
  /\ Rev1.badRef exampleURL authorScope = false
  /\ Rev2.f exampleURL authorScope None (Rev2.mkState [] []) = Panicked.
Proof.
  split; [reflexivity |]. split; [reflexivity |].
  rewrite (rev2_outside_any_item exampleURL authorScope (Rev2.mkState [] [])
             eq_refl eq_refl).
  reflexivity.
Defined.

Lemma rev2_agrees_witness :
  exists st1 st2,
    Rev2.Parse exampleWorld "doc" "http://example.com" "utf-8" = Returned (st2, None)
    /\ Rev1.Parse exampleWorld "doc" "http://example.com" "utf-8" = Returned (st1, None)
    /\ map (Rev1.typesAndId st1) (Rev1.Items st1)
       = map (Rev2.typesAndId st2) (Rev2.Items st2).
Proof.
  destruct (Rev2.Parse exampleWorld "doc" "http://example.com" "utf-8")
    as [[st2 e]|] eqn:E; [| vm_compute in E; discriminate].
  assert (He : e = None) by (vm_compute in E; congruence). subst e.
  destruct (rev2_Parse_agrees_with_rev1 exampleWorld "doc" "http://example.com" "utf-8"
              st2 None E) as (st1 & H1 & H).
  exists st1, st2. split; [reflexivity | split; [exact H1 | exact H]].
Defined.

(** * The latest revision *)

(** ** The walk of [parse] *)

Lemma rev4_scanNode_eq (n : Node) (st : list Node * gmap string Node) :
  Rev4.scanNode n st = ((st.1 ++ List.filter Rev4.scopeRoot [n])%list, identify n st.2).
Proof.
  unfold Rev4.scanNode, identify, Rev4.scopeRoot, hasAttr. simpl.
  destruct (getAttr "itemscope" n), (getAttr "itemprop" n); simpl;
    rewrite ?app_nil_r; reflexivity.
Qed.

Lemma rev4_scan_fold (l : list Node) :
  forall st,
    fold_left (fun st m => Rev4.scanNode m st) l st
    = ((st.1 ++ List.filter Rev4.scopeRoot l)%list,
       fold_left (fun ids m => identify m ids) l st.2).
Proof.
  induction l as [|n l IH]; intros [top ids].
  - simpl. now rewrite app_nil_r.
  - cbn [fold_left]. rewrite IH, rev4_scanNode_eq. cbn [fst snd].
    change (n :: l) with ([n] ++ l)%list. rewrite List.filter_app.
    now rewrite <- app_assoc.
Qed.

(** The walk selects the nodes with [itemscope] and without
    [itemprop], in document order. *)
Lemma rev4_scan_toplevel (p : parser) :
  (Rev4.scan p).1 = List.filter Rev4.scopeRoot (preorder (tree p)).
Proof. unfold Rev4.scan. now rewrite walkNodes_preorder, rev4_scan_fold. Qed.

(** The index of ids is the one of the earlier walk. *)
Lemma rev4_scanned_eq (p : parser) : Rev4.scanned p = scanned p.
Proof.
  unfold Rev4.scanned, scanned. f_equal.
  rewrite scan_identified. unfold Rev4.scan.
  now rewrite walkNodes_preorder, rev4_scan_fold.
Qed.

Lemma rev4_parse_eq (p : parser) (fuel : nat) :
  Rev4.parse p fuel =
  items ← foldM (fun items node =>
                   item ← Rev4.parseNode (Rev4.scanned p) fuel node;
                   Some (items ++ [item])%list)
                (Rev4.scan p).1 (Items (data p));
  Some (mkMicrodata items, None).
Proof. unfold Rev4.parse, Rev4.scanned. destruct (Rev4.scan p). reflexivity. Qed.

Lemma rev4_parse_Some (t : Node) (u : URL) (fuel : nat) (d : Microdata) (e : error) :
  Rev4.parse (newParser t u) fuel = Some (d, e) <->
  Forall2 (fun node item =>
             Rev4.parseNode (Rev4.scanned (newParser t u)) fuel node = Some item)
          (List.filter Rev4.scopeRoot (preorder t)) (Items d) /\ e = None.
Proof.
  rewrite rev4_parse_eq, rev4_scan_toplevel. cbn [tree newParser].
  destruct (foldM _ _ _) as [items|] eqn:E; simpl.
  - apply foldM_append in E as (items' & H & ->). cbn. split.
    + intros [= <- <-]. now split.
    + intros [H' ->]. destruct d as [its]. cbn in H'.
      now rewrite (Forall2_Some_unique _ _ _ _ H H').
  - split; [discriminate |]. intros [H ->].
    assert (E' : foldM (fun items node =>
                          item ← Rev4.parseNode (Rev4.scanned (newParser t u)) fuel node;
                          Some (items ++ [item])%list)
                       (List.filter Rev4.scopeRoot (preorder t))
                       (Items (data (newParser t u)))
                 = Some ([] ++ Items d)%list)
      by (apply foldM_append; eauto).
    rewrite E in E'. discriminate.
Qed.

(** ** The cases of [readAttr] and [readItem] *)

(** [readAttr] gives the item the types and the id of the node, then
    reads the identified nodes of the non-empty tokens of [itemref], in
    token order. *)
Lemma rev4_readAttr_eq (p : parser) (rd : Item -> Node -> option Item)
    (item : Item) (node : Node) :
  Rev4.readAttr p rd item node = foldM rd (refNodes p node) (readTypes p node item).
Proof.
  unfold Rev4.readAttr, refNodes. fold (readTypes p node item).
  destruct (getAttr "itemref" node) as [s|]; [| reflexivity].
  apply (readRefs_eq p rd s).
Qed.

Lemma rev4_nestedItem_eq (p : parser) (fuel : nat) (node : Node) :
  Rev4.nestedItem p fuel node
  = foldM (fun item c => Rev4.readItem p fuel item c false)
          (refNodes p node ++ Children node) (readTypes p node NewItem).
Proof. unfold Rev4.nestedItem. now rewrite rev4_readAttr_eq, foldM_app. Qed.

Lemma rev4_readItem_scope (p : parser) (fuel : nat) (item : Item) (node : Node)
    (top : bool) (itemprops x : string) :
  getAttr "itemprop" node = Some itemprops ->
  getAttr "itemscope" node = Some x ->
  Rev4.readItem p (S fuel) item node top
  = subItem ← Rev4.nestedItem p fuel node; Some (addItems item itemprops subItem).
Proof.
  intros Hp Hs. cbn [Rev4.readItem]. rewrite Hp, Hs. unfold Rev4.nestedItem.
  destruct (Rev4.readAttr _ _ _ _) as [a|]; [| reflexivity]. cbn.
  destruct (foldM _ _ a); reflexivity.
Qed.

Lemma rev4_readItem_property (p : parser) (fuel : nat) (item : Item) (node : Node)
    (top : bool) (itemprops : string) :
  getAttr "itemprop" node = Some itemprops ->
  getAttr "itemscope" node = None ->
  Rev4.readItem p (S fuel) item node top
  = foldM (fun item c => Rev4.readItem p fuel item c false) (Children node)
      (if nonempty (Rev4.getValue p node)
       then addStrings item itemprops (Rev4.getValue p node) else item).
Proof. intros Hp Hs. cbn [Rev4.readItem]. now rewrite Hp, Hs. Qed.

Lemma rev4_readItem_root (p : parser) (fuel : nat) (item : Item) (node : Node) :
  Rev4.scopeRoot node = true ->
  Rev4.readItem p (S fuel) item node true
  = foldM (fun item c => Rev4.readItem p fuel item c false) (Children node) item.
Proof.
  unfold Rev4.scopeRoot, hasAttr. intros H. cbn [Rev4.readItem].
  destruct (getAttr "itemprop" node); [now rewrite andb_false_r in H |].
  now destruct (getAttr "itemscope" node).
Qed.

Lemma rev4_readItem_unrelated (p : parser) (fuel : nat) (item : Item) (node : Node) :
  Rev4.scopeRoot node = true ->
  Rev4.readItem p (S fuel) item node false = Some item.
Proof.
  unfold Rev4.scopeRoot, hasAttr. intros H. cbn [Rev4.readItem].
  destruct (getAttr "itemprop" node); [now rewrite andb_false_r in H |].
  now destruct (getAttr "itemscope" node).
Qed.

Lemma rev4_readItem_plain (p : parser) (fuel : nat) (item : Item) (node : Node)
    (top : bool) :
  getAttr "itemprop" node = None ->
  getAttr "itemscope" node = None ->
  Rev4.readItem p (S fuel) item node top
  = foldM (fun item c => Rev4.readItem p fuel item c false) (Children node) item.
Proof. intros Hp Hs. cbn [Rev4.readItem]. now rewrite Hp, Hs. Qed.

(** The item of a root: the references are read by calls that
    [readAttr] makes, the children by calls that the call on the root
    makes. *)
Lemma rev4_parseNode_eq (p : parser) (fuel : nat) (node : Node) :
  Rev4.scopeRoot node = true ->
  Rev4.parseNode p (S fuel) node
  = item ← foldM (fun item n => Rev4.readItem p (S fuel) item n false) (refNodes p node)
             (readTypes p node NewItem);
    foldM (fun item c => Rev4.readItem p fuel item c false) (Children node) item.
Proof.
  intros Hr. unfold Rev4.parseNode. rewrite rev4_readAttr_eq.
  destruct (foldM _ _ _) as [item|]; [| reflexivity]. cbn.
  now apply rev4_readItem_root.
Qed.

(** ** Types and id *)

Lemma readTypes_head (p : parser) (node : Node) :
  Types (readTypes p node NewItem) = Rev4.typesOf node
  /\ Id (readTypes p node NewItem) = Rev4.idOf p node.
Proof.
  unfold readTypes, Rev4.typesOf, Rev4.idOf.
  destruct (getAttr "itemtype" node) as [s|]; [| now split].
  pose proof (addTypes_Types (Split s " ") NewItem) as Ht.
  pose proof (addTypes_Id (Split s " ") NewItem) as Hi.
  destruct (getAttr "itemid" node) as [i|]; [destruct (Resolve _ i) |];
    cbn; split; try exact Ht; try exact Hi; try reflexivity.
  all: destruct (fold_left _ _ _); exact Ht || reflexivity.
Qed.

Lemma appendValues_head (v : Value) (l : list string) :
  forall item,
    Types (fold_left (fun it k => if nonempty k then appendValue it k v else it) l item)
    = Types item
    /\ Id (fold_left (fun it k => if nonempty k then appendValue it k v else it) l item)
       = Id item.
Proof.
  induction l as [|k l IH]; intros item; simpl; [now split |].
  destruct (IH (if nonempty k then appendValue item k v else item)) as [-> ->].
  destruct (nonempty k); [destruct item |]; now split.
Qed.

Lemma foldM_head (rd : Item -> Node -> option Item) (l : list Node) :
  (forall item n item', rd item n = Some item' ->
                        Types item' = Types item /\ Id item' = Id item) ->
  forall item item', foldM rd l item = Some item' ->
                     Types item' = Types item /\ Id item' = Id item.
Proof.
  intros Hrd item item' H.
  apply (foldM_invariant rd (fun b => Types b = Types item /\ Id b = Id item) l)
    with (b := item); [| now split | exact H].
  intros b a b' _ [Hb1 Hb2] Hr. apply Hrd in Hr as [-> ->]. now split.
Qed.

(** [readItem] adds property values only: the types and the id of the
    item it is given are those of the item it returns. *)
Lemma rev4_readItem_head (p : parser) (fuel : nat) :
  forall item node top item',
    Rev4.readItem p fuel item node top = Some item' ->
    Types item' = Types item /\ Id item' = Id item.
Proof.
  induction fuel as [|fuel IH]; intros item node top item' H; [discriminate |].
  assert (Hrd : forall it n it',
             Rev4.readItem p fuel it n false = Some it' ->
             Types it' = Types it /\ Id it' = Id it)
    by (intros it n it'; apply IH).
  destruct (getAttr "itemprop" node) as [itemprops|] eqn:Hp;
    destruct (getAttr "itemscope" node) as [x|] eqn:Hs.
  - rewrite (rev4_readItem_scope _ _ _ _ _ _ _ Hp Hs) in H.
    destruct (Rev4.nestedItem p fuel node) as [subItem|]; [| discriminate].
    injection H as <-. apply appendValues_head.
  - rewrite (rev4_readItem_property _ _ _ _ _ _ Hp Hs) in H.
    apply (foldM_head _ _ Hrd) in H as [-> ->].
    destruct (nonempty (Rev4.getValue p node)); [apply appendValues_head | now split].
  - destruct top.
    + rewrite rev4_readItem_root in H
        by (unfold Rev4.scopeRoot, hasAttr; now rewrite Hp, Hs).
      now apply (foldM_head _ _ Hrd) in H.
    + rewrite rev4_readItem_unrelated in H
        by (unfold Rev4.scopeRoot, hasAttr; now rewrite Hp, Hs).
      injection H as <-. now split.
  - rewrite (rev4_readItem_plain _ _ _ _ _ Hp Hs) in H.
    now apply (foldM_head _ _ Hrd) in H.
Qed.

(** The item built for a nested scope has the types and the id of its
    node. *)
Lemma rev4_nestedItem_head (p : parser) (fuel : nat) (node : Node) (subItem : Item) :
  Rev4.nestedItem p fuel node = Some subItem ->
  Types subItem = Rev4.typesOf node /\ Id subItem = Rev4.idOf p node.
Proof.
  rewrite rev4_nestedItem_eq. intros H.
  apply foldM_head in H as [-> ->]; [apply readTypes_head |].
  intros it n it'. apply rev4_readItem_head.
Qed.

(** The item built for a root has the types and the id of its node. *)
Lemma rev4_parseNode_head (p : parser) (fuel : nat) (node : Node) (item : Item) :
  Rev4.parseNode p fuel node = Some item ->
  Types item = Rev4.typesOf node /\ Id item = Rev4.idOf p node.
Proof.
  unfold Rev4.parseNode. rewrite rev4_readAttr_eq. intros H.
  destruct (foldM _ _ _) as [item0|] eqn:E; [| discriminate]. cbn in H.
  apply rev4_readItem_head in H as [-> ->].
  apply foldM_head in E as [-> ->]; [apply readTypes_head |].
  intros it n it'. apply rev4_readItem_head.
Qed.

(** What a call of [readItem] on a node with [itemprop] and
    [itemscope] returns. *)
Lemma rev4_nested_scope_value (p : parser) (fuel : nat) (item item' : Item) (node : Node)
    (top : bool) (itemprops x : string) :
  getAttr "itemprop" node = Some itemprops ->
  getAttr "itemscope" node = Some x ->
  Rev4.readItem p fuel item node top = Some item' ->
  exists fuel' subItem,
    fuel = S fuel'
    /\ Rev4.nestedItem p fuel' node = Some subItem
    /\ item' = addItems item itemprops subItem.
Proof.
  intros Hp Hs H. destruct fuel as [|fuel]; [discriminate |].
  rewrite (rev4_readItem_scope _ _ _ _ _ _ _ Hp Hs) in H.
  destruct (Rev4.nestedItem p fuel node) as [subItem|] eqn:E; [| discriminate].
  injection H as <-. now exists fuel, subItem.
Qed.

(** ** Top-level items and nested items *)

(** C1: a node with [itemscope] and [itemprop] is never a root of the
    walk, and the items [parse] returns are built from the roots, one
    each; when [readItem] meets such a node, the item at hand gets the
    item built for the node as a value under the names of [itemprop],
    once per occurrence, and nothing else changes in it. *)
Theorem property_scope_is_a_nested_item_only (t : Node) (u : URL) :
  Forall (fun n => hasAttr "itemscope" n = true /\ hasAttr "itemprop" n = false)
         (Rev4.scan (newParser t u)).1
  /\ (forall fuel d e,
         Rev4.parse (newParser t u) fuel = Some (d, e) ->
         Forall2 (fun node item =>
                    Rev4.parseNode (Rev4.scanned (newParser t u)) fuel node = Some item)
                 (Rev4.scan (newParser t u)).1 (Items d))
  /\ (forall fuel item item' node top itemprops x,
         getAttr "itemprop" node = Some itemprops ->
         getAttr "itemscope" node = Some x ->
         Rev4.readItem (Rev4.scanned (newParser t u)) fuel item node top = Some item' ->
         exists fuel' subItem,
           fuel = S fuel'
           /\ Rev4.nestedItem (Rev4.scanned (newParser t u)) fuel' node = Some subItem
           /\ item' = addItems item itemprops subItem
           /\ Types item' = Types item /\ Id item' = Id item
           /\ forall k,
               default [] (Properties item' !! k)
               = (default [] (Properties item !! k)
                  ++ replicate (occurrences k itemprops) (VItem subItem))%list).
Proof.
  split; [| split].
  - rewrite (rev4_scan_toplevel (newParser t u)).
    apply list.Forall_forall. intros n Hn%list_elem_of_In.
    apply List.filter_In in Hn as [_ Hn]. unfold Rev4.scopeRoot in Hn.
    apply andb_prop in Hn as [-> Hn]. split; [reflexivity |].
    now destruct (hasAttr "itemprop" n).
  - intros fuel d e H. apply rev4_parse_Some in H as [H _].
    now rewrite (rev4_scan_toplevel (newParser t u)).
  - intros fuel item item' node top itemprops x Hp Hs H.
    pose proof (rev4_readItem_head _ _ _ _ _ _ H) as [Ht Hi].
    destruct (rev4_nested_scope_value _ _ _ _ _ _ _ _ Hp Hs H)
      as (fuel' & subItem & -> & Hsub & ->).
    exists fuel', subItem. repeat (split; [assumption || reflexivity |]).
    intros k. exact (proj1 (appendValues_lookup (VItem subItem) (Split itemprops " ") k item)).
Qed.

(** C2: the walk returns the nodes of the tree that carry [itemscope]
    and do not carry [itemprop], exactly those and in document order,
    and the items of [parse] are built from the returned nodes, one
    each, in that order. *)
Theorem scan_returns_scope_roots_in_document_order (t : Node) (u : URL) :
  (Rev4.scan (newParser t u)).1
  = List.filter (fun n => hasAttr "itemscope" n && negb (hasAttr "itemprop" n)) (preorder t)
  /\ (forall n, n ∈ (Rev4.scan (newParser t u)).1 <->
                n ∈ preorder t /\ hasAttr "itemscope" n = true /\ hasAttr "itemprop" n = false)
  /\ sublist (Rev4.scan (newParser t u)).1 (preorder t)
  /\ (forall fuel d e,
         Rev4.parse (newParser t u) fuel = Some (d, e) ->
         Forall2 (fun node item =>
                    Rev4.parseNode (Rev4.scanned (newParser t u)) fuel node = Some item)
                 (Rev4.scan (newParser t u)).1 (Items d)).
Proof.
  rewrite (rev4_scan_toplevel (newParser t u)). cbn [tree newParser].
  split; [reflexivity |]. split; [| split].
  - intros n. rewrite !list_elem_of_In, List.filter_In. unfold Rev4.scopeRoot.
    rewrite andb_true_iff, negb_true_iff. tauto.
  - apply filter_sublist.
  - intros fuel d e H. now apply rev4_parse_Some in H as [H _].
Qed.


(** C4, as the code has it: the item built from a node, a root or a
    nested scope, has as types the non-empty tokens of the node's
    [itemtype], in order; its id is the resolved [itemid] when the node
    has an [itemtype] attribute, an [itemid], and the [itemid]
    resolves, and is empty in every other case. *)
Theorem item_types_and_id_are_read_by_readAttr (p : parser) (fuel : nat) (node : Node) :
  (forall item,
      Rev4.parseNode p fuel node = Some item ->
      Types item = from_option tokens [] (getAttr "itemtype" node)
      /\ Id item = Rev4.idOf p node)
  /\ (forall item item' top itemprops x,
         getAttr "itemprop" node = Some itemprops ->
         getAttr "itemscope" node = Some x ->
         Rev4.readItem p fuel item node top = Some item' ->
         exists subItem,
           item' = addItems item itemprops subItem
           /\ Types subItem = from_option tokens [] (getAttr "itemtype" node)
           /\ Id subItem = Rev4.idOf p node)
  /\ (forall s, getAttr "itemtype" node <> None -> getAttr "itemid" node = Some s ->
                Rev4.idOf p node = default "" (Resolve (baseURL p) s))
  /\ (getAttr "itemtype" node = None \/ getAttr "itemid" node = None ->
      Rev4.idOf p node = "").
Proof.
  split; [| split; [| split]].
  - intros item H. now apply rev4_parseNode_head in H.
  - intros item item' top itemprops x Hp Hs H.
    destruct (rev4_nested_scope_value _ _ _ _ _ _ _ _ Hp Hs H)
      as (fuel' & subItem & -> & Hsub & ->).
    exists subItem. split; [reflexivity |]. now apply rev4_nestedItem_head in Hsub.
  - intros s Ht Hi. unfold Rev4.idOf. rewrite Hi.
    now destruct (getAttr "itemtype" node).
  - unfold Rev4.idOf. intros [-> | ->]; [reflexivity |].
    now destruct (getAttr "itemtype" node).
Qed.

(** C10, as the code has it: the item attached for a node with
    [itemprop] and [itemscope] has the types and the id [readAttr]
    reads from the node, and it is this item that is appended, once per
    occurrence, under the names of [itemprop]. *)
Theorem nested_item_has_types_and_id_of_its_node
    (p : parser) (fuel : nat) (item item' : Item) (node : Node) (top : bool)
    (itemprops x : string) :
  getAttr "itemprop" node = Some itemprops ->
  getAttr "itemscope" node = Some x ->
  Rev4.readItem p fuel item node top = Some item' ->
  exists subItem,
    Types subItem = Rev4.typesOf node
    /\ Id subItem = Rev4.idOf p node
    /\ (Types subItem = [] <-> forall s, getAttr "itemtype" node = Some s -> tokens s = [])
    /\ forall k,
        default [] (Properties item' !! k)
        = (default [] (Properties item !! k)
           ++ replicate (occurrences k itemprops) (VItem subItem))%list.
Proof.
  intros Hp Hs H.
  destruct (rev4_nested_scope_value _ _ _ _ _ _ _ _ Hp Hs H)
    as (fuel' & subItem & -> & Hsub & ->).
  apply rev4_nestedItem_head in Hsub as [Ht Hi].
  exists subItem. split; [exact Ht |]. split; [exact Hi |]. split.
  - rewrite Ht. unfold Rev4.typesOf.
    destruct (getAttr "itemtype" node) as [s|]; cbn.
    + split; [now intros E s' [= <-] | intros E; now apply E].
    + split; [discriminate | reflexivity].
  - intros k. exact (proj1 (appendValues_lookup (VItem subItem) (Split itemprops " ") k item)).
Qed.

(** ** Recursion depth *)

Lemma rev4_depth_eq (top : bool) (n : Node) :
  Rev4.depth top n
  = if Rev4.scopeRoot n && negb top then 1 else S (Rev4.maxDepth (Children n)).
Proof. destruct n as [ty a d attrs cs]. reflexivity. Qed.

Lemma rev4_maxDepth_ge (cs : list Node) (c : Node) :
  c ∈ cs -> Rev4.depth false c <= Rev4.maxDepth cs.
Proof. induction 1 as [c cs | c c' cs _ IH]; simpl; lia. Qed.

Lemma rev4_maxDepth_attained (cs : list Node) :
  cs <> [] -> exists c, c ∈ cs /\ Rev4.depth false c = Rev4.maxDepth cs.
Proof.
  induction cs as [|c cs IH]; [congruence | intros _].
  destruct cs as [|c' cs'].
  - exists c. split; [left | simpl; lia].
  - destruct IH as (m & Hm & Hh); [congruence |].
    destruct (Nat.max_spec (Rev4.depth false c) (Rev4.maxDepth (c' :: cs')))
      as [[_ E] | [_ E]].
    + exists m. split; [now right | simpl in *; lia].
    + exists c. split; [left | simpl in *; lia].
Qed.

(** The cut depth is at most the nesting depth. *)
Lemma rev4_depth_le_height (n : Node) : forall top, Rev4.depth top n <= height n.
Proof.
  induction n as [ty a d attrs cs IH] using Node_forall_ind. intros top.
  rewrite rev4_depth_eq, height_eq. cbn [Children].
  destruct (Rev4.scopeRoot _ && negb top); [lia |].
  apply le_n_S. induction IH as [|c cs Hc _ IHcs]; simpl; [lia |].
  specialize (Hc false). lia.
Qed.

(** A loop of [readItem] over sibling subtrees returns exactly when
    the fuel covers the deepest of them. *)
Lemma rev4_children_depth (p : parser) (cs : list Node) (fuel : nat) :
  Forall (fun c => forall fuel item,
              is_Some (Rev4.readItem p fuel item c false) <-> Rev4.depth false c <= fuel) cs ->
  forall item,
    is_Some (foldM (fun item c => Rev4.readItem p fuel item c false) cs item)
    <-> Rev4.maxDepth cs <= fuel.
Proof.
  rewrite list.Forall_forall. intros IH item. split.
  - intros Hsome. destruct (le_lt_dec (Rev4.maxDepth cs) fuel) as [Hle | Hlt]; [exact Hle |].
    destruct cs as [|c0 cs0]; [simpl in Hlt; lia |].
    destruct (rev4_maxDepth_attained (c0 :: cs0)) as (c & Hc & Hh); [discriminate |].
    rewrite (foldM_stuck _ _ c Hc) in Hsome; [destruct Hsome; discriminate |].
    intros b. destruct (Rev4.readItem p fuel b c false) eqn:E; [| reflexivity].
    assert (Hs : is_Some (Rev4.readItem p fuel b c false)) by (rewrite E; eauto).
    apply IH in Hs; [lia | exact Hc].
  - intros Hle. apply foldM_total. intros c Hc b. apply IH; [exact Hc |].
    pose proof (rev4_maxDepth_ge cs c Hc). lia.
Qed.

(** When no nested scope follows a reference, [readItem] on a node
    recurses exactly as deep as the subtree of the node, cut below its
    interior scopes that are not properties. *)
Lemma rev4_readItem_depth (p : parser) (n : Node) :
  noNestedRefs p n ->
  forall fuel item top,
    is_Some (Rev4.readItem p fuel item n top) <-> Rev4.depth top n <= fuel.
Proof.
  induction n as [ty a d attrs cs IH] using Node_forall_ind. intros Hn fuel item top.
  set (n := mkNode ty a d attrs cs) in *. rewrite (rev4_depth_eq top n).
  assert (IHcs : Forall (fun c => forall fuel item,
                             is_Some (Rev4.readItem p fuel item c false)
                             <-> Rev4.depth false c <= fuel) cs).
  { rewrite list.Forall_forall in IH |- *. intros c Hc fuel' item'. apply IH; [exact Hc |].
    now apply (noNestedRefs_child p n c). }
  destruct fuel as [|fuel].
  { split; [intros [? ?]; discriminate |]. destruct (_ && _); lia. }
  change (Children n) with cs.
  destruct (getAttr "itemprop" n) as [itemprops|] eqn:Hp;
    destruct (getAttr "itemscope" n) as [x|] eqn:Hs.
  - assert (Hroot : Rev4.scopeRoot n = false)
      by (unfold Rev4.scopeRoot, hasAttr; now rewrite Hp, Hs).
    rewrite Hroot. cbn [andb]. rewrite <- Nat.succ_le_mono.
    rewrite (rev4_readItem_scope _ _ _ _ _ _ _ Hp Hs), is_Some_bind_Some.
    rewrite rev4_nestedItem_eq.
    assert (Hr : refNodes p n = []).
    { rewrite noNestedRefs_spec in Hn.
      apply (Hn n (preorder_self n)). unfold nestedScope, hasAttr. now rewrite Hp, Hs. }
    rewrite Hr. cbn [app]. apply (rev4_children_depth p cs fuel IHcs).
  - assert (Hroot : Rev4.scopeRoot n = false)
      by (unfold Rev4.scopeRoot, hasAttr; now rewrite Hp, Hs).
    rewrite Hroot. cbn [andb]. rewrite <- Nat.succ_le_mono.
    rewrite (rev4_readItem_property _ _ _ _ _ _ Hp Hs).
    apply (rev4_children_depth p cs fuel IHcs).
  - assert (Hroot : Rev4.scopeRoot n = true)
      by (unfold Rev4.scopeRoot, hasAttr; now rewrite Hp, Hs).
    rewrite Hroot. destruct top; cbn [andb negb].
    + rewrite <- Nat.succ_le_mono, (rev4_readItem_root _ _ _ _ Hroot).
      apply (rev4_children_depth p cs fuel IHcs).
    + rewrite (rev4_readItem_unrelated _ _ _ _ Hroot). split; [lia | eauto].
  - assert (Hroot : Rev4.scopeRoot n = false)
      by (unfold Rev4.scopeRoot, hasAttr; now rewrite Hp, Hs).
    rewrite Hroot. cbn [andb]. rewrite <- Nat.succ_le_mono.
    rewrite (rev4_readItem_plain _ _ _ _ _ Hp Hs).
    apply (rev4_children_depth p cs fuel IHcs).
Qed.

(** When the references of nested scopes descend along a rank below
    [R], [readItem] on a node of the tree [t] returns within the depth
    of the node and [R] further descents through [t]. *)
Lemma rev4_readItem_bounded (p : parser) (rank : Node -> nat) (t : Node) :
  (forall m r, r ∈ refNodes p m -> r ∈ preorder t) ->
  refsDescend p rank t = true ->
  forall R n,
    n ∈ preorder t ->
    (forall k, k ∈ preorder n -> followsRef p k = true -> rank k < R) ->
    forall fuel item top,
      height n + R * height t <= fuel -> is_Some (Rev4.readItem p fuel item n top).
Proof.
  intros Hin Hd R. induction R as [R IHR] using lt_wf_ind.
  intros n. induction n as [ty a d attrs cs IH] using Node_forall_ind.
  intros Hn HR fuel item top Hf.
  set (n := mkNode ty a d attrs cs) in *. rewrite (height_eq n) in Hf.
  change (Children n) with cs in Hf.
  destruct fuel as [|fuel]; [lia |].
  assert (Hcs : forall c, c ∈ cs ->
                          forall item, is_Some (Rev4.readItem p fuel item c false)).
  { rewrite list.Forall_forall in IH. intros c Hc item'.
    assert (Hcn : forall k, k ∈ preorder c -> k ∈ preorder n)
      by (apply (descendants_in_preorder n c); exact Hc).
    apply IH; [exact Hc | | |].
    - apply (preorder_trans t n Hn), Hcn, preorder_self.
    - intros k Hk. apply HR, Hcn, Hk.
    - pose proof (maxHeight_ge cs c Hc). lia. }
  destruct (getAttr "itemprop" n) as [itemprops|] eqn:Hp;
    destruct (getAttr "itemscope" n) as [x|] eqn:Hs.
  - rewrite (rev4_readItem_scope _ _ _ _ _ _ _ Hp Hs), is_Some_bind_Some.
    rewrite rev4_nestedItem_eq.
    apply foldM_total. intros m [Hm | Hm]%elem_of_app item'; [| now apply Hcs].
    assert (Hnested : nestedScope n = true)
      by (unfold nestedScope, hasAttr; now rewrite Hp, Hs).
    assert (Hrank : rank n < R).
    { apply HR; [apply preorder_self |]. apply followsRef_spec.
      split; [exact Hnested |]. intros E. rewrite E in Hm. inversion Hm. }
    apply (IHR (rank n) Hrank m (Hin n m Hm)).
    + intros k Hk Hfk. now apply (refsDescend_spec p rank t Hd n Hn Hnested m Hm).
    + pose proof (height_preorder t m (Hin n m Hm)). nia.
  - rewrite (rev4_readItem_property _ _ _ _ _ _ Hp Hs). now apply foldM_total.
  - assert (Hroot : Rev4.scopeRoot n = true)
      by (unfold Rev4.scopeRoot, hasAttr; now rewrite Hp, Hs).
    destruct top.
    + rewrite (rev4_readItem_root _ _ _ _ Hroot). now apply foldM_total.
    + rewrite (rev4_readItem_unrelated _ _ _ _ Hroot). eauto.
  - rewrite (rev4_readItem_plain _ _ _ _ _ Hp Hs). now apply foldM_total.
Qed.

(** With that fuel at the root, [parse] returns. *)
Lemma rev4_parse_bounded (t : Node) (u : URL) (rank : Node -> nat) (R fuel : nat) :
  refsDescend (Rev4.scanned (newParser t u)) rank t = true ->
  refsBelow (Rev4.scanned (newParser t u)) rank R t = true ->
  (R + 1) * height t <= fuel ->
  exists items, Rev4.parse (newParser t u) fuel = Some (mkMicrodata items, None).
Proof.
  intros Hd Hb Hf. rewrite rev4_parse_eq.
  assert (Hin : forall m r, r ∈ refNodes (Rev4.scanned (newParser t u)) m -> r ∈ preorder t)
    by (intros m r; rewrite rev4_scanned_eq; apply refNodes_in_tree).
  set (p := Rev4.scanned (newParser t u)) in *.
  assert (Hall : forall n item top,
             n ∈ preorder t -> is_Some (Rev4.readItem p fuel item n top)).
  { intros n item top Hn.
    apply (rev4_readItem_bounded p rank t Hin Hd R n Hn).
    - intros k Hk. apply (proj1 (refsBelow_spec p rank R t) Hb).
      now apply (preorder_trans t n).
    - pose proof (height_preorder t n Hn). lia. }
  destruct (foldM_total
              (fun items node => item ← Rev4.parseNode p fuel node;
                                 Some (items ++ [item])%list)
              (Rev4.scan (newParser t u)).1) with (b := Items (data (newParser t u)))
    as [items ->]; [| now exists items].
  intros node Hnode items. apply is_Some_bind_Some.
  rewrite rev4_scan_toplevel in Hnode.
  apply list_elem_of_In, List.filter_In in Hnode as [Hnode%list_elem_of_In _].
  cbn [tree newParser] in Hnode.
  unfold Rev4.parseNode. rewrite rev4_readAttr_eq.
  destruct (foldM_total (fun item n => Rev4.readItem p fuel item n false)
                        (refNodes p node)) with (b := readTypes p node NewItem)
    as [start ->].
  - intros m Hm item. apply Hall. now apply (Hin node).
  - cbn. now apply Hall.
Qed.

(** ** Termination *)

(** C8, as the code has it: when the references of nested scopes
    descend along a rank below [R], [parse] returns within [R + 1]
    times the nesting depth of the document; and when no nested scope
    follows a reference ([R = 0]), [readItem] on a node of the tree
    recurses exactly as deep as the subtree of the node cut below its
    interior scopes that are not properties, which is at most the
    nesting depth of the subtree. *)
Theorem descent_is_bounded_when_references_descend
    (t : Node) (u : URL) (rank : Node -> nat) (R : nat) :
  refsDescend (Rev4.scanned (newParser t u)) rank t = true ->
  refsBelow (Rev4.scanned (newParser t u)) rank R t = true ->
  (forall fuel, (R + 1) * height t <= fuel -> is_Some (Rev4.parse (newParser t u) fuel))
  /\ (R = 0 ->
      forall n, n ∈ preorder t ->
      forall fuel item top,
        (is_Some (Rev4.readItem (Rev4.scanned (newParser t u)) fuel item n top)
         <-> Rev4.depth top n <= fuel)
        /\ Rev4.depth top n <= height n).
Proof.
  intros Hd Hb. split.
  - intros fuel Hf. destruct (rev4_parse_bounded t u rank R fuel Hd Hb Hf) as [items ->].
    eauto.
  - intros -> n Hin fuel item top. apply refsBelow_0 in Hb.
    split; [| apply rev4_depth_le_height].
    apply rev4_readItem_depth. now apply (noNestedRefs_sub _ t).
Qed.

(** ** Errors and omissions *)

Lemma refNodes_spec (p : parser) (node n : Node) :
  n ∈ refNodes p node <->
  exists itemrefs itemref,
    getAttr "itemref" node = Some itemrefs /\
    itemref ∈ Split itemrefs " " /\ itemref <> "" /\
    identifiedNodes p !! itemref = Some n.
Proof.
  unfold refNodes, tokens.
  destruct (getAttr "itemref" node) as [s|].
  - rewrite list_elem_of_omap. split.
    + intros (k & Hk & Hn). apply list_elem_of_In, List.filter_In in Hk as [Hk Hne].
      exists s, k. repeat split; [now apply list_elem_of_In | | exact Hn].
      intros ->. discriminate.
    + intros (s' & k & [= <-] & Hk & Hne & Hn). exists k. split; [| exact Hn].
      apply list_elem_of_In, List.filter_In. split; [now apply list_elem_of_In |].
      now destruct k.
  - split; [intros H; inversion H | intros (? & ? & ? & _); discriminate].
Qed.

(** The value of [getValue] is the one of the table; a node without a
    value in the table has the empty value. *)
Lemma rev4_getValue_table (p : parser) (node : Node) :
  (isText node = false -> Rev4.getValue p node = default "" (valueOf_table p node))
  /\ (valueOf_table p node = None -> Rev4.getValue p node = "").
Proof.
  split.
  - intros Hn. unfold Rev4.getValue, valueOf_table.
    destruct (DataAtom node) eqn:E; cbn;
      try (destruct (getAttr _ node) as [v|]; cbn; [| reflexivity];
           try destruct (Resolve (baseURL p) v); reflexivity).
    now apply default_text.
  - unfold Rev4.getValue, valueOf_table. intros Hv.
    destruct (DataAtom node); cbv beta iota zeta in Hv |- *;
      lazymatch goal with
      | |- walkNodes _ _ _ = _ =>
          exfalso;
          assert (H' : Some (textOf (descendants node)) = @None string) by exact Hv;
          discriminate
      | |- context [Resolve] =>
          lazymatch goal with
          | |- context [getAttr ?k node] =>
              assert (H' : getAttr k node ≫= Resolve (baseURL p) = None) by exact Hv;
              destruct (getAttr k node) as [v|]; [cbn in H'; now rewrite H' | reflexivity]
          end
      | |- context [getAttr ?k node] =>
          assert (H' : getAttr k node = None) by exact Hv; now rewrite H'
      end.
Qed.

Lemma empty_name_never_added (v : Value) (l : list string) :
  forall item,
    Properties (fold_left (fun it k => if nonempty k then appendValue it k v else it) l item)
      !! ""
    = Properties item !! "".
Proof.
  intros item. apply (proj2 (appendValues_lookup v l "" item)).
  induction l as [|k l IH]; simpl; [reflexivity |].
  destruct k as [|c k]; simpl; [exact IH |].
  destruct (string_dec (String c k) ""); [discriminate | exact IH].
Qed.

(** C9, as the code has it.  [parse] has no error of its own: a run
    that returns gives a nil error and one item for each root, and it
    returns when the references of nested scopes descend along a rank.
    What the markup gets wrong is left out: an id carried twice
    identifies the last node; an [itemref] token that is empty or
    identifies no node is skipped; a property whose element kind finds
    no value, for want of the attribute or of a URL that resolves, adds
    nothing and its children are read as usual; and an empty token of
    [itemprop] names no property. *)
Theorem parse_error_is_nil_and_bad_markup_is_left_out (t : Node) (u : URL) :
  (forall fuel d e,
      Rev4.parse (newParser t u) fuel = Some (d, e) ->
      e = None /\ length (Items d) = length (Rev4.scan (newParser t u)).1)
  /\ (forall rank R,
         refsDescend (Rev4.scanned (newParser t u)) rank t = true ->
         refsBelow (Rev4.scanned (newParser t u)) rank R t = true ->
         exists items,
           Rev4.parse (newParser t u) ((R + 1) * height t) = Some (mkMicrodata items, None))
  /\ (forall k,
         identifiedNodes (Rev4.scanned (newParser t u)) !! k
         = list.last (List.filter (hasId k) (preorder t)))
  /\ (forall rd item node,
         Rev4.readAttr (Rev4.scanned (newParser t u)) rd item node
         = foldM rd (refNodes (Rev4.scanned (newParser t u)) node)
                 (readTypes (Rev4.scanned (newParser t u)) node item)
         /\ forall n,
             n ∈ refNodes (Rev4.scanned (newParser t u)) node <->
             exists itemrefs itemref,
               getAttr "itemref" node = Some itemrefs /\
               itemref ∈ Split itemrefs " " /\ itemref <> "" /\
               identifiedNodes (Rev4.scanned (newParser t u)) !! itemref = Some n)
  /\ (forall fuel item node top itemprops,
         getAttr "itemprop" node = Some itemprops ->
         getAttr "itemscope" node = None ->
         valueOf_table (Rev4.scanned (newParser t u)) node = None ->
         Rev4.readItem (Rev4.scanned (newParser t u)) (S fuel) item node top
         = foldM (fun item c => Rev4.readItem (Rev4.scanned (newParser t u)) fuel item c false)
                 (Children node) item)
  /\ (forall item itemprops value subItem,
         Properties (addStrings item itemprops value) !! "" = Properties item !! ""
         /\ Properties (addItems item itemprops subItem) !! "" = Properties item !! "").
Proof.
  split; [| split; [| split; [| split; [| split]]]].
  - intros fuel d e H. apply rev4_parse_Some in H as [H ->]. split; [reflexivity |].
    rewrite (rev4_scan_toplevel (newParser t u)). symmetry. eapply Forall2_length, H.
  - intros rank R Hd Hb. apply (rev4_parse_bounded t u rank R _ Hd Hb). lia.
  - intros k. rewrite rev4_scanned_eq. unfold scanned. cbn [identifiedNodes].
    rewrite scan_identified, identify_fold_last. cbn [tree newParser identifiedNodes].
    destruct (list.last _); [reflexivity | apply lookup_empty].
  - intros rd item node. split; [apply rev4_readAttr_eq | intros n; apply refNodes_spec].
  - intros fuel item node top itemprops Hp Hs Hv.
    rewrite (rev4_readItem_property _ _ _ _ _ _ Hp Hs).
    now rewrite (proj2 (rev4_getValue_table _ _) Hv).
  - intros item itemprops value subItem. split; apply empty_name_never_added.
Qed.

(** ** Further properties of the latest revision *)

(** X8: in the latest revision, a document without a node that carries
    [itemscope] and no [itemprop] has no items: [parse] returns the
    empty list and a nil error within any depth, whatever properties,
    references and scopes that are properties the document has. *)
Theorem rev4_parse_without_scope_root (t : Node) (u : URL) (fuel : nat) :
  Forall (fun n => hasAttr "itemscope" n = false \/ hasAttr "itemprop" n = true)
         (preorder t) ->
  Rev4.parse (newParser t u) fuel = Some (mkMicrodata [], None).
Proof.
  intros H. rewrite rev4_parse_eq, rev4_scan_toplevel. cbn [tree newParser data Items].
  replace (List.filter Rev4.scopeRoot (preorder t)) with (@nil Node); [reflexivity |].
  induction H as [|n l Hn _ IH]; simpl; [reflexivity |].
  unfold Rev4.scopeRoot at 1. destruct Hn as [-> | ->]; [exact IH |].
  now rewrite andb_false_r.
Qed.

(** X21: in the latest revision the value of a property that is not a
    scope is the one of the table of element kinds, which is the value
    the switch of the earlier [readItem] computed; a value is added
    under the names of [itemprop] exactly when it is not empty, from an
    attribute or from the text, and the children are read next. *)
Theorem rev4_property_value_by_element_kind
    (p : parser) (fuel : nat) (item : Item) (node : Node) (top : bool)
    (itemprops : string) :
  isText node = false ->
  getAttr "itemprop" node = Some itemprops ->
  getAttr "itemscope" node = None ->
  Rev4.getValue p node = default "" (valueOf_table p node)
  /\ Rev4.getValue p node = propValue p node
  /\ Rev4.readItem p (S fuel) item node top
     = foldM (fun item c => Rev4.readItem p fuel item c false) (Children node)
         match valueOf_table p node with
         | Some value => if nonempty value then addStrings item itemprops value else item
         | None => item
         end.
Proof.
  intros Hn Hp Hs. pose proof (proj1 (rev4_getValue_table p node) Hn) as Hv.
  split; [exact Hv |]. split; [now rewrite Hv, propValue_table |].
  rewrite (rev4_readItem_property _ _ _ _ _ _ Hp Hs), Hv.
  destruct (valueOf_table p node); reflexivity.
Qed.

(** X22: in the latest revision a scope, a root or a nested one, first
    gets the types and the id of its node, then reads the nodes its
    [itemref] tokens identify, in token order, and then its children;
    empty tokens and tokens that identify no node are skipped. *)
Theorem rev4_references_read_in_token_order
    (p : parser) (fuel : nat) (root : Node) (item : Item) (node : Node) (top : bool)
    (itemprops x : string) :
  hasAttr "itemscope" root = true ->
  hasAttr "itemprop" root = false ->
  getAttr "itemprop" node = Some itemprops ->
  getAttr "itemscope" node = Some x ->
  Rev4.parseNode p (S fuel) root
  = (start ← foldM (fun item n => Rev4.readItem p (S fuel) item n false) (refNodes p root)
               (readTypes p root NewItem);
     foldM (fun item c => Rev4.readItem p fuel item c false) (Children root) start)
  /\ Rev4.readItem p (S fuel) item node top
     = (subItem ← foldM (fun item c => Rev4.readItem p fuel item c false)
                   (refNodes p node ++ Children node) (readTypes p node NewItem);
        Some (addItems item itemprops subItem))
  /\ forall n, n ∈ refNodes p node <->
               exists itemrefs itemref,
                 getAttr "itemref" node = Some itemrefs /\
                 itemref ∈ Split itemrefs " " /\ itemref <> "" /\
                 identifiedNodes p !! itemref = Some n.
Proof.
  intros Hrs Hrp Hp Hs. split; [| split].
  - apply rev4_parseNode_eq. unfold Rev4.scopeRoot. now rewrite Hrs, Hrp.
  - now rewrite (rev4_readItem_scope _ _ _ _ _ _ x Hp Hs), rev4_nestedItem_eq.
  - intros n. apply refNodes_spec.
Qed.

Section Rev4Relation.
Variable p : parser.
Variable R : Item -> Item -> Prop.
Hypothesis R_refl : forall a, R a a.
Hypothesis R_trans : forall a b c, R a b -> R b c -> R a c.
Hypothesis R_string : forall item k s,
    isToken k = true -> nonempty s = true -> R item (appendValue item k (VString s)).
Hypothesis R_item : forall item k sub node,
    isToken k = true -> R (readTypes p node NewItem) sub ->
    R item (appendValue item k (VItem sub)).

(** A relation that holds across every single value [readItem] can
    add holds across [readItem]. *)
Lemma rev4_readItem_rel (fuel : nat) :
  forall item node top item',
    Rev4.readItem p fuel item node top = Some item' -> R item item'.
Proof.
  induction fuel as [|fuel IH]; intros item node top item' H; [discriminate |].
  assert (Hrd : forall it n it',
             Rev4.readItem p fuel it n false = Some it' -> R it it')
    by (intros it n it'; apply IH).
  destruct (getAttr "itemprop" node) as [itemprops|] eqn:Hp;
    destruct (getAttr "itemscope" node) as [x|] eqn:Hs.
  - rewrite (rev4_readItem_scope _ _ _ _ _ _ _ Hp Hs), rev4_nestedItem_eq in H.
    destruct (foldM _ _ _) as [subItem|] eqn:E; [| discriminate].
    injection H as <-. apply (foldM_rel R R_refl R_trans) in E; [| exact Hrd].
    apply (appendValues_rel R R_refl R_trans); [apply Split_noSpace |].
    intros it k Hk. now apply (R_item it k subItem node).
  - rewrite (rev4_readItem_property _ _ _ _ _ _ Hp Hs) in H.
    apply (foldM_rel R R_refl R_trans) in H; [| exact Hrd].
    eapply R_trans; [| exact H].
    destruct (nonempty (Rev4.getValue p node)) eqn:Hv; [| apply R_refl].
    apply (appendValues_rel R R_refl R_trans); [apply Split_noSpace |].
    intros it k Hk. now apply R_string.
  - destruct top.
    + rewrite rev4_readItem_root in H
        by (unfold Rev4.scopeRoot, hasAttr; now rewrite Hp, Hs).
      apply (foldM_rel R R_refl R_trans) in H; [exact H | exact Hrd].
    + rewrite rev4_readItem_unrelated in H
        by (unfold Rev4.scopeRoot, hasAttr; now rewrite Hp, Hs).
      injection H as <-. apply R_refl.
  - rewrite (rev4_readItem_plain _ _ _ _ _ Hp Hs) in H.
    apply (foldM_rel R R_refl R_trans) in H; [exact H | exact Hrd].
Qed.

Lemma rev4_parseNode_rel (fuel : nat) (node : Node) (item : Item) :
  Rev4.parseNode p fuel node = Some item -> R (readTypes p node NewItem) item.
Proof.
  unfold Rev4.parseNode. rewrite rev4_readAttr_eq. intros H.
  destruct (foldM _ _ _) as [start|] eqn:E; [| discriminate]. cbn in H.
  apply (foldM_rel R R_refl R_trans) in E;
    [| intros it n it'; apply rev4_readItem_rel].
  apply rev4_readItem_rel in H. now apply (R_trans _ start).
Qed.
End Rev4Relation.

(** X23: in the latest revision [readItem] only appends: under every
    property name the values the item had are kept, in order, in front
    of the values added, no name is lost, and the types and the id of
    the item are not touched. *)
Theorem rev4_readItem_only_appends
    (p : parser) (fuel : nat) (item : Item) (node : Node) (top : bool) (item' : Item) :
  Rev4.readItem p fuel item node top = Some item' ->
  extends item item' /\ Types item' = Types item /\ Id item' = Id item.
Proof.
  intros H. split; [| now apply rev4_readItem_head in H].
  apply (rev4_readItem_rel p extends extends_refl extends_trans) in H; [exact H | |];
    intros; apply appendValue_extends.
Qed.

(** X24: in the result of the latest [parse], every property name, at
    any depth, is a non-empty token without a space and has at least
    one value, no string value is empty, and every type of a top-level
    item is a non-empty token without a space. *)
Theorem rev4_result_names_are_tokens
    (t : Node) (u : URL) (fuel : nat) (d : Microdata) (e : error) :
  Rev4.parse (newParser t u) fuel = Some (d, e) ->
  Forall (fun item => wellNamed item /\ Forall (fun ty => isToken ty = true) (Types item))
         (Items d).
Proof.
  intros [H _]%rev4_parse_Some.
  assert (Hstart : forall p node, wellNamed (readTypes p node NewItem)).
  { intros p node. constructor. intros k vs. rewrite readTypes_Properties. cbn.
    now rewrite lookup_empty. }
  induction H as [|node item nodes items Hitem _ IH]; constructor; [| exact IH].
  split.
  - apply (rev4_parseNode_rel (Rev4.scanned (newParser t u))
                              (fun a b => wellNamed a -> wellNamed b)
                              (fun a H => H) (fun a b c Hab Hbc H => Hbc (Hab H)))
      with (fuel := fuel) (node := node).
    + intros it k s Hk Hs. apply appendValue_wellNamed; [exact Hk | now constructor].
    + intros it k sub nd Hk Hsub. apply appendValue_wellNamed; [exact Hk |].
      constructor. apply Hsub, Hstart.
    + exact Hitem.
    + apply Hstart.
  - apply rev4_parseNode_head in Hitem as [-> _]. unfold Rev4.typesOf.
    destruct (getAttr "itemtype" node); cbn; [apply tokens_isToken | constructor].
Qed.

(** * The latest revision on the example documents *)

(** [docComment]: the comment is a value of the post and not an item of
    the result. *)
Lemma property_scope_witness :
  Rev4.parse (newParser docComment exampleURL) 4 = Some (mkMicrodata [postWithComment], None)
  /\ Forall (fun n => hasAttr "itemscope" n = true /\ hasAttr "itemprop" n = false)
            (Rev4.scan (newParser docComment exampleURL)).1
  /\ length (Rev4.scan (newParser docComment exampleURL)).1 = 1
  /\ Properties postWithComment !! "comment" = Some [VItem commentItem].
Proof.
  assert (H : Rev4.parse (newParser docComment exampleURL) 4
              = Some (mkMicrodata [postWithComment], None))
    by (vm_compute; reflexivity).
  split; [exact H |].
  destruct (property_scope_is_a_nested_item_only docComment exampleURL) as (Hroots & Hitems & _).
  split; [exact Hroots |].
  split; [etrans; [eapply Forall2_length, (Hitems 4 _ _ H) | reflexivity] |].
  vm_compute. reflexivity.
Defined.

(** [docUntyped]: a scope without a type is a root. *)
Lemma scan_scope_roots_witness :
  Rev4.parse (newParser docUntyped exampleURL) 3 = Some (mkMicrodata [untypedItem], None)
  /\ sublist (Rev4.scan (newParser docUntyped exampleURL)).1 (preorder docUntyped)
  /\ length (Rev4.scan (newParser docUntyped exampleURL)).1 = 1.
Proof.
  assert (H : Rev4.parse (newParser docUntyped exampleURL) 3
              = Some (mkMicrodata [untypedItem], None))
    by (vm_compute; reflexivity).
  split; [exact H |].
  destruct (scan_returns_scope_roots_in_document_order docUntyped exampleURL)
    as (_ & _ & Hsub & Hitems).
  split; [exact Hsub |].
  etrans; [eapply Forall2_length, (Hitems 3 _ _ H) | reflexivity].
Defined.


(** C4 as stated fails on [docIdOnly]: the scope has an [itemid] that
    resolves and no [itemtype], and its item has no id. *)
Lemma itemid_without_itemtype_is_not_assigned :
  getAttr "itemtype" idOnlyScope = None
  /\ getAttr "itemid" idOnlyScope ≫= Resolve exampleURL = Some "http://example.com/b1"
  /\ Rev4.parse (newParser docIdOnly exampleURL) 3 = Some (mkMicrodata [idOnlyItem], None)
  /\ Id idOnlyItem = "".
Proof. repeat split; vm_compute; reflexivity. Qed.

(** The nested item of [docComment] has the type and the id of its
    node; the item of a root whose [itemtype] is empty has no type, and
    the id of its node. *)
Lemma item_types_and_id_witness :
  (exists subItem,
      addItems NewItem "comment" commentItem = addItems NewItem "comment" subItem
      /\ Types subItem = ["http://example.com/Comment"]
      /\ Id subItem = "http://example.com/c1")
  /\ Rev4.parseNode (Rev4.scanned (newParser docEmptyType exampleURL)) 3 emptyTypeScope
     = Some emptyTypeItem
  /\ Types emptyTypeItem = []
  /\ Id emptyTypeItem = "http://example.com/b2".
Proof.
  assert (H : Rev4.readItem (Rev4.scanned (newParser docComment exampleURL)) 3 NewItem
                commentScope false
              = Some (addItems NewItem "comment" commentItem))
    by (vm_compute; reflexivity).
  assert (H' : Rev4.parseNode (Rev4.scanned (newParser docEmptyType exampleURL)) 3
                 emptyTypeScope
               = Some emptyTypeItem)
    by (vm_compute; reflexivity).
  split.
  - destruct (proj1 (proj2 (item_types_and_id_are_read_by_readAttr
                              (Rev4.scanned (newParser docComment exampleURL)) 3
                              commentScope))
                    NewItem _ false "comment" "" eq_refl eq_refl H)
      as (subItem & E & Ht & Hi).
    exists subItem. split; [exact E |]. split; [exact Ht | exact Hi].
  - split; [exact H' |].
    exact (proj1 (item_types_and_id_are_read_by_readAttr
                    (Rev4.scanned (newParser docEmptyType exampleURL)) 3 emptyTypeScope)
                 emptyTypeItem H').
Defined.

(** C10 as stated fails on [docComment]: the item attached under
    [comment] has the type and the id of the comment node. *)
Lemma nested_item_has_type_and_id :
  getAttr "itemprop" commentScope = Some "comment"
  /\ getAttr "itemscope" commentScope = Some ""
  /\ Rev4.parse (newParser docComment exampleURL) 4 = Some (mkMicrodata [postWithComment], None)
  /\ Properties postWithComment !! "comment" = Some [VItem commentItem]
  /\ Types commentItem = ["http://example.com/Comment"]
  /\ Id commentItem = "http://example.com/c1".
Proof. repeat split; vm_compute; reflexivity. Qed.

Lemma nested_item_witness :
  getAttr "itemprop" commentScope = Some "comment"
  /\ getAttr "itemscope" commentScope = Some ""
  /\ exists subItem,
      Types subItem = Rev4.typesOf commentScope
      /\ Id subItem = Rev4.idOf (Rev4.scanned (newParser docComment exampleURL)) commentScope
      /\ default [] (Properties (addItems NewItem "comment" commentItem) !! "comment")
         = [VItem subItem].
Proof.
  split; [reflexivity |]. split; [reflexivity |].
  assert (H : Rev4.readItem (Rev4.scanned (newParser docComment exampleURL)) 3 NewItem
                commentScope false
              = Some (addItems NewItem "comment" commentItem))
    by (vm_compute; reflexivity).
  destruct (nested_item_has_types_and_id_of_its_node
              (Rev4.scanned (newParser docComment exampleURL)) 3 NewItem _ commentScope false
              "comment" "" eq_refl eq_refl H) as (subItem & Ht & Hi & _ & Hv).
  exists subItem. split; [exact Ht |]. split; [exact Hi |].
  rewrite (Hv "comment"). reflexivity.
Defined.

(** On [docLoop] no call on [loopBox] or on [loopScope] returns. *)
Lemma rev4_loop_never_returns (fuel : nat) :
  (forall item,
      Rev4.readItem (Rev4.scanned (newParser docLoop exampleURL)) fuel item loopBox false = None)
  /\ (forall item,
         Rev4.readItem (Rev4.scanned (newParser docLoop exampleURL)) fuel item loopScope false
         = None).
Proof.
  assert (Hr : refNodes (Rev4.scanned (newParser docLoop exampleURL)) loopScope = [loopBox])
    by (vm_compute; reflexivity).
  set (p := Rev4.scanned (newParser docLoop exampleURL)) in *.
  induction fuel as [|fuel [IHbox IHscope]]; [split; reflexivity |].
  split; intros item.
  - rewrite rev4_readItem_plain by reflexivity.
    change (Children loopBox) with [loopScope]. cbn [foldM]. now rewrite IHscope.
  - rewrite (rev4_readItem_scope p fuel item loopScope false "part" "") by reflexivity.
    rewrite rev4_nestedItem_eq, Hr. change (Children loopScope) with (@nil Node).
    cbn [app foldM]. now rewrite IHbox.
Qed.

(** A root with a child that no call returns from gives no result. *)
Lemma rev4_parse_stuck (t : Node) (u : URL) (fuel : nat) (top c : Node) :
  top ∈ (Rev4.scan (newParser t u)).1 ->
  c ∈ Children top ->
  (forall fuel item,
      Rev4.readItem (Rev4.scanned (newParser t u)) fuel item c false = None) ->
  Rev4.parse (newParser t u) fuel = None.
Proof.
  intros Htop Hc Hnone. rewrite rev4_parse_eq.
  rewrite (foldM_stuck _ _ top Htop); [reflexivity |].
  intros items. destruct fuel as [|fuel].
  - unfold Rev4.parseNode. destruct (Rev4.readAttr _ _ _ _); reflexivity.
  - rewrite rev4_parseNode_eq.
    + destruct (foldM _ (refNodes _ top) _) as [start|]; [| reflexivity]. cbn.
      rewrite (foldM_stuck _ _ c Hc); [reflexivity |]. intros b. apply Hnone.
    + rewrite (rev4_scan_toplevel (newParser t u)) in Htop.
      now apply list_elem_of_In, List.filter_In in Htop as [_ Htop].
Qed.

(** C8 as stated fails on [docLoop]: [loopScope] is a nested scope
    inside an item, its [itemref] names [loopBox], which contains it,
    and [parse] returns within no depth. *)
Lemma nested_reference_loop_does_not_return :
  loopScope ∈ preorder loopBox
  /\ nestedScope loopScope = true
  /\ refNodes (Rev4.scanned (newParser docLoop exampleURL)) loopScope = [loopBox]
  /\ forall fuel, Rev4.parse (newParser docLoop exampleURL) fuel = None.
Proof.
  split; [vm_compute; right; left |]. split; [reflexivity |].
  split; [vm_compute; reflexivity |].
  intros fuel. apply (rev4_parse_stuck docLoop exampleURL fuel loopThing loopBox).
  - vm_compute. left.
  - left.
  - intros fuel' item. apply rev4_loop_never_returns.
Qed.

(** The same nested scope beside the item is never read, and [parse]
    returns. *)
Lemma unread_reference_loop_returns :
  refNodes (Rev4.scanned (newParser docLoopUnread exampleURL)) loopScope = [loopBox]
  /\ is_Some (Rev4.parse (newParser docLoopUnread exampleURL) 1).
Proof. split; [vm_compute; reflexivity | vm_compute; eauto]. Qed.

(** On [docDeep] a nested scope follows a reference to a node beside
    the item; on [docBreadcrumb] no reference is followed, and the
    descent into the person stops at the breadcrumb, above the nesting
    depth of the person. *)
Lemma descent_bound_witness :
  (refsDescend (Rev4.scanned (newParser docDeep exampleURL)) (fun _ => 0) docDeep = true
   /\ refsBelow (Rev4.scanned (newParser docDeep exampleURL)) (fun _ => 0) 1 docDeep = true
   /\ is_Some (Rev4.parse (newParser docDeep exampleURL) 8))
  /\ (refsDescend (Rev4.scanned (newParser docBreadcrumb exampleURL)) (fun _ => 0)
                  docBreadcrumb = true
      /\ refsBelow (Rev4.scanned (newParser docBreadcrumb exampleURL)) (fun _ => 0) 0
                   docBreadcrumb = true
      /\ personScope ∈ preorder docBreadcrumb
      /\ Rev4.depth true personScope = 3
      /\ height personScope = 4
      /\ forall item,
           is_Some (Rev4.readItem (Rev4.scanned (newParser docBreadcrumb exampleURL)) 3 item
                                  personScope true)).
Proof.
  split.
  - assert (Hd : refsDescend (Rev4.scanned (newParser docDeep exampleURL)) (fun _ => 0)
                             docDeep = true) by (vm_compute; reflexivity).
    assert (Hb : refsBelow (Rev4.scanned (newParser docDeep exampleURL)) (fun _ => 0) 1
                           docDeep = true) by (vm_compute; reflexivity).
    split; [exact Hd | split; [exact Hb |]].
    apply (proj1 (descent_is_bounded_when_references_descend
                    docDeep exampleURL (fun _ => 0) 1 Hd Hb) 8).
    vm_compute. lia.
  - assert (Hd : refsDescend (Rev4.scanned (newParser docBreadcrumb exampleURL)) (fun _ => 0)
                             docBreadcrumb = true) by (vm_compute; reflexivity).
    assert (Hb : refsBelow (Rev4.scanned (newParser docBreadcrumb exampleURL)) (fun _ => 0) 0
                           docBreadcrumb = true) by (vm_compute; reflexivity).
    assert (Hin : personScope ∈ preorder docBreadcrumb) by (vm_compute; right; left).
    split; [exact Hd | split; [exact Hb | split; [exact Hin |]]].
    split; [reflexivity | split; [reflexivity |]]. intros item.
    apply (proj1 (proj2 (descent_is_bounded_when_references_descend
                           docBreadcrumb exampleURL (fun _ => 0) 0 Hd Hb)
                        eq_refl personScope Hin 3 item true)).
    vm_compute. lia.
Defined.

(** On [docSelf] no call on [selfScope] returns. *)
Lemma rev4_self_never_returns (fuel : nat) :
  forall item,
    Rev4.readItem (Rev4.scanned (newParser docSelf exampleURL)) fuel item selfScope false
    = None.
Proof.
  assert (Hr : refNodes (Rev4.scanned (newParser docSelf exampleURL)) selfScope = [selfScope])
    by (vm_compute; reflexivity).
  set (p := Rev4.scanned (newParser docSelf exampleURL)) in *.
  induction fuel as [|fuel IH]; intros item; [reflexivity |].
  rewrite (rev4_readItem_scope p fuel item selfScope false "part" "") by reflexivity.
  rewrite rev4_nestedItem_eq, Hr. change (Children selfScope) with (@nil Node).
  cbn [app foldM]. now rewrite IH.
Qed.

(** C9 as stated fails on [docSelf]: the [itemref] of [selfScope], a
    nested scope inside an item, names the scope itself, and [parse]
    returns no result, with or without an error. *)
Lemma self_reference_gives_no_result :
  refNodes (Rev4.scanned (newParser docSelf exampleURL)) selfScope = [selfScope]
  /\ ~ exists fuel d e, Rev4.parse (newParser docSelf exampleURL) fuel = Some (d, e).
Proof.
  split; [vm_compute; reflexivity |].
  intros (fuel & d & e & H).
  rewrite (rev4_parse_stuck docSelf exampleURL fuel selfThing selfScope) in H.
  - discriminate.
  - vm_compute. left.
  - left.
  - intros fuel' item. apply rev4_self_never_returns.
Qed.

(** [docMovie]: an empty token and a token that identifies no node
    among the references, and a result with a nil error. *)
Lemma parse_omission_witness :
  Rev4.parse (newParser docMovie exampleURL) 3 = Some (mkMicrodata [movieItem], None)
  /\ length (Rev4.scan (newParser docMovie exampleURL)).1 = 1
  /\ identifiedNodes (Rev4.scanned (newParser docMovie exampleURL)) !! "missing" = None.
Proof.
  assert (H : Rev4.parse (newParser docMovie exampleURL) 3
              = Some (mkMicrodata [movieItem], None))
    by (vm_compute; reflexivity).
  destruct (parse_error_is_nil_and_bad_markup_is_left_out docMovie exampleURL)
    as (Hnil & _ & Hid & _).
  split; [exact H |].
  split; [symmetry; exact (proj2 (Hnil 3 _ _ H)) |].
  rewrite (Hid "missing"). reflexivity.
Defined.

(** [document [loopBox]]: the scope is a property and no item is
    built, though its reference leads back to it. *)
Lemma parse_without_scope_root_witness :
  Forall (fun n => hasAttr "itemscope" n = false \/ hasAttr "itemprop" n = true)
         (preorder (document [loopBox]))
  /\ Rev4.parse (newParser (document [loopBox]) exampleURL) 0 = Some (mkMicrodata [], None).
Proof.
  assert (H : Forall (fun n => hasAttr "itemscope" n = false \/ hasAttr "itemprop" n = true)
                     (preorder (document [loopBox]))).
  { cbn. repeat constructor; (now left) || (now right). }
  split; [exact H |].
  exact (rev4_parse_without_scope_root (document [loopBox]) exampleURL 0 H).
Defined.

Lemma rev4_property_value_witness :
  isText imgWork = false
  /\ getAttr "itemprop" imgWork = Some "work"
  /\ getAttr "itemscope" imgWork = None
  /\ Rev4.getValue (newParser docMeta exampleURL) imgWork
     = "http://example.com/images/house.jpeg".
Proof.
  split; [reflexivity | split; [reflexivity | split; [reflexivity |]]].
  rewrite (proj1 (rev4_property_value_by_element_kind
                    (newParser docMeta exampleURL) 0 NewItem imgWork false "work"
                    eq_refl eq_refl eq_refl)).
  reflexivity.
Defined.

Lemma rev4_references_witness :
  hasAttr "itemscope" bandScope = true
  /\ hasAttr "itemprop" bandScope = false
  /\ getAttr "itemprop" memberScope = Some "member"
  /\ getAttr "itemscope" memberScope = Some ""
  /\ refNodes (Rev4.scanned (newParser docBand exampleURL)) memberScope
     = [memberBob; memberAnn]
  /\ Rev4.readItem (Rev4.scanned (newParser docBand exampleURL)) 3 NewItem memberScope false
     = Some (addItems NewItem "member" memberValue).
Proof.
  repeat (split; [reflexivity || (vm_compute; reflexivity) |]).
  destruct (rev4_references_read_in_token_order
              (Rev4.scanned (newParser docBand exampleURL)) 2 bandScope NewItem memberScope
              false "member" "" eq_refl eq_refl eq_refl eq_refl) as (_ & -> & _).
  vm_compute. reflexivity.
Defined.

Lemma rev4_only_appends_witness :
  Rev4.readItem (newParser docMeta exampleURL) 3 (addString NewItem "title" "Untitled")
                spanTitle false
  = Some (addString (addString NewItem "title" "Untitled") "title" "The house I found.")
  /\ extends (addString NewItem "title" "Untitled")
             (addString (addString NewItem "title" "Untitled") "title" "The house I found.").
Proof.
  assert (H : Rev4.readItem (newParser docMeta exampleURL) 3
                (addString NewItem "title" "Untitled") spanTitle false
              = Some (addString (addString NewItem "title" "Untitled") "title"
                                "The house I found."))
    by (vm_compute; reflexivity).
  split; [exact H |].
  exact (proj1 (rev4_readItem_only_appends _ _ _ _ _ _ H)).
Defined.

Lemma rev4_result_names_witness :
  Rev4.parse (newParser docBand exampleURL) 4 = Some (mkMicrodata [bandItem], None)
  /\ Forall (fun item => wellNamed item /\ Forall (fun ty => isToken ty = true) (Types item))
            [bandItem].
Proof.
  assert (H : Rev4.parse (newParser docBand exampleURL) 4
              = Some (mkMicrodata [bandItem], None))
    by (vm_compute; reflexivity).
  split; [exact H |].
  exact (rev4_result_names_are_tokens docBand exampleURL 4 _ _ H).
Defined.
